(** * The message relayer service, embedded and verified

    Source: [packages/message-relayer/src/service/message-relayer.service.ts].

    The service is a TypeScript class whose methods await RPC calls, mutate the
    fields of [this], write log lines and may throw.  It is embedded as
    explicit state passing: a computation takes the service state and returns
    a result (a value, a thrown error, or "still running" when the loop budget
    is spent), the new state, and the list of observable actions it performed
    (log lines, sleeps, RPC calls).

    Conventions of the embedding.
    - A JavaScript [number] that holds a height, a size or an interval is a
      [Z]; the arithmetic of the source is exact on such numbers below 2^53.
      A [BigNumber] (a field of an event or of a header) is a [Z] as well;
      [BigNumber.toNumber()] returns it when it is a safe integer and throws
      otherwise.
    - A hex data string ("0x" followed by hex digits) is a [string], as in
      the source; a [Buffer] is a [list byte].
    - Libraries the service imports but which are not part of it ([ethers]'
      keccak and ABI coder, [rlp]) are parameters of the development; the two
      chains are reached through a record of RPC answers.

    The overrides of the state batch submitter, which appends the batches
    the relayer reads, are embedded in [StateBatchSubmitter]
    ([packages/batch-submitter/src/batch-submitter/state-batch-submitter.ts]). *)

From Stdlib Require Import String Ascii ZArith NArith List Bool Lia Arith.
From Stdlib.Strings Require Import Byte.
Import ListNotations.

Local Open Scope string_scope.
Local Open Scope list_scope.
Local Open Scope Z_scope.

(** ** Hex strings and buffers *)

Module Hex.

(** Value of one hex digit, either case, as the regular expression
    [0-9A-Fa-f] of [isHexString] accepts it. *)
Definition digit_value (c : ascii) : option N :=
  let n := N_of_ascii c in
  if ((48 <=? n) && (n <=? 57))%N then Some (n - 48)%N
  else if ((97 <=? n) && (n <=? 102))%N then Some (n - 87)%N
  else if ((65 <=? n) && (n <=? 70))%N then Some (n - 55)%N
  else None.

(** Lower-case digit of a nibble, as [hexlify] prints it. *)
Definition digit (n : N) : ascii :=
  if (n <? 10)%N then ascii_of_N (n + 48) else ascii_of_N (n + 87).

Definition byte_of_digits (h l : ascii) : option byte :=
  match digit_value h, digit_value l with
  | Some a, Some b => Byte.of_N (16 * a + b)
  | _, _ => None
  end.

Definition digits_of_byte (b : byte) : string :=
  let n := Byte.to_N b in
  String (digit (n / 16)) (String (digit (n mod 16)) EmptyString).

(** The digits after the "0x" prefix. *)
Fixpoint body (bs : list byte) : string :=
  match bs with
  | [] => EmptyString
  | b :: rest => (digits_of_byte b ++ body rest)%string
  end.

(** [ethers.utils.hexlify] of a byte array. *)
Definition hexlify (bs : list byte) : string := ("0x" ++ body bs)%string.

(** Strict parse of the digits: every pair must be two hex digits and no
    digit may be left over ("hex data is odd-length"). *)
Fixpoint parse (s : string) : option (list byte) :=
  match s with
  | EmptyString => Some []
  | String h (String l rest) =>
      match byte_of_digits h l, parse rest with
      | Some b, Some bs => Some (b :: bs)
      | _, _ => None
      end
  | String _ EmptyString => None
  end.

(** [ethers.utils.arrayify] of a string: [None] stands for the
    [invalid arrayify value] / [hex data is odd-length] exception. *)
Definition arrayify (s : string) : option (list byte) :=
  match s with
  | String "0" (String "x" digits) => parse digits
  | _ => None
  end.

(** [Buffer.from(s, 'hex')]: decodes pairs of digits and stops silently at
    the first pair that is not hex. *)
Fixpoint Buffer_from_hex (s : string) : list byte :=
  match s with
  | String h (String l rest) =>
      match byte_of_digits h l with
      | Some b => b :: Buffer_from_hex rest
      | None => []
      end
  | _ => []
  end.

(** [s.slice(2)] *)
Definition slice2 (s : string) : string :=
  match s with
  | String _ (String _ rest) => rest
  | _ => EmptyString
  end.

(** ['00'.repeat(n)] *)
Fixpoint repeat00 (n : nat) : string :=
  match n with
  | O => EmptyString
  | S k => ("00" ++ repeat00 k)%string
  end.

Definition zeros (n : nat) : list byte := repeat x00 n.

End Hex.

(** ** The Merkle tree library

    [merkletreejs], as the service uses it: [new MerkleTree(leaves, hash)]
    with no option set (no leaf hashing, no pair sorting, no duplication of
    an odd node), and [getProof(leaf, index)] with a numeric index. *)

Module MerkleTree.

Definition Buffer := list byte.

Inductive Position := left | right.

Record ProofItem := { position : Position; data : Buffer }.

Section WithHash.

Variable hashAlgo : Buffer -> Buffer.

(** One pass of the inner [for] loop of [_createHashes]: nodes are taken
    two by two and hashed as [hashAlgo(Buffer.concat([left, right]))]; a
    last node without a partner is pushed unchanged. *)
Fixpoint hashLayer (nodes : list Buffer) : list Buffer :=
  match nodes with
  | l :: r :: rest => hashAlgo (l ++ r) :: hashLayer rest
  | [odd] => [odd]
  | [] => []
  end.

(** [while (nodes.length > 1) { ...; nodes = this.layers[layerIndex] }]:
    the layers pushed above [nodes].  A layer is at most half as long
    (rounded up) as the one below, so [length nodes] rounds suffice. *)
Fixpoint _createHashes (rounds : nat) (nodes : list Buffer) : list (list Buffer) :=
  match rounds with
  | O => []
  | S n =>
      if (1 <? length nodes)%nat
      then let layer := hashLayer nodes in layer :: _createHashes n layer
      else []
  end.

Record t := { leaves : list Buffer; layers : list (list Buffer) }.

(** The constructor: [this.layers = [this.leaves]; this._createHashes(this.leaves)]. *)
Definition new (leaves : list Buffer) : t :=
  {| leaves := leaves;
     layers := leaves :: _createHashes (length leaves) leaves |}.

(** [getRoot()]: [this.layers[this.layers.length - 1][0] || Buffer.from([])]. *)
Definition getRoot (tree : t) : Buffer :=
  match last (layers tree) [] with
  | root :: _ => root
  | [] => []
  end.

(** The loop of [getProof] over the layers, bottom-up. *)
Fixpoint getProof_layers (ls : list (list Buffer)) (index : nat) : list ProofItem :=
  match ls with
  | [] => []
  | layer :: above =>
      let isRightNode := Nat.odd index in
      let pairIndex := if isRightNode then (index - 1)%nat else (index + 1)%nat in
      (match nth_error layer pairIndex with
       | Some d => [{| position := if isRightNode then left else right; data := d |}]
       | None => []
       end) ++ getProof_layers above (index / 2)%nat
  end.

(** [getProof(leaf, index)] with [typeof index === 'number']: the leaf
    itself is not consulted; an index [<= -1] gives the empty proof. *)
Definition getProof (tree : t) (leaf : option Buffer) (index : Z) : list ProofItem :=
  if index <=? -1 then [] else getProof_layers (layers tree) (Z.to_nat index).

(** Folding a node up with sibling hashes, the position of the node at
    each level being read off the index (even: the node is the left
    child).  This is how an inclusion proof is checked. *)
Fixpoint fold_siblings (index : nat) (node : Buffer) (siblings : list Buffer) : Buffer :=
  match siblings with
  | [] => node
  | s :: rest =>
      fold_siblings (index / 2)%nat
        (if Nat.even index then hashAlgo (node ++ s) else hashAlgo (s ++ node)) rest
  end.

(** The root of the complete binary tree of height [k] over [2^k]
    leaves, top-down: each internal node is the hash of its left child
    followed by its right child. *)
Fixpoint complete_root (k : nat) (ls : list Buffer) : Buffer :=
  match k with
  | O => hd [] ls
  | S k' => hashAlgo (complete_root k' (firstn (2 ^ k') ls)
                      ++ complete_root k' (skipn (2 ^ k') ls))
  end.

End WithHash.

End MerkleTree.

(** ** Data model

    The records of [types/ovm.types], with the fields the service reads and
    writes, and the shapes of what the two chains return. *)

Definition Buffer := list byte.

Module StateBatchHeader.
Record t := {
  batchIndex : Z;
  batchRoot : string;
  batchSize : Z;
  prevTotalElements : Z;
  extraData : string;
  stateRoots : list string
}.
End StateBatchHeader.

Module SentMessage.
Record t := {
  target : string;
  sender : string;
  data : string;
  nonce : Z;
  calldata : string;
  hash : string;
  height : Z
}.
End SentMessage.

Module StateRootProof.
Record t := { index : Z; siblings : list Buffer }.
End StateRootProof.

Module MessageProof.
Record t := {
  stateRoot : option string;       (* [batch.stateRoots[index]], [None] when undefined *)
  stateRootBatchHeader : StateBatchHeader.t;
  stateRootProof : StateRootProof.t;
  stateTrieWitness : Buffer;
  storageTrieWitness : Buffer
}.
End MessageProof.

(** A [StateBatchAppended] log with its [args] and the hash of the
    transaction that emitted it. *)
Module StateBatchAppended.
Record t := {
  _batchIndex : Z;
  _batchRoot : string;
  _batchSize : Z;
  _prevTotalElements : Z;
  _extraData : string;
  transactionHash : string
}.
End StateBatchAppended.

(** A [SentMessage] log: [args.message] and the block it was mined in. *)
Module SentMessageEvent.
Record t := { message : string; blockNumber : Z }.
End SentMessageEvent.

Module Transaction.
Record t := { data : string }.
End Transaction.

(** The result of [eth_getProof] when it is not [undefined]: the proof
    object, or [null] (the source tests the result against [undefined]
    only).  [accountProof] and [storageProof] are what is read off an
    object; the reads of the source throw on [null], see
    [assembleMessageProof]. *)
Module EthProof.
Record StorageProof := { proof : list string }.
Inductive t :=
| null
| object (accountProof : list string) (storageProof : list StorageProof).
Definition accountProof (p : t) : list string :=
  match p with
  | object a _ => a
  | null => []
  end.
Definition storageProof (p : t) : list StorageProof :=
  match p with
  | object _ s => s
  | null => []
  end.
End EthProof.

(** The decoded arguments of [relayMessage(_target, _sender, _message, _messageNonce)]. *)
Module RelayMessageArgs.
Record t := { _target : string; _sender : string; _message : string; _messageNonce : Z }.
End RelayMessageArgs.

(** An optional numeric option as JavaScript sees it. *)
Inductive OptNumber := undefined | NaN | Num (z : Z).

(** [v || d] on such a value: [undefined], [NaN] and [0] are falsy. *)
Definition falsy (v : OptNumber) : bool :=
  match v with
  | Num z => z =? 0
  | _ => true
  end.

Definition or_default (v : OptNumber) (d : Z) : Z :=
  match v with
  | Num z => if z =? 0 then d else z
  | _ => d
  end.

(** [v < 0]: false on [undefined] and [NaN]. *)
Definition lt0 (v : OptNumber) : bool :=
  match v with
  | Num z => z <? 0
  | _ => false
  end.

Module Options.
Record t := {
  stateCommitmentChainAddress : string;
  l1CrossDomainMessengerAddress : string;
  l2CrossDomainMessengerAddress : string;
  l2ToL1MessagePasserAddress : string;
  l2ChainStartingHeight : OptNumber;
  pollingInterval : OptNumber;
  blockOffset : OptNumber
}.
End Options.

(** ** Errors, answers, actions *)

Inductive Err :=
| ThrownString (s : string)    (* [throw "..."] *)
| TypeError (what : string)    (* a property read on [undefined] or [null] *)
| ArgumentError (what : string)(* [ethers] rejected a value: bad hex, bad calldata *)
| CallError (what : string)    (* a provider or contract call was rejected *)
| NumericFault (what : string). (* [toNumber()] could not convert a [BigNumber] *)

(** What an awaited promise of the outside world settles to. *)
Inductive Answer (A : Type) :=
| Resolve (a : A)
| Reject (e : Err).
Arguments Resolve {A} a.
Arguments Reject {A} e.

Inductive RpcCall :=
| DetectNetworkL1
| DetectNetworkL2
| QueryStateBatchAppended
| GetTransaction (txHash : string)
| InsideFraudProofWindow (batch : StateBatchHeader.t)
| SuccessfulMessages (msgHash : string)
| RelayMessage (target sender data : string) (nonce : Z)
               (proof : option MessageProof.t) (gasLimit : Z)
| QuerySentMessage (fromBlock toBlock : Z)
| EthGetProof (address : string) (slots : list string) (block : Z).

Inductive Level := status | info | interesting | success | error.

(** What a run does that an observer can see, in order. *)
Inductive Action :=
| Log (level : Level) (text : string)
| LogN (level : Level) (text : string) (n : Z)     (* a template with one number *)
| LogErr (text : string) (e : Err)                 (* [logger.error] of a caught value *)
| Sleep (ms : Z)
| Call (at_clock : nat) (c : RpcCall).             (* an awaited call and the instant it was made *)

(** The answers of the two chains at one instant.  The contract handles of
    the service are bound to the configured addresses; [l1xdm_relayMessage]
    stands for the signed call followed by [result.wait()]. *)
Record Chains := {
  l1_detectNetwork : Answer unit;
  l2_detectNetwork : Answer unit;
  scc_StateBatchAppended : Answer (list StateBatchAppended.t);
  l1_getTransaction : string -> Answer (option Transaction.t);
  scc_insideFraudProofWindow : StateBatchHeader.t -> Answer bool;
  l1xdm_successfulMessages : string -> Answer bool;
  l1xdm_relayMessage :
    string -> string -> string -> Z -> option MessageProof.t -> Answer unit;
  l2xdm_SentMessage : Z -> Z -> Answer (list SentMessageEvent.t);
  l2_eth_getProof : string -> list string -> Z -> Answer (option EthProof.t)
}.

(** The chains move on their own: the call made at instant [n] (the
    [n]-th call of a run, counting from [clock] of the initial state) is
    answered by the chains as they are at that instant. *)
Definition World := nat -> Chains.

(** ** The service object and the effect monad *)

Module Service.
Record t := {
  options : Options.t;
  pollingInterval : Z;
  lastFinalizedTxHeight : Z;
  nextUnfinalizedTxHeight : Z;
  blockOffset : Z
}.
End Service.

Record Mem := { this : Service.t; clock : nat }.

Inductive Result (A : Type) :=
| Return (a : A)
| Throw (e : Err)
| Running.           (* the loop budget ran out: the code is still looping *)
Arguments Return {A} a.
Arguments Throw {A} e.
Arguments Running {A}.

Definition M (A : Type) : Type := Mem -> Result A * Mem * list Action.

Definition ret {A} (a : A) : M A := fun m => (Return a, m, []).

Definition bind {A B} (c : M A) (k : A -> M B) : M B :=
  fun m =>
    match c m with
    | (Return a, m1, t1) =>
        match k a m1 with
        | (r, m2, t2) => (r, m2, t1 ++ t2)
        end
    | (Throw e, m1, t1) => (Throw e, m1, t1)
    | (Running, m1, t1) => (Running, m1, t1)
    end.

Definition throw {A} (e : Err) : M A := fun m => (Throw e, m, []).

Definition running {A} : M A := fun m => (Running, m, []).

(** [try { c } catch (err) { handler(err) }] *)
Definition try_catch {A} (c : M A) (handler : Err -> M A) : M A :=
  fun m =>
    match c m with
    | (Throw e, m1, t1) =>
        match handler e m1 with
        | (r, m2, t2) => (r, m2, t1 ++ t2)
        end
    | other => other
    end.

Definition emit (a : Action) : M unit := fun m => (Return tt, m, [a]).

Definition gets {A} (f : Service.t -> A) : M A := fun m => (Return (f (this m)), m, []).

Definition modify (f : Service.t -> Service.t) : M unit :=
  fun m => (Return tt, {| this := f (this m); clock := clock m |}, []).

(** A value computed by a library call that may throw. *)
Definition lift {A} (v : Err + A) : M A :=
  match v with
  | inr a => ret a
  | inl e => throw e
  end.

Declare Scope relayer_scope.
Delimit Scope relayer_scope with relayer.
Notation "x <- c ;; k" := (bind c (fun x => k))
  (at level 61, c at next level, right associativity) : relayer_scope.
Notation "c ;; k" := (bind c (fun _ => k))
  (at level 61, right associativity) : relayer_scope.
Local Open Scope relayer_scope.

(** [for (const x of xs) { body(x) }] *)
Fixpoint for_of {A} (xs : list A) (body : A -> M unit) : M unit :=
  match xs with
  | [] => ret tt
  | x :: rest => body x ;; for_of rest body
  end.

(** [xs.map(f)] where [f] may throw: the first exception ends the map. *)
Fixpoint map_throwing {A B} (f : A -> Err + B) (xs : list A) : Err + list B :=
  match xs with
  | [] => inr []
  | x :: rest =>
      match f x with
      | inl e => inl e
      | inr y =>
          match map_throwing f rest with
          | inl e => inl e
          | inr ys => inr (y :: ys)
          end
      end
  end.

(** [xs[i]] on a JavaScript array. *)
Definition at_index {A} (xs : list A) (i : Z) : option A :=
  if i <? 0 then None else nth_error xs (Z.to_nat i).

Definition state_of {A} (x : Result A * Mem * list Action) : Mem := snd (fst x).
Definition result_of {A} (x : Result A * Mem * list Action) : Result A := fst (fst x).
Definition trace_of {A} (x : Result A * Mem * list Action) : list Action := snd x.

(** ** The service *)

Section MessageRelayerService.

(** [keccak_256] on bytes. *)
Variable keccak : list byte -> list byte.
(** [interface.decodeFunctionData('appendStateBatch', data)]: the state
    roots and the start element, [None] when the coder throws. *)
Variable decodeAppendStateBatch : string -> option (list string * Z).
(** [interface.decodeFunctionData('relayMessage', data)]. *)
Variable decodeRelayMessage : string -> option RelayMessageArgs.t.
(** [rlp.encode] of a list of hex strings. *)
Variable rlp_encode : list string -> Buffer.

Variable world : World.

(** An awaited call: it is seen, answered by the chains as they are now,
    and time moves on. *)
Definition rpc {A} (c : RpcCall) (ask : Chains -> Answer A) : M A :=
  fun m =>
    (match ask (world (clock m)) with
     | Resolve a => Return a
     | Reject e => Throw e
     end,
     {| this := this m; clock := S (clock m) |},
     [Call (clock m) c]).

(** [ethers.utils.keccak256] on a hex string and on a [Buffer]. *)
Definition keccak256 (data : string) : Err + string :=
  match Hex.arrayify data with
  | Some bs => inr (Hex.hexlify (keccak bs))
  | None => inl (ArgumentError "invalid arrayify value")
  end.

Definition keccak256_Buffer (data : Buffer) : string := Hex.hexlify (keccak data).

(** *** [_init] and [_sanityChecks] *)

Definition _sanityChecks : M unit :=
  try_catch (rpc DetectNetworkL1 l1_detectNetwork) (fun err => throw err) ;;
  try_catch (rpc DetectNetworkL2 l2_detectNetwork) (fun err => throw err) ;;
  o <- gets Service.options ;;
  (if lt0 (Options.l2ChainStartingHeight o)
   then throw (ThrownString "L2 Chain Starting Height must be positive")
   else ret tt) ;;
  events <- rpc QueryStateBatchAppended scc_StateBatchAppended ;;
  (if (length events =? 0)%nat
   then emit (Log info "Warning: No events exist yet, no state commitment for the given height")
   else ret tt) ;;
  pollingInterval <- gets Service.pollingInterval ;;
  if (pollingInterval <? 15000) || (pollingInterval >? 60000)
  then emit (Log info "Warning: Polling interval should be greater than 15s or less than an hour")
  else ret tt.

Definition _init : M unit :=
  modify (fun s =>
    let o := Service.options s in
    {| Service.options := o;
       Service.pollingInterval := or_default (Options.pollingInterval o) 5000;
       Service.lastFinalizedTxHeight := or_default (Options.l2ChainStartingHeight o) 0;
       Service.nextUnfinalizedTxHeight := or_default (Options.l2ChainStartingHeight o) 0;
       Service.blockOffset := or_default (Options.blockOffset o) 0 |}) ;;
  try_catch _sanityChecks
    (fun err => emit (LogErr "Sanity check failed: ${err}" err) ;; throw err).

(** *** [_getStateBatchHeader] and [_isTransactionFinalized] *)

(** The range test of the lookup on converted numbers: what the callback
    of [events.find] computes when no conversion throws. *)
Definition covers (height : Z) (event : StateBatchAppended.t) : bool :=
  (StateBatchAppended._prevTotalElements event <=? height)
  && (StateBatchAppended._prevTotalElements event
      + StateBatchAppended._batchSize event >? height).

(** [BigNumber.toNumber()]: the value itself when its magnitude is below
    2^53 (it fits 53 bits); otherwise a [NUMERIC_FAULT] is thrown. *)
Definition toNumber (v : Z) : Err + Z :=
  if Z.abs v <? 2 ^ 53 then inr v else inl (NumericFault "overflow").

(** The callback of [events.find]: the range test with each field
    converted by [toNumber()] where the source converts it; [&&] does not
    evaluate its right operand when the left one is false.  The sum of two
    safe integers compares with a safe integer as in exact arithmetic. *)
Definition covers_callback (height : Z) (event : StateBatchAppended.t) : Err + bool :=
  match toNumber (StateBatchAppended._prevTotalElements event) with
  | inl e => inl e
  | inr prev =>
      if prev <=? height then
        match toNumber (StateBatchAppended._prevTotalElements event) with
        | inl e => inl e
        | inr prev' =>
            match toNumber (StateBatchAppended._batchSize event) with
            | inl e => inl e
            | inr size => inr (prev' + size >? height)
            end
        end
      else inr false
  end.

(** [xs.find(f)] where [f] may throw: the first element on which [f] is
    true, unless [f] throws before. *)
Fixpoint find_throwing {A} (f : A -> Err + bool) (xs : list A) : Err + option A :=
  match xs with
  | [] => inr None
  | x :: rest =>
      match f x with
      | inl e => inl e
      | inr true => inr (Some x)
      | inr false => find_throwing f rest
      end
  end.

Definition _getStateBatchHeader (height : Z) : M (option StateBatchHeader.t) :=
  events <- rpc QueryStateBatchAppended scc_StateBatchAppended ;;
  found <- lift (find_throwing (covers_callback height) events) ;;
  match found with
  | None => ret None
  | Some event =>
      transaction <- rpc (GetTransaction (StateBatchAppended.transactionHash event))
                         (fun c => l1_getTransaction c (StateBatchAppended.transactionHash event)) ;;
      data <- match transaction with
              | Some tx => ret (Transaction.data tx)
              | None => throw (TypeError "Cannot read property 'data' of null")
              end ;;
      decoded <- match decodeAppendStateBatch data with
                 | Some d => ret d
                 | None => throw (ArgumentError "appendStateBatch")
                 end ;;
      let stateRoots := fst decoded in
      ret (Some {|
        StateBatchHeader.batchIndex := StateBatchAppended._batchIndex event;
        StateBatchHeader.batchRoot := StateBatchAppended._batchRoot event;
        StateBatchHeader.batchSize := StateBatchAppended._batchSize event;
        StateBatchHeader.prevTotalElements := StateBatchAppended._prevTotalElements event;
        StateBatchHeader.extraData := StateBatchAppended._extraData event;
        StateBatchHeader.stateRoots := stateRoots |})
  end.

Definition _isTransactionFinalized (height : Z) : M bool :=
  batch <- _getStateBatchHeader height ;;
  match batch with
  | None => ret false
  | Some batch =>
      inside <- rpc (InsideFraudProofWindow batch)
                    (fun c => scc_insideFraudProofWindow c batch) ;;
      ret (negb inside)
  end.

(** *** [_getSentMessages] and [_wasMessageRelayed] *)

Definition toSentMessage (blockOffset : Z) (event : SentMessageEvent.t)
  : Err + SentMessage.t :=
  let message := SentMessageEvent.message event in
  match decodeRelayMessage message with
  | None => inl (ArgumentError "relayMessage")
  | Some decoded =>
      match keccak256 message with
      | inl e => inl e
      | inr h =>
          inr {| SentMessage.target := RelayMessageArgs._target decoded;
                 SentMessage.sender := RelayMessageArgs._sender decoded;
                 SentMessage.data := RelayMessageArgs._message decoded;
                 SentMessage.nonce := RelayMessageArgs._messageNonce decoded;
                 SentMessage.calldata := message;
                 SentMessage.hash := h;
                 SentMessage.height := SentMessageEvent.blockNumber event - blockOffset |}
      end
  end.

Definition _getSentMessages (startHeight endHeight : Z) : M (list SentMessage.t) :=
  blockOffset <- gets Service.blockOffset ;;
  events <- rpc (QuerySentMessage (startHeight + blockOffset) (endHeight + blockOffset))
                (fun c => l2xdm_SentMessage c (startHeight + blockOffset)
                                              (endHeight + blockOffset)) ;;
  lift (map_throwing (toSentMessage blockOffset) events).

Definition _wasMessageRelayed (message : SentMessage.t) : M bool :=
  rpc (SuccessfulMessages (SentMessage.hash message))
      (fun c => l1xdm_successfulMessages c (SentMessage.hash message)).

(** *** [_getMessageProof] *)

(** The slot handed to [eth_getProof] (the first statement of
    [_getMessageProof]); string concatenation as in the source. *)
Definition messageSlot (calldata address : string) : Err + string :=
  match keccak256 (calldata ++ Hex.slice2 address)%string with
  | inl e => inl e
  | inr inner => keccak256 (inner ++ Hex.repeat00 32)%string
  end.

(** [Math.pow(2, Math.ceil(Math.log2(n)))] on a length: [0] for [n = 0]
    (the logarithm is [-Infinity]), else the least power of two [>= n]. *)
Definition pow2_ceil_log2 (n : nat) : nat :=
  if (n =? 0)%nat then 0%nat else (2 ^ Nat.log2_up n)%nat.

Definition zero32 : string := ("0x" ++ Hex.repeat00 32)%string.

(** The [for] loop that fills [elements]. *)
Definition elements (stateRoots : list string) : list string :=
  map (fun i => if (i <? length stateRoots)%nat then nth i stateRoots zero32 else zero32)
      (seq 0 (pow2_ceil_log2 (length stateRoots))).

(** The local [hash]: on a hex string (the elements) and on a [Buffer]
    (inside the tree). *)
Definition hash (el : string) : Err + Buffer :=
  match keccak256 el with
  | inl e => inl e
  | inr h => inr (Hex.Buffer_from_hex (Hex.slice2 h))
  end.

Definition hash_Buffer (el : Buffer) : Buffer :=
  Hex.Buffer_from_hex (Hex.slice2 (keccak256_Buffer el)).

(** The rest of [_getMessageProof] once [proof] and [batch] are at hand:
    from [const elements = []] to the returned object. *)
Definition assembleMessageProof (message : SentMessage.t) (proof : EthProof.t)
    (batch : StateBatchHeader.t) : Err + MessageProof.t :=
  match map_throwing hash (elements (StateBatchHeader.stateRoots batch)) with
  | inl e => inl e
  | inr leaves =>
      let tree := MerkleTree.new hash_Buffer leaves in
      match toNumber (StateBatchHeader.prevTotalElements batch) with
      | inl e => inl e
      | inr prevTotalElements =>
          let index := SentMessage.height message - prevTotalElements in
          let treeProof :=
            map MerkleTree.data (MerkleTree.getProof tree (at_index leaves index) index) in
          match proof with
          | EthProof.null => inl (TypeError "Cannot read property 'accountProof' of null")
          | EthProof.object accountProof storageProof =>
              match storageProof with
              | [] => inl (TypeError "Cannot read property 'proof' of undefined")
              | storageProof0 :: _ =>
                  inr {| MessageProof.stateRoot :=
                           at_index (StateBatchHeader.stateRoots batch) index;
                         MessageProof.stateRootBatchHeader := batch;
                         MessageProof.stateRootProof :=
                           {| StateRootProof.index := index;
                              StateRootProof.siblings := treeProof |};
                         MessageProof.stateTrieWitness := rlp_encode accountProof;
                         MessageProof.storageTrieWitness :=
                           rlp_encode (EthProof.proof storageProof0) |}
              end
          end
      end
  end.

Definition _getMessageProof (message : SentMessage.t) : M (option MessageProof.t) :=
  o <- gets Service.options ;;
  blockOffset <- gets Service.blockOffset ;;
  slot <- lift (messageSlot (SentMessage.calldata message)
                            (Options.l2CrossDomainMessengerAddress o)) ;;
  proof <- try_catch
    (proof <- rpc (EthGetProof (Options.l2ToL1MessagePasserAddress o) [slot]
                               (SentMessage.height message + blockOffset))
                  (fun c => l2_eth_getProof c (Options.l2ToL1MessagePasserAddress o) [slot]
                                            (SentMessage.height message + blockOffset)) ;;
     match proof with
     | None => throw (ThrownString "No proof found")
     | Some p => ret (Some p)
     end)
    (fun err => emit (LogErr "${err}" err) ;; ret None) ;;
  match proof with
  | None => ret None
  | Some proof =>
      batch <- try_catch
        (batch <- _getStateBatchHeader (SentMessage.height message) ;;
         match batch with
         | None => throw (ThrownString "No events found in state batch header")
         | Some b => ret (Some b)
         end)
        (fun err => emit (LogErr "${err}" err) ;; ret None) ;;
      match batch with
      | None => ret None
      | Some batch =>
          p <- lift (assembleMessageProof message proof batch) ;;
          ret (Some p)
      end
  end.

Definition _relayMessageToL1 (message : SentMessage.t) (proof : option MessageProof.t)
  : M unit :=
  rpc (RelayMessage (SentMessage.target message) (SentMessage.sender message)
                    (SentMessage.data message) (SentMessage.nonce message) proof 2000000)
      (fun c => l1xdm_relayMessage c (SentMessage.target message) (SentMessage.sender message)
                                   (SentMessage.data message) (SentMessage.nonce message) proof).

(** *** [_start] *)

(** The body of [for (const message of messages)]. *)
Definition relay (message : SentMessage.t) : M unit :=
  emit (LogN interesting "Found a message sent during transaction: ${message.height}"
             (SentMessage.height message)) ;;
  relayed <- _wasMessageRelayed message ;;
  if relayed
  then emit (Log interesting "Message has already been relayed, skipping.")
  else
    emit (Log interesting "Message not yet relayed. Attempting to generate a proof...") ;;
    proof <- _getMessageProof message ;;
    emit (Log interesting "Successfully generated a proof. Attempting to relay to Layer 1...") ;;
    try_catch
      (_relayMessageToL1 message proof ;;
       emit (Log success "Message successfully relayed to Layer 1!"))
      (fun err => emit (LogErr "Could not relay message to Layer 1, see error log below: ${err}" err)).

Definition set_lastFinalizedTxHeight (v : Z) (s : Service.t) : Service.t :=
  {| Service.options := Service.options s;
     Service.pollingInterval := Service.pollingInterval s;
     Service.lastFinalizedTxHeight := v;
     Service.nextUnfinalizedTxHeight := Service.nextUnfinalizedTxHeight s;
     Service.blockOffset := Service.blockOffset s |}.

Definition set_nextUnfinalizedTxHeight (v : Z) (s : Service.t) : Service.t :=
  {| Service.options := Service.options s;
     Service.pollingInterval := Service.pollingInterval s;
     Service.lastFinalizedTxHeight := Service.lastFinalizedTxHeight s;
     Service.nextUnfinalizedTxHeight := v;
     Service.blockOffset := Service.blockOffset s |}.

(** [while (await this._isTransactionFinalized(this.nextUnfinalizedTxHeight)) { ... }];
    [budget] bounds the number of times the condition is evaluated. *)
Fixpoint while_finalized (budget : nat) : M unit :=
  match budget with
  | O => running
  | S n =>
      next <- gets Service.nextUnfinalizedTxHeight ;;
      finalized <- _isTransactionFinalized next ;;
      if finalized then
        next <- gets Service.nextUnfinalizedTxHeight ;;
        header <- _getStateBatchHeader next ;;
        size <- match header with
                | Some h => lift (toNumber (StateBatchHeader.batchSize h))
                | None => throw (TypeError "Cannot read property 'batchSize' of undefined")
                end ;;
        emit (LogN info "Found a batch with ${size} finalized transaction(s), checking for more..." size) ;;
        modify (fun s => set_nextUnfinalizedTxHeight (Service.nextUnfinalizedTxHeight s + size) s) ;;
        while_finalized n
      else ret tt
  end.

(** One pass through the body of [while (this.running)]. *)
Definition tick (budget : nat) : M unit :=
  pollingInterval <- gets Service.pollingInterval ;;
  emit (Sleep pollingInterval) ;;
  emit (Log info "Checking for newly finalized transactions...") ;;
  next <- gets Service.nextUnfinalizedTxHeight ;;
  finalized <- _isTransactionFinalized next ;;
  if negb finalized
  then emit (LogN info "Didn't find any newly finalized transactions. Trying again in ${} seconds..."
                  (pollingInterval / 1000))
  else
    modify (fun s => set_lastFinalizedTxHeight (Service.nextUnfinalizedTxHeight s) s) ;;
    while_finalized budget ;;
    last <- gets Service.lastFinalizedTxHeight ;;
    next <- gets Service.nextUnfinalizedTxHeight ;;
    emit (LogN interesting "Found a total of ${} finalized transaction(s)." (next - last)) ;;
    messages <- _getSentMessages last next ;;
    (if (length messages =? 0)%nat
     then emit (LogN interesting "Didn't find any L2->L1 messages. Trying again in ${} seconds..."
                     (pollingInterval / 1000))
     else ret tt) ;;
    for_of messages relay.

(** [while (this.running) { ... }]: [ticks] passes find the flag set; an
    exception that leaves a pass leaves the loop. *)
Fixpoint while_running (ticks budget : nat) : M unit :=
  match ticks with
  | O => ret tt
  | S n => tick budget ;; while_running n budget
  end.

Definition _start (ticks budget : nat) : M unit :=
  emit (Log status "Service has started.") ;;
  while_running ticks budget.

(** *** Definitions used to state the properties *)

(** The [SentMessage] record that belongs to a log. *)
Definition decoded_as (blockOffset : Z) (event : SentMessageEvent.t) (msg : SentMessage.t)
  : Prop :=
  exists (args : RelayMessageArgs.t) (payload : list byte),
    decodeRelayMessage (SentMessageEvent.message event) = Some args
    /\ Hex.arrayify (SentMessageEvent.message event) = Some payload
    /\ SentMessage.target msg = RelayMessageArgs._target args
    /\ SentMessage.sender msg = RelayMessageArgs._sender args
    /\ SentMessage.data msg = RelayMessageArgs._message args
    /\ SentMessage.nonce msg = RelayMessageArgs._messageNonce args
    /\ SentMessage.calldata msg = SentMessageEvent.message event
    /\ SentMessage.hash msg = Hex.hexlify (keccak payload)
    /\ SentMessage.height msg = SentMessageEvent.blockNumber event - blockOffset.

(** What a pass does to the cursor: the check, the assignment and the
    inner loop.  Scanning and relaying come after and leave it alone. *)
Definition advance (budget : nat) : M unit :=
  next <- gets Service.nextUnfinalizedTxHeight ;;
  finalized <- _isTransactionFinalized next ;;
  if negb finalized then ret tt
  else
    modify (fun s => set_lastFinalizedTxHeight (Service.nextUnfinalizedTxHeight s) s) ;;
    while_finalized budget.

(** The part of a pass that follows the assignment to
    [lastFinalizedTxHeight]. *)
Definition finish_tick (pollingInterval : Z) (budget : nat) : M unit :=
  while_finalized budget ;;
  last <- gets Service.lastFinalizedTxHeight ;;
  next <- gets Service.nextUnfinalizedTxHeight ;;
  emit (LogN interesting "Found a total of ${} finalized transaction(s)." (next - last)) ;;
  messages <- _getSentMessages last next ;;
  (if (length messages =? 0)%nat
   then emit (LogN interesting "Didn't find any L2->L1 messages. Trying again in ${} seconds..."
                   (pollingInterval / 1000))
   else ret tt) ;;
  for_of messages relay.

End MessageRelayerService.

(** ** Specifications of computations

    The cursor invariant, the relation between the service object before
    and after a computation, and triples that bound what a computation may
    do whatever way it ends (by returning, by throwing, or still looping). *)

Definition Inv (s : Service.t) : Prop :=
  Service.lastFinalizedTxHeight s <= Service.nextUnfinalizedTxHeight s.

(** The configuration is kept and neither cursor field moves back. *)
Definition Step (s s' : Service.t) : Prop :=
  Service.options s' = Service.options s
  /\ Service.pollingInterval s' = Service.pollingInterval s
  /\ Service.blockOffset s' = Service.blockOffset s
  /\ Service.lastFinalizedTxHeight s <= Service.lastFinalizedTxHeight s'
  /\ Service.nextUnfinalizedTxHeight s <= Service.nextUnfinalizedTxHeight s'.

(** [triple T Pre c Post]: from a service object that satisfies the cursor
    invariant and [Pre], the computation [c] takes a [Step], keeps the
    invariant, performs only actions allowed by [T] (judged from the
    initial object), and establishes [Post] if it returns. *)
Definition triple {A} (T : Service.t -> Action -> Prop)
    (Pre : Service.t -> Prop) (c : M A) (Post : A -> Service.t -> Prop) : Prop :=
  forall m, Inv (this m) -> Pre (this m) ->
    Step (this m) (this (state_of (c m)))
    /\ Inv (this (state_of (c m)))
    /\ Forall (T (this m)) (trace_of (c m))
    /\ match result_of (c m) with
       | Return a => Post a (this (state_of (c m)))
       | _ => True
       end.

(** Allowed actions of the relay loop, judged from a service object: it
    sleeps for the configured interval, and it scans L2 logs from a block
    at or above the one of [lastFinalizedTxHeight]. *)
Definition LoopAction (s : Service.t) (a : Action) : Prop :=
  match a with
  | Sleep ms => ms = Service.pollingInterval s
  | Call _ (QuerySentMessage fromBlock _) =>
      Service.lastFinalizedTxHeight s + Service.blockOffset s <= fromBlock
  | _ => True
  end.

(** Actions of the parts of a pass that neither sleep nor scan nor relay. *)
Definition LookupAction (_ : Service.t) (a : Action) : Prop :=
  match a with
  | Sleep _ => False
  | Call _ (QuerySentMessage _ _) => False
  | Call _ (RelayMessage _ _ _ _ _ _) => False
  | _ => True
  end.

(** Actions of the handling of one message: no sleep and no scan. *)
Definition RelayAction (_ : Service.t) (a : Action) : Prop :=
  match a with
  | Sleep _ => False
  | Call _ (QuerySentMessage _ _) => False
  | _ => True
  end.

(** What a computation may emit, whatever the state. *)
Definition emits {A} (P : Action -> Prop) (c : M A) : Prop :=
  forall m, Forall P (trace_of (c m)).

(** A computation that leaves the service object alone. *)
Definition keeps {A} (c : M A) : Prop :=
  forall m, this (state_of (c m)) = this m.

(** A header that covers the height it was looked up for. *)
Definition header_covers (height : Z) (r : option StateBatchHeader.t) : Prop :=
  match r with
  | Some h => StateBatchHeader.prevTotalElements h <= height
              < StateBatchHeader.prevTotalElements h + StateBatchHeader.batchSize h
  | None => True
  end.

(** The header that [_getStateBatchHeader] builds from an event and the
    state roots decoded from the calldata of its transaction. *)
Definition header_of (event : StateBatchAppended.t) (stateRoots : list string)
  : StateBatchHeader.t :=
  {| StateBatchHeader.batchIndex := StateBatchAppended._batchIndex event;
     StateBatchHeader.batchRoot := StateBatchAppended._batchRoot event;
     StateBatchHeader.batchSize := StateBatchAppended._batchSize event;
     StateBatchHeader.prevTotalElements := StateBatchAppended._prevTotalElements event;
     StateBatchHeader.extraData := StateBatchAppended._extraData event;
     StateBatchHeader.stateRoots := stateRoots |}.

(** An event whose numbers are safe integers: [toNumber()] converts them. *)
Definition safe_event (event : StateBatchAppended.t) : Prop :=
  Z.abs (StateBatchAppended._prevTotalElements event) < 2 ^ 53
  /\ Z.abs (StateBatchAppended._batchSize event) < 2 ^ 53.

(** The header lookup only queries the batch events and fetches a transaction. *)
Definition HeaderAction (a : Action) : Prop :=
  match a with
  | Call _ QueryStateBatchAppended => True
  | Call _ (GetTransaction _) => True
  | _ => False
  end.

(** Actions of the check and of the inner loop. *)
Definition AdvanceAction (a : Action) : Prop :=
  match a with
  | Call _ QueryStateBatchAppended => True
  | Call _ (GetTransaction _) => True
  | Call _ (InsideFraudProofWindow _) => True
  | LogN _ _ _ => True
  | _ => False
  end.


(** A scan that starts at or above a given block. *)
Definition ScansFrom (bound : Z) (a : Action) : Prop :=
  match a with
  | Call _ (QuerySentMessage fromBlock _) => bound <= fromBlock
  | _ => True
  end.

(** A scan of the L2 logs. *)
Definition is_scan (a : Action) : bool :=
  match a with
  | Call _ (QuerySentMessage _ _) => true
  | _ => false
  end.

(** The block ranges of the scans of a trace, in order. *)
Fixpoint scan_ranges (t : list Action) : list (Z * Z) :=
  match t with
  | [] => []
  | Call _ (QuerySentMessage fromBlock toBlock) :: rest => (fromBlock, toBlock) :: scan_ranges rest
  | _ :: rest => scan_ranges rest
  end.

(** A computation that changes at most [nextUnfinalizedTxHeight]. *)
Definition moves_next {A} (c : M A) : Prop :=
  forall m, exists v, this (state_of (c m)) = set_nextUnfinalizedTxHeight v (this m).

(** Not a call made for one message. *)
Definition NotMessageCall (a : Action) : Prop :=
  match a with
  | Call _ (SuccessfulMessages _) => False
  | Call _ (EthGetProof _ _ _) => False
  | Call _ (RelayMessage _ _ _ _ _ _) => False
  | _ => True
  end.

(** A trace predicate that can be judged from an earlier service object. *)
Definition antitone (T : Service.t -> Action -> Prop) : Prop :=
  forall s s' a, Step s s' -> T s' a -> T s a.

(** ** Observations on runs

    What is read off a trace, or off the events of the state commitment
    chain, to state further properties of the service. *)

Definition is_call (a : Action) : bool :=
  match a with
  | Call _ _ => true
  | _ => false
  end.

Definition is_submission (a : Action) : bool :=
  match a with
  | Call _ (RelayMessage _ _ _ _ _ _) => true
  | _ => false
  end.

(** A scan, if the action is one, of exactly the given block range. *)
Definition ScansExactly (fromBlock toBlock : Z) (a : Action) : Prop :=
  match a with
  | Call _ (QuerySentMessage f t) => f = fromBlock /\ t = toBlock
  | _ => True
  end.

(** A relay submission, if the action is one, made for the given message
    with the gas limit of [_relayMessageToL1]. *)
Definition SubmissionOf (message : SentMessage.t) (a : Action) : Prop :=
  match a with
  | Call _ (RelayMessage target sender data nonce _ gasLimit) =>
      target = SentMessage.target message
      /\ sender = SentMessage.sender message
      /\ data = SentMessage.data message
      /\ nonce = SentMessage.nonce message
      /\ gasLimit = 2000000
  | _ => True
  end.


(** The message hashes whose relay status a trace asks for, in order. *)
Fixpoint checked_hashes (t : list Action) : list string :=
  match t with
  | [] => []
  | Call _ (SuccessfulMessages msgHash) :: rest => msgHash :: checked_hashes rest
  | _ :: rest => checked_hashes rest
  end.

(** The log line of one round of the inner loop of [_start]. *)
Definition is_batch_jump (a : Action) : bool :=
  match a with
  | LogN info text _ =>
      String.eqb text "Found a batch with ${size} finalized transaction(s), checking for more..."
  | _ => false
  end.

(** The end of the range of heights an event covers. *)
Definition batch_end (event : StateBatchAppended.t) : Z :=
  StateBatchAppended._prevTotalElements event + StateBatchAppended._batchSize event.

(** Not a relay-status call. *)
Definition NotStatusCall (a : Action) : Prop :=
  match a with
  | Call _ (SuccessfulMessages _) => False
  | _ => True
  end.

(** A computation that returns or throws: it is never left looping. *)
Definition settles {A} (c : M A) : Prop :=
  forall m, result_of (c m) <> Running.

(** Ranges that follow one another without a gap from a given block: each
    begins where the one before ended.  The result is the block the last
    one ends at. *)
Fixpoint chained (from : Z) (ranges : list (Z * Z)) : option Z :=
  match ranges with
  | [] => Some from
  | (fromBlock, toBlock) :: rest =>
      if fromBlock =? from then chained toBlock rest else None
  end.

(** ** The state batch submitter

    Source: [packages/batch-submitter/src/batch-submitter/state-batch-submitter.ts].

    The overrides of [StateBatchSubmitter] that compute the next batch and
    submit it.  Each awaits a few calls, none of them twice with the same
    arguments, so the nodes are a record of answers; a method returns its
    result together with the log lines and the submission it made.  The fields it reads from the
    [BatchSubmitter] base class are the fields of [t]; the ABI encoder of
    the contract interface ([None] when it throws) and the imported
    constant [BLOCK_OFFSET] are parameters.  The totals of the two chains
    are [BigNumber]s, converted by [toNumber()]. *)

Module StateBatchSubmitter.

Record t := {
  maxBatchSize : Z;
  maxTxSize : Z;
  minTxSize : Z;
  finalityConfirmations : Z
}.

Record Range := { start : Z; end_ : Z }.

Record TransactionReceipt := { transactionHash : string }.

(** What the nodes answer: the total elements of the state commitment
    chain and of the transaction chain, the L1 block number, the state
    root of an L2 block ([None] when the node answers [null] for the
    block), and the outcome of [appendStateBatch] (called with
    [TX_PARAMS]). *)
Record Nodes := {
  scc_getTotalElements : Answer Z;
  getBlockNumber : Answer Z;
  ctc_getTotalElements : Answer Z;
  getBlockWithTransactions : Z -> Answer (option string);
  appendStateBatch : list string -> Z -> Answer TransactionReceipt
}.

Inductive Event :=
| Logged (level : Level) (text : string)
| Appended (batch : list string) (shouldStartAtIndex : Z).

Section WithInterface.

(** [BLOCK_OFFSET] *)
Variable BLOCK_OFFSET : Z.
(** [chainContract.interface.encodeFunctionData('appendStateBatch', [batch, startBlock])] *)
Variable encodeAppendStateBatch : list string -> Z -> option string.

(** An answer that is a [BigNumber], converted by [toNumber()]. *)
Definition converted (answer : Answer Z) : Err + Z :=
  match answer with
  | Reject e => inl e
  | Resolve v => toNumber v
  end.

Definition _getBatchStartAndEnd (this : t) (nodes : Nodes)
  : Result (option Range) * list Event :=
  match converted (scc_getTotalElements nodes) with
  | inl e => (Throw e, [])
  | inr sccTotal =>
      let startBlock := sccTotal + BLOCK_OFFSET in
      match getBlockNumber nodes with
      | Reject e => (Throw e, [])
      | Resolve blockNumber =>
          let callBlockNumber := blockNumber - finalityConfirmations this in
          match converted (ctc_getTotalElements nodes) with
          | inl e => (Throw e, [])
          | inr totalElements =>
              let endBlock := Z.min (startBlock + maxBatchSize this) totalElements in
              if startBlock >=? endBlock
              then (Return None,
                    (if startBlock >? endBlock
                     then [Logged error "State commitment chain is larger than transaction chain. This should never happen!"]
                     else [])
                    ++ [Logged info "No state commitments to submit. Skipping batch submission..."])
              else (Return (Some {| start := startBlock; end_ := endBlock |}), [])
          end
      end
  end.

(** [for (let i = startBlock; i < endBlock; i++) { batch.push(block.stateRoot) }],
    [count] being the number of iterations. *)
Fixpoint collect (nodes : Nodes) (i : Z) (count : nat) : Err + list string :=
  match count with
  | O => inr []
  | S n =>
      match getBlockWithTransactions nodes i with
      | Reject e => inl e
      | Resolve None => inl (TypeError "Cannot read property 'stateRoot' of null")
      | Resolve (Some stateRoot) =>
          match collect nodes (i + 1) n with
          | inl e => inl e
          | inr rest => inr (stateRoot :: rest)
          end
      end
  end.

(** [batch.splice(Math.ceil((batch.length * 2) / 3))]: what is left of the batch. *)
Definition splice (batch : list string) : list string :=
  firstn (Z.to_nat ((Z.of_nat (length batch) * 2 + 2) / 3)) batch.

(** [while (tx.length > this.maxTxSize) { ... }]; [budget] bounds the
    number of times the condition is evaluated. *)
Fixpoint shrink (this : t) (startBlock : Z) (budget : nat) (batch : list string)
  : Result (list string) :=
  match budget with
  | O => Running
  | S n =>
      match encodeAppendStateBatch batch startBlock with
      | None => Throw (ArgumentError "appendStateBatch")
      | Some tx =>
          if Z.of_nat (String.length tx) >? maxTxSize this
          then shrink this startBlock n (splice batch)
          else Return batch
      end
  end.

Definition _generateStateCommitmentBatch (this : t) (nodes : Nodes) (budget : nat)
    (startBlock endBlock : Z) : Result (list string) :=
  match collect nodes startBlock (Z.to_nat (endBlock - startBlock)) with
  | inl e => Throw e
  | inr batch => shrink this startBlock budget batch
  end.

(** [_submitBatch]; [_submitAndLogTx], a method of the base class, is
    given the outcome of the [appendStateBatch] call. *)
Definition _submitBatch
    (_submitAndLogTx : Answer TransactionReceipt -> string
                       -> Result (option TransactionReceipt) * list Event)
    (this : t) (nodes : Nodes) (budget : nat) (startBlock endBlock : Z)
  : Result (option TransactionReceipt) * list Event :=
  match _generateStateCommitmentBatch this nodes budget startBlock endBlock with
  | Throw e => (Throw e, [])
  | Running => (Running, [])
  | Return batch =>
      match encodeAppendStateBatch batch startBlock with
      | None => (Throw (ArgumentError "appendStateBatch"), [])
      | Some tx =>
          if Z.of_nat (String.length tx) <? minTxSize this
          then (Return None, [Logged info "State batch too small. Skipping batch submission..."])
          else
            let offsetStartsAtIndex := startBlock - BLOCK_OFFSET in
            let submitted :=
              _submitAndLogTx (appendStateBatch nodes batch offsetStartsAtIndex)
                              "Submitted state root batch!" in
            (fst submitted, Appended batch offsetStartsAtIndex :: snd submitted)
      end
  end.

End WithInterface.

End StateBatchSubmitter.

(** ** Worked scenarios

    Concrete chains on which the service is run in the examples below.  The
    functions that stand for the imported libraries here are small
    stand-ins (the theorems are proved for every such function); the chains
    answer as an L1 and an L2 node would: the log filter returns the logs of
    the blocks [fromBlock..toBlock], both ends included, as [eth_getLogs]
    does, and the L1 messenger reverts a relay whose batch is still inside
    the fraud-proof window. *)

Module Scenario.

(** A 32-byte digest standing for keccak. *)
Definition digest (bs : list byte) : list byte :=
  let acc := fold_left (fun a b => (a * 257 + Z.of_N (Byte.to_N b) + 1) mod (2 ^ 255 - 19)) bs 7 in
  map (fun i => match Byte.of_N (Z.to_N ((acc / 256 ^ Z.of_nat (31 - i)) mod 256)) with
                | Some b => b
                | None => x00
                end) (seq 0 32).

Fixpoint take (n : nat) (s : string) : string :=
  match n, s with
  | S k, String c rest => String c (take k rest)
  | _, _ => EmptyString
  end.

Fixpoint drop (n : nat) (s : string) : string :=
  match n, s with
  | S k, String _ rest => drop k rest
  | _, _ => s
  end.

(** The string cut into hex words of [size] digits. *)
Fixpoint chunks (rounds : nat) (size : nat) (s : string) : list string :=
  match rounds with
  | O => []
  | S n =>
      if (String.length s <? size)%nat then []
      else ("0x" ++ take size s)%string :: chunks n size (drop size s)
  end.

(** Calldata of [appendStateBatch] in the scenarios: the state roots, 32
    bytes each, one after the other. *)
Definition encodeAppendStateBatch (stateRoots : list string) : string :=
  ("0x" ++ String.concat "" (map Hex.slice2 stateRoots))%string.

Definition decodeAppendStateBatch (data : string) : option (list string * Z) :=
  match Hex.arrayify data with
  | Some bs =>
      if (length bs mod 32 =? 0)%nat
      then Some (chunks (length bs) 64 (Hex.slice2 data), 0)
      else None
  | None => None
  end.

(** Calldata of [relayMessage] in the scenarios: target (20 bytes), sender
    (20 bytes), nonce (1 byte), then the message data. *)
Definition decodeRelayMessage (data : string) : option RelayMessageArgs.t :=
  match Hex.arrayify data with
  | Some bs =>
      if (length bs <? 41)%nat then None
      else Some {| RelayMessageArgs._target := Hex.hexlify (firstn 20 bs);
                   RelayMessageArgs._sender := Hex.hexlify (firstn 20 (skipn 20 bs));
                   RelayMessageArgs._message := Hex.hexlify (skipn 41 bs);
                   RelayMessageArgs._messageNonce :=
                     Z.of_N (Byte.to_N (nth 40 bs x00)) |}
  | None => None
  end.

Definition rlp_encode (items : list string) : Buffer :=
  concat (map (fun s => Hex.Buffer_from_hex (Hex.slice2 s)) items).

Definition address (last : string) : string := ("0x" ++ Hex.repeat00 19 ++ last)%string.

(** The options of the test suite: polling every 2000 ms, block offset 8. *)
Definition options : Options.t :=
  {| Options.stateCommitmentChainAddress := address "a1";
     Options.l1CrossDomainMessengerAddress := address "a2";
     Options.l2CrossDomainMessengerAddress := address "a3";
     Options.l2ToL1MessagePasserAddress := address "a4";
     Options.l2ChainStartingHeight := undefined;
     Options.pollingInterval := Num 2000;
     Options.blockOffset := Num 8 |}.

Definition with_start (start : Z) (o : Options.t) : Options.t :=
  {| Options.stateCommitmentChainAddress := Options.stateCommitmentChainAddress o;
     Options.l1CrossDomainMessengerAddress := Options.l1CrossDomainMessengerAddress o;
     Options.l2CrossDomainMessengerAddress := Options.l2CrossDomainMessengerAddress o;
     Options.l2ToL1MessagePasserAddress := Options.l2ToL1MessagePasserAddress o;
     Options.l2ChainStartingHeight := Num start;
     Options.pollingInterval := Options.pollingInterval o;
     Options.blockOffset := Options.blockOffset o |}.

(** The service object as constructed, before [_init] has assigned its fields. *)
Definition boot (o : Options.t) : Mem :=
  {| this := {| Service.options := o;
                Service.pollingInterval := 0;
                Service.lastFinalizedTxHeight := 0;
                Service.nextUnfinalizedTxHeight := 0;
                Service.blockOffset := 0 |};
     clock := 0 |}.

(** State root number [k]: 32 bytes. *)
Definition root (k : string) : string :=
  ("0x" ++ String.concat "" (repeat k 32))%string.

(** An appended batch: its event, its state roots, and whether it is still
    inside the fraud-proof window. *)
Record Batch := {
  event : StateBatchAppended.t;
  roots : list string;
  insideWindow : bool
}.

Definition batch (index prev : Z) (txHash : string) (stateRoots : list string)
    (inside : bool) : Batch :=
  {| event := {| StateBatchAppended._batchIndex := index;
                 StateBatchAppended._batchRoot := root "00";
                 StateBatchAppended._batchSize := Z.of_nat (length stateRoots);
                 StateBatchAppended._prevTotalElements := prev;
                 StateBatchAppended._extraData := "0x";
                 StateBatchAppended.transactionHash := txHash |};
     roots := stateRoots;
     insideWindow := inside |}.

Definition inside_window (batches : list Batch) (index : Z) : option bool :=
  option_map insideWindow
    (find (fun b => StateBatchAppended._batchIndex (event b) =? index) batches).

(** A [relayMessage] payload in the scenarios' calldata format. *)
Definition payload (nonce : string) : string :=
  ("0x" ++ Hex.repeat00 19 ++ "04" ++ Hex.repeat00 19 ++ "05" ++ nonce
        ++ "1234123412341234")%string.

Definition sent (nonce : string) (blockNumber : Z) : SentMessageEvent.t :=
  {| SentMessageEvent.message := payload nonce; SentMessageEvent.blockNumber := blockNumber |}.

Definition ethProof : EthProof.t :=
  EthProof.object ["0xf8518080"; "0xe21a"] [ {| EthProof.proof := ["0xe3a120"] |} ].

(** Two nodes in a given condition: the appended batches, the L2 logs, and
    whether the L2 node serves [eth_getProof]. *)
Definition chains (batches : list Batch) (logs : list SentMessageEvent.t)
    (servesProofs : bool) : Chains :=
  {| l1_detectNetwork := Resolve tt;
     l2_detectNetwork := Resolve tt;
     scc_StateBatchAppended := Resolve (map event batches);
     l1_getTransaction := fun txHash =>
       Resolve (option_map
                  (fun b => {| Transaction.data := encodeAppendStateBatch (roots b) |})
                  (find (fun b => String.eqb (StateBatchAppended.transactionHash (event b)) txHash)
                        batches));
     scc_insideFraudProofWindow := fun header =>
       match inside_window batches (StateBatchHeader.batchIndex header) with
       | Some inside => Resolve inside
       | None => Reject (CallError "Invalid batch header.")
       end;
     l1xdm_successfulMessages := fun _ => Resolve false;
     l1xdm_relayMessage := fun _ _ _ _ proof =>
       match proof with
       | None => Reject (ArgumentError "invalid tuple value")
       | Some p =>
           match inside_window batches
                   (StateBatchHeader.batchIndex (MessageProof.stateRootBatchHeader p)) with
           | Some false => Resolve tt
           | _ => Reject (CallError "Provided message could not be verified.")
           end
       end;
     l2xdm_SentMessage := fun fromBlock toBlock =>
       Resolve (filter (fun e => (fromBlock <=? SentMessageEvent.blockNumber e)
                                 && (SentMessageEvent.blockNumber e <=? toBlock)) logs);
     l2_eth_getProof := fun _ _ _ =>
       if servesProofs then Resolve (Some ethProof)
       else Reject (CallError "missing trie node") |}.

(** The service on given chains. *)
Definition init (world : World) : M unit := _init world.

Definition start (world : World) (ticks budget : nat) : M unit :=
  _start digest decodeAppendStateBatch decodeRelayMessage rlp_encode world ticks budget.

(** [_init] followed by [_start], from the object as constructed. *)
Definition run (world : World) (o : Options.t) (ticks budget : nat)
  : Result unit * Mem * list Action :=
  bind (init world) (fun _ => start world ticks budget) (boot o).

(** The relay submissions of a trace: for each, the nonce of the message
    and, when a proof was passed, the index of the batch whose header the
    proof carries and the height the proof speaks of
    ([prevTotalElements + index]). *)
Definition submission (a : Action) : option (Z * option (Z * Z)) :=
  match a with
  | Call _ (RelayMessage _ _ _ nonce proof _) =>
      Some (nonce,
            option_map
              (fun p =>
                 let header := MessageProof.stateRootBatchHeader p in
                 (StateBatchHeader.batchIndex header,
                  StateBatchHeader.prevTotalElements header
                  + StateRootProof.index (MessageProof.stateRootProof p)))
              proof)
  | _ => None
  end.

Fixpoint submissions (t : list Action) : list (Z * option (Z * Z)) :=
  match t with
  | [] => []
  | a :: rest =>
      match submission a with
      | Some x => x :: submissions rest
      | None => submissions rest
      end
  end.

(** The sleeps and the L2 scans of a trace. *)
Definition sleep_or_scan (a : Action) : bool :=
  match a with
  | Sleep _ => true
  | Call _ (QuerySentMessage _ _) => true
  | _ => false
  end.

(** The calls of a trace that concern one message: dedup check, proof
    request, relay. *)
Definition message_call (a : Action) : bool :=
  match a with
  | Call _ (SuccessfulMessages _) => true
  | Call _ (EthGetProof _ _ _) => true
  | Call _ (RelayMessage _ _ _ _ _ _) => true
  | _ => false
  end.

Definition five : list string := [root "11"; root "12"; root "13"; root "14"; root "15"].

Definition seven : list string :=
  [root "21"; root "22"; root "23"; root "24"; root "25"; root "26"; root "27"].

(** Batch 0 covers height 0 and is final; batch 1 covers height 1 and is
    inside the fraud-proof window; one message was sent in L2 block 9, that
    is at height 1. *)
Definition gate_batches : list Batch :=
  [batch 0 0 "0xb0" [root "11"] false; batch 1 1 "0xb1" [root "22"] true].

Definition gate_world : World := fun _ => chains gate_batches [sent "00" 9] true.

(** Batch 0 covers heights 0..4 and is final; batch 1 covers heights 5..11
    and is inside the window; one message was sent at height 6; the service
    is configured to start at height 3. *)
Definition midbatch_batches : list Batch :=
  [batch 0 0 "0xb0" five false; batch 1 5 "0xb1" seven true].

Definition midbatch_world : World := fun _ => chains midbatch_batches [sent "00" 14] true.

(** Two consecutive final batches of sizes 5 and 7. *)
Definition gapless_world (logs : list SentMessageEvent.t) : World :=
  fun _ => chains [batch 0 0 "0xb0" five false; batch 1 5 "0xb1" seven false] logs true.

(** One final batch; the first [SentMessage] log of block 8 carries a
    payload that is not [relayMessage] calldata, the second is well formed. *)
Definition malformed : SentMessageEvent.t :=
  {| SentMessageEvent.message := "0x1234"; SentMessageEvent.blockNumber := 8 |}.

Definition decode_world : World :=
  fun _ => chains [batch 0 0 "0xb0" [root "11"] false] [malformed; sent "00" 8] true.

(** A message was sent at height 0, covered by a final batch of two state
    roots.  During the first 18 calls the L2 node does not serve proofs and
    the next batch is inside the window; from then on the node serves
    proofs and the next batch is final. *)
Definition retry_world : World :=
  fun instant =>
    if (instant <? 18)%nat
    then chains [batch 0 0 "0xb0" [root "11"; root "12"] false;
                 batch 1 2 "0xb1" [root "21"] true] [sent "00" 8] false
    else chains [batch 0 0 "0xb0" [root "11"; root "12"] false;
                 batch 1 2 "0xb1" [root "21"] false] [sent "00" 8] true.

(** A final batch at height 0, followed by an event whose
    [_prevTotalElements] is 2^53, which [toNumber()] does not convert. *)
Definition overflow_batches : list Batch :=
  [batch 0 0 "0xb0" [root "11"] false; batch 1 (2 ^ 53) "0xb1" [root "22"] false].

Definition overflow_world : World := fun _ => chains overflow_batches [] true.

(** The batch of the test suite: three state roots appended at height 0,
    final; one message sent at height 1. *)
Definition three : list string := [root "11"; root "12"; root "13"].

Definition three_world : World :=
  fun _ => chains [batch 0 0 "0xb0" three false] [sent "00" 9] true.

(** Chains whose L2 node gives one answer to every [eth_getProof]. *)
Definition with_eth_getProof (answer : Answer (option EthProof.t)) (c : Chains) : Chains :=
  {| l1_detectNetwork := l1_detectNetwork c;
     l2_detectNetwork := l2_detectNetwork c;
     scc_StateBatchAppended := scc_StateBatchAppended c;
     l1_getTransaction := l1_getTransaction c;
     scc_insideFraudProofWindow := scc_insideFraudProofWindow c;
     l1xdm_successfulMessages := l1xdm_successfulMessages c;
     l1xdm_relayMessage := l1xdm_relayMessage c;
     l2xdm_SentMessage := l2xdm_SentMessage c;
     l2_eth_getProof := fun _ _ _ => answer |}.

(** The chains of the test suite with an L2 node that answers [null] to
    [eth_getProof]. *)
Definition null_world : World :=
  fun instant => with_eth_getProof (Resolve (Some EthProof.null)) (three_world instant).

(** A message was sent at height 1.  During the first 18 calls only batch
    0, which covers height 0 and is final, has been appended; from then on
    batch 1, which covers height 1, is there as well, and final. *)
Definition boundary_world : World :=
  fun instant =>
    if (instant <? 18)%nat
    then chains [batch 0 0 "0xb0" [root "11"] false] [sent "00" 9] true
    else chains [batch 0 0 "0xb0" [root "11"] false;
                 batch 1 1 "0xb1" [root "22"] false] [sent "00" 9] true.

(** The record of the message with nonce byte [nonce] sent at [height]. *)
Definition sentMessage (nonce : string) (n : Z) (height : Z) : SentMessage.t :=
  {| SentMessage.target := address "04";
     SentMessage.sender := address "05";
     SentMessage.data := "0x1234123412341234";
     SentMessage.nonce := n;
     SentMessage.calldata := payload nonce;
     SentMessage.hash := Hex.hexlify (digest (Hex.Buffer_from_hex (Hex.slice2 (payload nonce))));
     SentMessage.height := height |}.

(** The storage slot of the message with nonce byte [nonce], over bytes. *)
Definition slot (nonce : string) : string :=
  Hex.hexlify
    (digest (digest (Hex.Buffer_from_hex (Hex.slice2 (payload nonce))
                     ++ Hex.Buffer_from_hex (Hex.slice2 (address "a3")))
             ++ Hex.zeros 32)).

(** The header of the batch of three state roots. *)
Definition three_header : StateBatchHeader.t :=
  {| StateBatchHeader.batchIndex := 0;
     StateBatchHeader.batchRoot := root "00";
     StateBatchHeader.batchSize := 3;
     StateBatchHeader.prevTotalElements := 0;
     StateBatchHeader.extraData := "0x";
     StateBatchHeader.stateRoots := three |}.

(** The service object with the scenario options and a given cursor, at a
    given instant. *)
Definition service (instant : nat) (last next : Z) : Mem :=
  {| this := {| Service.options := options;
                Service.pollingInterval := 2000;
                Service.lastFinalizedTxHeight := last;
                Service.nextUnfinalizedTxHeight := next;
                Service.blockOffset := 8 |};
     clock := instant |}.

(** The instants of the calls of a trace that satisfy [f]. *)
Fixpoint call_instants (f : Action -> bool) (t : list Action) : list nat :=
  match t with
  | [] => []
  | Call n c :: rest =>
      if f (Call n c) then n :: call_instants f rest else call_instants f rest
  | _ :: rest => call_instants f rest
  end.

Definition is_sleep (a : Action) : bool :=
  match a with
  | Sleep _ => true
  | _ => false
  end.

Definition is_error_log (a : Action) : bool :=
  match a with
  | LogErr _ _ => true
  | _ => false
  end.

End Scenario.

(** ** Further worked cases *)

Module Cases.

(** Chains on which the L1 messenger reports every message as relayed. *)
Definition all_relayed (c : Chains) : Chains :=
  {| l1_detectNetwork := l1_detectNetwork c;
     l2_detectNetwork := l2_detectNetwork c;
     scc_StateBatchAppended := scc_StateBatchAppended c;
     l1_getTransaction := l1_getTransaction c;
     scc_insideFraudProofWindow := scc_insideFraudProofWindow c;
     l1xdm_successfulMessages := fun _ => Resolve true;
     l1xdm_relayMessage := l1xdm_relayMessage c;
     l2xdm_SentMessage := l2xdm_SentMessage c;
     l2_eth_getProof := l2_eth_getProof c |}.

(** Chains whose L1 node rejects the query for the batch events. *)
Definition events_unavailable (c : Chains) : Chains :=
  {| l1_detectNetwork := l1_detectNetwork c;
     l2_detectNetwork := l2_detectNetwork c;
     scc_StateBatchAppended := Reject (CallError "timeout");
     l1_getTransaction := l1_getTransaction c;
     scc_insideFraudProofWindow := scc_insideFraudProofWindow c;
     l1xdm_successfulMessages := l1xdm_successfulMessages c;
     l1xdm_relayMessage := l1xdm_relayMessage c;
     l2xdm_SentMessage := l2xdm_SentMessage c;
     l2_eth_getProof := l2_eth_getProof c |}.

Definition three_chains : Chains :=
  Scenario.chains [Scenario.batch 0 0 "0xb0" Scenario.three false] [Scenario.sent "00" 9] true.

Definition relayed_world : World := fun _ => all_relayed three_chains.

Definition outage_world : World := fun _ => events_unavailable three_chains.

(** No batch has been appended yet. *)
Definition empty_world : World := fun _ => Scenario.chains [] [] true.

(** Two batches whose ranges overlap: heights 0..4 and 3..9. *)
Definition overlap_first : Scenario.Batch := Scenario.batch 0 0 "0xb0" Scenario.five false.
Definition overlap_second : Scenario.Batch := Scenario.batch 1 3 "0xb1" Scenario.seven false.

Definition overlap_world : World :=
  fun _ => Scenario.chains [overlap_first; overlap_second] [] true.

Definition gapless_chains : Chains :=
  Scenario.chains [Scenario.batch 0 0 "0xb0" Scenario.five false;
                   Scenario.batch 1 5 "0xb1" Scenario.seven false] [Scenario.sent "00" 14] true.

(** A submitter that takes at most 50 state roots per batch and
    transactions of 10 to 200 characters. *)
Definition submitter : StateBatchSubmitter.t :=
  {| StateBatchSubmitter.maxBatchSize := 50;
     StateBatchSubmitter.maxTxSize := 200;
     StateBatchSubmitter.minTxSize := 10;
     StateBatchSubmitter.finalityConfirmations := 6 |}.

Definition patient_submitter : StateBatchSubmitter.t :=
  {| StateBatchSubmitter.maxBatchSize := 50;
     StateBatchSubmitter.maxTxSize := 200;
     StateBatchSubmitter.minTxSize := 10;
     StateBatchSubmitter.finalityConfirmations := 100 |}.

(** The state root of L2 block [i]: known for the blocks 11 to 14; the
    node answers [null] for block 15 and rejects the other requests. *)
Definition stateRootOf (i : Z) : Answer (option string) :=
  if i =? 11 then Resolve (Some (Scenario.root "11"))
  else if i =? 12 then Resolve (Some (Scenario.root "12"))
  else if i =? 13 then Resolve (Some (Scenario.root "13"))
  else if i =? 14 then Resolve (Some (Scenario.root "14"))
  else if i =? 15 then Resolve None
  else Reject (CallError "unknown block").

(** Nodes on which the state commitment chain holds 10 elements and the
    transaction chain [ctcTotal]. *)
Definition nodes (ctcTotal blockNumber : Z) : StateBatchSubmitter.Nodes :=
  {| StateBatchSubmitter.scc_getTotalElements := Resolve 10;
     StateBatchSubmitter.getBlockNumber := Resolve blockNumber;
     StateBatchSubmitter.ctc_getTotalElements := Resolve ctcTotal;
     StateBatchSubmitter.getBlockWithTransactions := stateRootOf;
     StateBatchSubmitter.appendStateBatch := fun _ _ =>
       Resolve {| StateBatchSubmitter.transactionHash := "0xaa" |} |}.

(** A stand-in for the ABI encoder: the state roots one after the other
    (the start index takes no room). *)
Definition encode (batch : list string) (startBlock : Z) : option string :=
  Some (Scenario.encodeAppendStateBatch batch).

(** A stand-in for [_submitAndLogTx]: it logs the message once the
    transaction is accepted. *)
Definition submitAndLogTx (answer : Answer StateBatchSubmitter.TransactionReceipt)
    (successMessage : string)
  : Result (option StateBatchSubmitter.TransactionReceipt) * list StateBatchSubmitter.Event :=
  match answer with
  | Resolve receipt => (Return (Some receipt), [StateBatchSubmitter.Logged info successMessage])
  | Reject e => (Throw e, [])
  end.

End Cases.

(** * Facts about the libraries *)

Module HexFacts.
Import Hex.

Lemma byte_roundtrip (b : byte) :
  byte_of_digits (digit (Byte.to_N b / 16)) (digit (Byte.to_N b mod 16)) = Some b.
Proof. destruct b; reflexivity. Qed.

Lemma parse_body (bs : list byte) : parse (body bs) = Some bs.
Proof.
  induction bs as [|b bs IH]; simpl; [reflexivity|].
  rewrite byte_roundtrip, IH. reflexivity.
Qed.

Lemma arrayify_hexlify (bs : list byte) : arrayify (hexlify bs) = Some bs.
Proof. unfold arrayify, hexlify. simpl. apply parse_body. Qed.

Lemma Buffer_from_hex_body (bs : list byte) : Buffer_from_hex (body bs) = bs.
Proof.
  induction bs as [|b bs IH]; simpl; [reflexivity|].
  rewrite byte_roundtrip, IH. reflexivity.
Qed.

Lemma slice2_hexlify (bs : list byte) : slice2 (hexlify bs) = body bs.
Proof. reflexivity. Qed.






End HexFacts.

Module MerkleTreeFacts.
Import MerkleTree.

Section WithHash.

Variable hashAlgo : Buffer -> Buffer.

Local Abbreviation hashLayer := (MerkleTree.hashLayer hashAlgo).
Local Abbreviation _createHashes := (MerkleTree._createHashes hashAlgo).
Local Abbreviation new := (MerkleTree.new hashAlgo).
Local Abbreviation fold_siblings := (MerkleTree.fold_siblings hashAlgo).
Local Abbreviation complete_root := (MerkleTree.complete_root hashAlgo).

Lemma hashLayer_length (nodes : list Buffer) :
  length (hashLayer nodes) = ((length nodes + 1) / 2)%nat.
Proof.
  remember (length nodes) as n eqn:Hn.
  assert (Hle : (length nodes <= n)%nat) by lia.
  rewrite Hn. clear Hn. revert nodes Hle.
  induction n as [|n IH]; intros [|a [|b rest]] Hle; cbn [hashLayer length] in *;
    try reflexivity; try lia.
  rewrite IH by lia.
  generalize (length rest); intros m.
  replace (S (S m) + 1)%nat with ((m + 1) + 1 * 2)%nat by lia.
  rewrite Nat.div_add by lia. lia.
Qed.

Lemma hashLayer_app (a b : list Buffer) :
  Nat.even (length a) = true -> hashLayer (a ++ b) = hashLayer a ++ hashLayer b.
Proof.
  remember (length a) as n eqn:Hn.
  assert (Hle : (length a <= n)%nat) by lia.
  rewrite Hn. clear Hn. revert a Hle.
  induction n as [|n IH]; intros [|x [|y rest]] Hle He; simpl in *;
    try reflexivity; try discriminate; try lia.
  f_equal. apply IH; [lia | exact He].
Qed.

(** Node [j] of the layer above is the hash of nodes [2j] and [2j+1]. *)
Lemma hashLayer_nth (nodes : list Buffer) (j : nat) :
  (2 * j + 1 < length nodes)%nat ->
  exists a b, nth_error nodes (2 * j) = Some a
           /\ nth_error nodes (2 * j + 1) = Some b
           /\ nth_error (hashLayer nodes) j = Some (hashAlgo (a ++ b)).
Proof.
  revert nodes.
  induction j as [|j IH]; intros [|a [|b rest]] Hlt; simpl in Hlt; try lia.
  - exists a, b. repeat split.
  - destruct (IH rest) as (a' & b' & Ha & Hb & Hh); [lia|].
    exists a', b'.
    replace (2 * S j)%nat with (S (S (2 * j))) by lia.
    replace (S (S (2 * j)) + 1)%nat with (S (S (2 * j + 1))) by lia.
    simpl nth_error. auto.
Qed.

Lemma half_pow2 (k : nat) : ((2 ^ S k + 1) / 2 = 2 ^ k)%nat.
Proof.
  rewrite Nat.pow_succ_r'.
  replace (2 * 2 ^ k + 1)%nat with (1 + 2 ^ k * 2)%nat by lia.
  rewrite Nat.div_add by lia. reflexivity.
Qed.

Lemma hashLayer_pow2 (k : nat) (nodes : list Buffer) :
  length nodes = (2 ^ S k)%nat -> length (hashLayer nodes) = (2 ^ k)%nat.
Proof. intros H. rewrite hashLayer_length, H. apply half_pow2. Qed.

Lemma pow2_pos (k : nat) : (0 < 2 ^ k)%nat.
Proof. induction k; simpl; lia. Qed.

Lemma pow2_even (k : nat) : Nat.even (2 ^ S k) = true.
Proof. rewrite Nat.pow_succ_r'. rewrite Nat.even_mul. reflexivity. Qed.

Lemma index_halves (i : nat) :
  i = (2 * (i / 2) + Nat.b2n (Nat.odd i))%nat.
Proof. rewrite <- Nat.div2_div. apply Nat.div2_odd. Qed.

(** Hashing a layer of [2^(k+1)] nodes pairwise and taking the complete
    root of the result is taking the complete root one level higher. *)
Lemma complete_root_hashLayer (k : nat) (nodes : list Buffer) :
  length nodes = (2 ^ S k)%nat ->
  complete_root k (hashLayer nodes) = complete_root (S k) nodes.
Proof.
  revert nodes. induction k as [|k IH]; intros nodes Hlen.
  - destruct nodes as [|a [|b [|c rest]]]; simpl in Hlen; try lia. reflexivity.
  - pose proof (pow2_pos k) as Hpos.
    assert (Hsplit : nodes = firstn (2 ^ S k) nodes ++ skipn (2 ^ S k) nodes)
      by (symmetry; apply firstn_skipn).
    assert (H1 : length (firstn (2 ^ S k) nodes) = (2 ^ S k)%nat).
    { rewrite length_firstn, Hlen. rewrite (Nat.pow_succ_r' 2 (S k)). lia. }
    assert (H2 : length (skipn (2 ^ S k) nodes) = (2 ^ S k)%nat).
    { rewrite length_skipn, Hlen. rewrite (Nat.pow_succ_r' 2 (S k)). lia. }
    set (l1 := firstn (2 ^ S k) nodes) in *.
    set (l2 := skipn (2 ^ S k) nodes) in *.
    change (complete_root (S (S k)) nodes)
      with (hashAlgo (complete_root (S k) l1 ++ complete_root (S k) l2)).
    rewrite <- (IH l1 H1), <- (IH l2 H2).
    rewrite Hsplit at 1.
    rewrite hashLayer_app by (rewrite H1; apply pow2_even).
    pose proof (hashLayer_pow2 k l1 H1) as Hh1.
    change (complete_root (S k) (hashLayer l1 ++ hashLayer l2))
      with (hashAlgo (complete_root k (firstn (2 ^ k) (hashLayer l1 ++ hashLayer l2))
                      ++ complete_root k (skipn (2 ^ k) (hashLayer l1 ++ hashLayer l2)))).
    rewrite <- Hh1 at 1. rewrite firstn_app, Nat.sub_diag, firstn_all, firstn_O, app_nil_r.
    rewrite <- Hh1 at 1. rewrite skipn_app, Nat.sub_diag, skipn_all, skipn_O.
    reflexivity.
Qed.

(** The bottom-up construction ends in one node: the root of the complete
    binary tree over the leaves. *)
Lemma createHashes_last (k : nat) :
  forall (nodes : list Buffer) (rounds : nat),
    length nodes = (2 ^ k)%nat -> (k <= rounds)%nat ->
    last (nodes :: _createHashes rounds nodes) [] = [complete_root k nodes].
Proof.
  induction k as [|k IH]; intros nodes rounds Hlen Hr.
  - destruct nodes as [|x [|y rest]]; simpl in Hlen; try lia.
    destruct rounds; reflexivity.
  - destruct rounds as [|r]; [lia|].
    pose proof (pow2_pos k) as Hpos.
    cbn [_createHashes].
    replace (1 <? length nodes)%nat with true
      by (symmetry; apply Nat.ltb_lt; rewrite Hlen, Nat.pow_succ_r'; lia).
    change (last (nodes :: hashLayer nodes :: _createHashes r (hashLayer nodes)) [])
      with (last (hashLayer nodes :: _createHashes r (hashLayer nodes)) []).
    rewrite (IH (hashLayer nodes) r (hashLayer_pow2 k nodes Hlen)) by lia.
    rewrite complete_root_hashLayer by exact Hlen. reflexivity.
Qed.

(** Folding leaf [i] with the sibling hashes that [getProof] collects
    gives the root of the complete tree. *)
Lemma getProof_layers_fold (k : nat) :
  forall (nodes : list Buffer) (rounds i : nat),
    length nodes = (2 ^ k)%nat -> (k <= rounds)%nat -> (i < 2 ^ k)%nat ->
    exists leaf,
      nth_error nodes i = Some leaf /\
      fold_siblings i leaf
        (map data (getProof_layers (nodes :: _createHashes rounds nodes) i))
      = complete_root k nodes.
Proof.
  induction k as [|k IH]; intros nodes rounds i Hlen Hr Hi.
  - destruct nodes as [|x [|y rest]]; simpl in Hlen; try lia.
    simpl in Hi. assert (i = 0)%nat as -> by lia.
    exists x. split; [reflexivity|]. destruct rounds; reflexivity.
  - destruct rounds as [|r]; [lia|].
    pose proof (pow2_pos k) as Hpos.
    assert (Hj : (2 * (i / 2) + 1 < length nodes)%nat).
    { rewrite Hlen. rewrite Nat.pow_succ_r' in Hi |- *.
      pose proof (index_halves i). destruct (Nat.odd i); simpl in *; lia. }
    destruct (hashLayer_nth nodes (i / 2) Hj) as (a & b & Ha & Hb & Hab).
    assert (Hhalf : (i / 2 < 2 ^ k)%nat).
    { rewrite Hlen, Nat.pow_succ_r' in Hj. lia. }
    destruct (IH (hashLayer nodes) r (i / 2)%nat (hashLayer_pow2 k nodes Hlen))
      as (up & Hup & Hfold); [lia | exact Hhalf |].
    rewrite Hab in Hup. injection Hup as <-.
    rewrite <- (complete_root_hashLayer k nodes Hlen), <- Hfold.
    cbn [_createHashes].
    replace (1 <? length nodes)%nat with true
      by (symmetry; apply Nat.ltb_lt; lia).
    cbn [getProof_layers].
    pose proof (index_halves i) as Hi2.
    destruct (Nat.odd i) eqn:Hodd; cbn [Nat.b2n] in Hi2.
    + exists b. split; [rewrite Hi2 at 1; exact Hb|].
      replace (i - 1)%nat with (2 * (i / 2))%nat by lia.
      rewrite Ha. cbn [app map data fold_siblings].
      rewrite <- Nat.negb_odd, Hodd. reflexivity.
    + exists a. split; [rewrite Hi2 at 1; rewrite Nat.add_0_r; exact Ha|].
      replace (i + 1)%nat with (2 * (i / 2) + 1)%nat by lia.
      rewrite Hb. cbn [app map data fold_siblings].
      rewrite <- Nat.negb_odd, Hodd. reflexivity.
Qed.

Lemma le_pow2 (k : nat) : (k <= 2 ^ k)%nat.
Proof. induction k as [|k IH]; [simpl; lia|]. rewrite Nat.pow_succ_r'. pose proof (pow2_pos k). lia. Qed.

(** The tree built over [2^k] leaves: its root is the complete root, and
    every in-range proof folds to it. *)
Lemma new_root (k : nat) (ls : list Buffer) :
  length ls = (2 ^ k)%nat -> getRoot (new ls) = complete_root k ls.
Proof.
  intros Hlen. unfold getRoot, new. cbn [layers].
  rewrite (createHashes_last k ls (length ls) Hlen) by (rewrite Hlen; apply le_pow2).
  reflexivity.
Qed.

Lemma getProof_fold (k : nat) (ls : list Buffer) (leaf : option Buffer) (i : nat) :
  length ls = (2 ^ k)%nat -> (i < 2 ^ k)%nat ->
  exists l, nth_error ls i = Some l /\
    fold_siblings i l (map data (getProof (new ls) leaf (Z.of_nat i))) = getRoot (new ls).
Proof.
  intros Hlen Hi. rewrite (new_root k ls Hlen).
  unfold getProof. replace (Z.of_nat i <=? -1) with false by (symmetry; apply Z.leb_gt; lia).
  rewrite Nat2Z.id. unfold new. cbn [layers].
  apply getProof_layers_fold; [exact Hlen | rewrite Hlen; apply le_pow2 | exact Hi].
Qed.

End WithHash.

(** The tree depends on the hash function only through its values. *)
Lemma hashLayer_ext (f g : Buffer -> Buffer) (nodes : list Buffer) :
  (forall b, f b = g b) -> hashLayer f nodes = hashLayer g nodes.
Proof.
  intros H. remember (length nodes) as n eqn:Hn.
  assert (Hle : (length nodes <= n)%nat) by lia. clear Hn. revert nodes Hle.
  induction n as [|n IH]; intros [|a [|b rest]] Hle; cbn [hashLayer length] in *;
    try reflexivity; try lia.
  rewrite H. f_equal. apply IH. lia.
Qed.

Lemma createHashes_ext (f g : Buffer -> Buffer) (rounds : nat) (nodes : list Buffer) :
  (forall b, f b = g b) -> _createHashes f rounds nodes = _createHashes g rounds nodes.
Proof.
  intros H. revert nodes. induction rounds as [|n IH]; intros nodes; cbn [_createHashes].
  - reflexivity.
  - destruct (1 <? length nodes)%nat; [|reflexivity].
    rewrite (hashLayer_ext f g nodes H). f_equal. apply IH.
Qed.

Lemma new_ext (f g : Buffer -> Buffer) (ls : list Buffer) :
  (forall b, f b = g b) -> new f ls = new g ls.
Proof. intros H. unfold new. rewrite (createHashes_ext f g _ _ H). reflexivity. Qed.

End MerkleTreeFacts.

(** * Equations of the effect monad *)

Lemma bind_ret {A B} (a : A) (k : A -> M B) (m : Mem) : bind (ret a) k m = k a m.
Proof. unfold bind, ret. destruct (k a m) as [[r m2] t2]. reflexivity. Qed.

Lemma bind_gets {A B} (f : Service.t -> A) (k : A -> M B) (m : Mem) :
  bind (gets f) k m = k (f (this m)) m.
Proof. unfold bind, gets. destruct (k _ m) as [[r m2] t2]. reflexivity. Qed.

Lemma bind_lift_inr {A B} (a : A) (k : A -> M B) (m : Mem) :
  bind (lift (inr a)) k m = k a m.
Proof. apply bind_ret. Qed.

Lemma bind_lift_inl {A B} (e : Err) (k : A -> M B) (m : Mem) :
  bind (lift (inl e)) k m = (Throw e, m, []).
Proof. reflexivity. Qed.

Lemma bind_modify {B} (f : Service.t -> Service.t) (k : unit -> M B) (m : Mem) :
  bind (modify f) k m = k tt {| this := f (this m); clock := clock m |}.
Proof. unfold bind, modify. destruct (k tt _) as [[r m2] t2]. reflexivity. Qed.

Lemma bind_emit {B} (a : Action) (k : unit -> M B) (m : Mem) :
  bind (emit a) k m
  = (result_of (k tt m), state_of (k tt m), a :: trace_of (k tt m)).
Proof. unfold bind, emit. destruct (k tt m) as [[r m2] t2]. reflexivity. Qed.

Lemma result_bind {A B} (c : M A) (k : A -> M B) (m : Mem) :
  result_of (bind c k m)
  = match result_of (c m) with
    | Return a => result_of (k a (state_of (c m)))
    | Throw e => Throw e
    | Running => Running
    end.
Proof.
  unfold bind, result_of, state_of. destruct (c m) as [[[a|e|] m1] t1]; cbn; try reflexivity.
  destruct (k a m1) as [[r m2] t2]. reflexivity.
Qed.

Lemma state_bind {A B} (c : M A) (k : A -> M B) (m : Mem) :
  state_of (bind c k m)
  = match result_of (c m) with
    | Return a => state_of (k a (state_of (c m)))
    | _ => state_of (c m)
    end.
Proof.
  unfold bind, result_of, state_of. destruct (c m) as [[[a|e|] m1] t1]; cbn; try reflexivity.
  destruct (k a m1) as [[r m2] t2]. reflexivity.
Qed.

Lemma trace_bind {A B} (c : M A) (k : A -> M B) (m : Mem) :
  trace_of (bind c k m)
  = trace_of (c m)
    ++ match result_of (c m) with
       | Return a => trace_of (k a (state_of (c m)))
       | _ => []
       end.
Proof.
  unfold bind, result_of, state_of, trace_of.
  destruct (c m) as [[[a|e|] m1] t1]; cbn; try (rewrite app_nil_r; reflexivity).
  destruct (k a m1) as [[r m2] t2]. reflexivity.
Qed.

Lemma result_try_catch {A} (c : M A) (handler : Err -> M A) (m : Mem) :
  result_of (try_catch c handler m)
  = match result_of (c m) with
    | Throw e => result_of (handler e (state_of (c m)))
    | other => other
    end.
Proof.
  unfold try_catch, result_of, state_of. destruct (c m) as [[[a|e|] m1] t1]; cbn; try reflexivity.
  destruct (handler e m1) as [[r m2] t2]. reflexivity.
Qed.

Lemma state_try_catch {A} (c : M A) (handler : Err -> M A) (m : Mem) :
  state_of (try_catch c handler m)
  = match result_of (c m) with
    | Throw e => state_of (handler e (state_of (c m)))
    | _ => state_of (c m)
    end.
Proof.
  unfold try_catch, result_of, state_of. destruct (c m) as [[[a|e|] m1] t1]; cbn; try reflexivity.
  destruct (handler e m1) as [[r m2] t2]. reflexivity.
Qed.

Lemma trace_try_catch {A} (c : M A) (handler : Err -> M A) (m : Mem) :
  trace_of (try_catch c handler m)
  = trace_of (c m)
    ++ match result_of (c m) with
       | Throw e => trace_of (handler e (state_of (c m)))
       | _ => []
       end.
Proof.
  unfold try_catch, result_of, state_of, trace_of.
  destruct (c m) as [[[a|e|] m1] t1]; cbn; try (rewrite app_nil_r; reflexivity).
  destruct (handler e m1) as [[r m2] t2]. reflexivity.
Qed.

Lemma bind_of_return {A B} (c : M A) (k : A -> M B) (m m1 : Mem) (a : A)
    (t1 : list Action) :
  c m = (Return a, m1, t1) ->
  bind c k m = (result_of (k a m1), state_of (k a m1), t1 ++ trace_of (k a m1)).
Proof. intros H. unfold bind. rewrite H. destruct (k a m1) as [[r m2] t2]. reflexivity. Qed.

Lemma bind_of_throw {A B} (c : M A) (k : A -> M B) (m m1 : Mem) (e : Err)
    (t1 : list Action) :
  c m = (Throw e, m1, t1) -> bind c k m = (Throw e, m1, t1).
Proof. intros H. unfold bind. rewrite H. reflexivity. Qed.

Lemma bind_of_running {A B} (c : M A) (k : A -> M B) (m m1 : Mem) (t1 : list Action) :
  c m = (Running, m1, t1) -> bind c k m = (Running, m1, t1).
Proof. intros H. unfold bind. rewrite H. reflexivity. Qed.

Lemma try_catch_of_return {A} (c : M A) (handler : Err -> M A) (m m1 : Mem) (a : A)
    (t1 : list Action) :
  c m = (Return a, m1, t1) -> try_catch c handler m = (Return a, m1, t1).
Proof. intros H. unfold try_catch. rewrite H. reflexivity. Qed.

Lemma try_catch_of_throw {A} (c : M A) (handler : Err -> M A) (m m1 : Mem) (e : Err)
    (t1 : list Action) :
  c m = (Throw e, m1, t1) ->
  try_catch c handler m
  = (result_of (handler e m1), state_of (handler e m1), t1 ++ trace_of (handler e m1)).
Proof.
  intros H. unfold try_catch. rewrite H. destruct (handler e m1) as [[r m2] t2]. reflexivity.
Qed.

Lemma triple_eta {A} (x : Result A * Mem * list Action) :
  x = (result_of x, state_of x, trace_of x).
Proof. destruct x as [[r m] t]. reflexivity. Qed.


Lemma emits_ret {A} (P : Action -> Prop) (a : A) : emits P (ret a).
Proof. intros m. apply Forall_nil. Qed.

Lemma emits_throw {A} (P : Action -> Prop) (e : Err) : emits P (@throw A e).
Proof. intros m. apply Forall_nil. Qed.

Lemma emits_running {A} (P : Action -> Prop) : emits P (@running A).
Proof. intros m. apply Forall_nil. Qed.

Lemma emits_gets {A} (P : Action -> Prop) (f : Service.t -> A) : emits P (gets f).
Proof. intros m. apply Forall_nil. Qed.

Lemma emits_modify (P : Action -> Prop) (f : Service.t -> Service.t) : emits P (modify f).
Proof. intros m. apply Forall_nil. Qed.

Lemma emits_lift {A} (P : Action -> Prop) (v : Err + A) : emits P (lift v).
Proof. intros m. destruct v; apply Forall_nil. Qed.

Lemma emits_emit (P : Action -> Prop) (a : Action) : P a -> emits P (emit a).
Proof. intros H m. apply Forall_cons; [exact H | apply Forall_nil]. Qed.

Lemma emits_rpc {A} (P : Action -> Prop) (world : World) (c : RpcCall)
    (ask : Chains -> Answer A) :
  (forall n, P (Call n c)) -> emits P (rpc world c ask).
Proof. intros H m. apply Forall_cons; [apply H | apply Forall_nil]. Qed.

Lemma emits_bind {A B} (P : Action -> Prop) (c : M A) (k : A -> M B) :
  emits P c -> (forall a, emits P (k a)) -> emits P (bind c k).
Proof.
  intros Hc Hk m. rewrite trace_bind. apply Forall_app. split; [apply Hc|].
  destruct (result_of (c m)); [apply Hk | apply Forall_nil | apply Forall_nil].
Qed.

Lemma emits_try_catch {A} (P : Action -> Prop) (c : M A) (handler : Err -> M A) :
  emits P c -> (forall e, emits P (handler e)) -> emits P (try_catch c handler).
Proof.
  intros Hc Hh m. rewrite trace_try_catch. apply Forall_app. split; [apply Hc|].
  destruct (result_of (c m)); [apply Forall_nil | apply Hh | apply Forall_nil].
Qed.

Lemma emits_for_of {A} (P : Action -> Prop) (xs : list A) (body : A -> M unit) :
  (forall x, emits P (body x)) -> emits P (for_of xs body).
Proof.
  intros Hb. induction xs as [|x rest IH]; cbn [for_of].
  - apply emits_ret.
  - apply emits_bind; [apply Hb | intros u; exact IH].
Qed.

Lemma emits_weaken {A} (P Q : Action -> Prop) (c : M A) :
  (forall a, P a -> Q a) -> emits P c -> emits Q c.
Proof. intros H Hc m. eapply Forall_impl; [exact H | apply Hc]. Qed.


Lemma keeps_ret {A} (a : A) : keeps (ret a).
Proof. intros m. reflexivity. Qed.

Lemma keeps_throw {A} (e : Err) : keeps (@throw A e).
Proof. intros m. reflexivity. Qed.

Lemma keeps_running {A} : keeps (@running A).
Proof. intros m. reflexivity. Qed.

Lemma keeps_gets {A} (f : Service.t -> A) : keeps (gets f).
Proof. intros m. reflexivity. Qed.

Lemma keeps_emit (a : Action) : keeps (emit a).
Proof. intros m. reflexivity. Qed.

Lemma keeps_lift {A} (v : Err + A) : keeps (lift v).
Proof. intros m. destruct v; reflexivity. Qed.

Lemma keeps_rpc {A} (world : World) (c : RpcCall) (ask : Chains -> Answer A) :
  keeps (rpc world c ask).
Proof. intros m. reflexivity. Qed.

Lemma keeps_bind {A B} (c : M A) (k : A -> M B) :
  keeps c -> (forall a, keeps (k a)) -> keeps (bind c k).
Proof.
  intros Hc Hk m. rewrite state_bind.
  destruct (result_of (c m)); [rewrite Hk|..]; apply Hc.
Qed.

Lemma keeps_try_catch {A} (c : M A) (handler : Err -> M A) :
  keeps c -> (forall e, keeps (handler e)) -> keeps (try_catch c handler).
Proof.
  intros Hc Hh m. rewrite state_try_catch.
  destruct (result_of (c m)); [|rewrite Hh|]; apply Hc.
Qed.

Lemma keeps_for_of {A} (xs : list A) (body : A -> M unit) :
  (forall x, keeps (body x)) -> keeps (for_of xs body).
Proof.
  intros Hb. induction xs as [|x rest IH]; cbn [for_of].
  - apply keeps_ret.
  - apply keeps_bind; [apply Hb | intros u; exact IH].
Qed.

Ltac keeps_step :=
  first [ apply keeps_ret | apply keeps_throw | apply keeps_running | apply keeps_gets
        | apply keeps_emit | apply keeps_lift | apply keeps_rpc
        | apply keeps_bind; [|intros ?]
        | apply keeps_try_catch; [|intros ?]
        | apply keeps_for_of; intros ? ].

Ltac keeps_auto :=
  repeat first
    [ keeps_step
    | match goal with
      | |- keeps (match ?x with _ => _ end) => destruct x
      | |- keeps (if ?x then _ else _) => destruct x
      end ].

Ltac emits_step :=
  first [ apply emits_ret | apply emits_throw | apply emits_running | apply emits_gets
        | apply emits_modify | apply emits_lift
        | apply emits_emit; cbn; auto
        | apply emits_rpc; intros; cbn; auto
        | apply emits_bind; [|intros ?]
        | apply emits_try_catch; [|intros ?]
        | apply emits_for_of; intros ? ].

Ltac emits_auto tac :=
  repeat first
    [ emits_step
    | match goal with
      | |- emits _ (match ?x with _ => _ end) => destruct x
      | |- emits _ (if ?x then _ else _) => destruct x
      end
    | tac ].

(** * Rules for triples *)

Ltac trace_ok :=
  repeat first [ apply Forall_nil | apply Forall_cons; [cbn; auto |] ].

Ltac triple_base :=
  cbn; repeat match goal with |- _ /\ _ => split end;
  auto; try (progress trace_ok); try lia.

Section Rules.

Variable T : Service.t -> Action -> Prop.
Hypothesis T_antitone : antitone T.

Lemma Step_refl (s : Service.t) : Step s s.
Proof. unfold Step. repeat split; lia. Qed.

Lemma Step_trans (s1 s2 s3 : Service.t) : Step s1 s2 -> Step s2 s3 -> Step s1 s3.
Proof.
  unfold Step. intros (Ho & Hp & Hb & Hl & Hn) (Ho' & Hp' & Hb' & Hl' & Hn').
  repeat split; try congruence; lia.
Qed.

Lemma triple_ret {A} (Pre : Service.t -> Prop) (Post : A -> Service.t -> Prop) (a : A) :
  (forall s, Pre s -> Post a s) -> triple T Pre (ret a) Post.
Proof.
  intros H m Hinv Hpre. triple_base; auto using Step_refl.
Qed.

Lemma triple_throw {A} (Pre : Service.t -> Prop) (Post : A -> Service.t -> Prop) (e : Err) :
  triple T Pre (throw e) Post.
Proof. intros m Hinv Hpre. triple_base; auto using Step_refl. Qed.

Lemma triple_running {A} (Pre : Service.t -> Prop) (Post : A -> Service.t -> Prop) :
  triple T Pre (@running A) Post.
Proof. intros m Hinv Hpre. triple_base; auto using Step_refl. Qed.

Lemma triple_bind {A B} (Pre : Service.t -> Prop) (Mid : A -> Service.t -> Prop)
    (Post : B -> Service.t -> Prop) (c : M A) (k : A -> M B) :
  triple T Pre c Mid ->
  (forall a, triple T (Mid a) (k a) Post) ->
  triple T Pre (bind c k) Post.
Proof.
  intros Hc Hk m Hinv Hpre.
  specialize (Hc m Hinv Hpre). unfold bind.
  destruct (c m) as [[r m1] t1]. cbn in Hc. destruct Hc as (Hs & Hi & Ht & Hr).
  destruct r as [a| |]; cbn; [|auto|auto].
  specialize (Hk a m1 Hi Hr).
  destruct (k a m1) as [[r2 m2] t2]. cbn in *. destruct Hk as (Hs2 & Hi2 & Ht2 & Hr2).
  refine (conj (Step_trans _ _ _ Hs Hs2) (conj Hi2 (conj _ Hr2))).
  apply Forall_app. split; [exact Ht|].
  eapply Forall_impl; [|exact Ht2]. intros a0. apply T_antitone. exact Hs.
Qed.

Lemma triple_try_catch {A} (Pre : Service.t -> Prop) (Post : A -> Service.t -> Prop)
    (c : M A) (handler : Err -> M A) :
  triple T Pre c Post ->
  (forall e, triple T (fun _ => True) (handler e) Post) ->
  triple T Pre (try_catch c handler) Post.
Proof.
  intros Hc Hh m Hinv Hpre.
  specialize (Hc m Hinv Hpre). unfold try_catch.
  destruct (c m) as [[r m1] t1]. cbn in Hc. destruct Hc as (Hs & Hi & Ht & Hr).
  destruct r as [a|e|]; cbn; [auto| |auto].
  specialize (Hh e m1 Hi I).
  destruct (handler e m1) as [[r2 m2] t2]. cbn in *. destruct Hh as (Hs2 & Hi2 & Ht2 & Hr2).
  refine (conj (Step_trans _ _ _ Hs Hs2) (conj Hi2 (conj _ Hr2))).
  apply Forall_app. split; [exact Ht|].
  eapply Forall_impl; [|exact Ht2]. intros a0. apply T_antitone. exact Hs.
Qed.

Lemma triple_emit (Pre : Service.t -> Prop) (Post : unit -> Service.t -> Prop) (a : Action) :
  (forall s, Pre s -> T s a) -> (forall s, Pre s -> Post tt s) ->
  triple T Pre (emit a) Post.
Proof.
  intros Ha Hp m Hinv Hpre. triple_base; auto using Step_refl.
Qed.

Lemma triple_gets {A} (Pre : Service.t -> Prop) (Post : A -> Service.t -> Prop)
    (f : Service.t -> A) :
  (forall s, Pre s -> Post (f s) s) -> triple T Pre (gets f) Post.
Proof.
  intros Hp m Hinv Hpre. triple_base; auto using Step_refl.
Qed.

Lemma triple_modify (Pre : Service.t -> Prop) (Post : unit -> Service.t -> Prop)
    (f : Service.t -> Service.t) :
  (forall s, Inv s -> Pre s -> Step s (f s) /\ Inv (f s) /\ Post tt (f s)) ->
  triple T Pre (modify f) Post.
Proof.
  intros Hf m Hinv Hpre. destruct (Hf _ Hinv Hpre) as (Hs & Hi & Hp).
  triple_base.
Qed.

Lemma triple_lift {A} (Pre : Service.t -> Prop) (Post : A -> Service.t -> Prop)
    (v : Err + A) :
  (forall a s, v = inr a -> Pre s -> Post a s) -> triple T Pre (lift v) Post.
Proof.
  intros Hp m Hinv Hpre. destruct v as [e|a]; triple_base; auto using Step_refl.
Qed.

Lemma triple_rpc {A} (world : World) (Pre : Service.t -> Prop)
    (Post : A -> Service.t -> Prop) (c : RpcCall) (ask : Chains -> Answer A) :
  (forall s n, Pre s -> T s (Call n c)) ->
  (forall a s, Pre s -> Post a s) ->
  triple T Pre (rpc world c ask) Post.
Proof.
  intros Hc Hp m Hinv Hpre. unfold rpc.
  triple_base; auto using Step_refl.
  destruct (ask (world (clock m))); cbn; auto.
Qed.

Lemma triple_conseq {A} (Pre Pre' : Service.t -> Prop) (Post Post' : A -> Service.t -> Prop)
    (c : M A) :
  triple T Pre' c Post' ->
  (forall s, Pre s -> Pre' s) ->
  (forall a s, Post' a s -> Post a s) ->
  triple T Pre c Post.
Proof.
  intros Hc Hpre Hpost m Hinv Hp.
  destruct (Hc m Hinv (Hpre _ Hp)) as (Hs & Hi & Ht & Hr).
  refine (conj Hs (conj Hi (conj Ht _))). destruct (result_of (c m)); auto.
Qed.

Lemma triple_for_of {A} (P : Service.t -> Prop) (xs : list A) (body : A -> M unit) :
  (forall x, triple T P (body x) (fun _ => P)) ->
  triple T P (for_of xs body) (fun _ => P).
Proof.
  intros Hb. induction xs as [|x rest IH]; cbn [for_of].
  - apply triple_ret. auto.
  - eapply triple_bind; [apply Hb|]. intros u. exact IH.
Qed.

End Rules.

Lemma triple_weaken {A} (T T' : Service.t -> Action -> Prop) (Pre : Service.t -> Prop)
    (c : M A) (Post : A -> Service.t -> Prop) :
  (forall s a, T s a -> T' s a) -> triple T Pre c Post -> triple T' Pre c Post.
Proof.
  intros HT Hc m Hinv Hpre. destruct (Hc m Hinv Hpre) as (Hs & Hi & Ht & Hr).
  refine (conj Hs (conj Hi (conj _ Hr))).
  eapply Forall_impl; [|exact Ht]. intros a. apply HT.
Qed.

(** A computation that leaves the service object as it found it keeps any
    property of it. *)
Lemma triple_readonly {A} (T : Service.t -> Action -> Prop) (c : M A) (Q : A -> Prop) :
  (forall s0, triple T (fun s => s = s0) c (fun a s => s = s0 /\ Q a)) ->
  forall Pre : Service.t -> Prop, triple T Pre c (fun a s => Pre s /\ Q a).
Proof.
  intros Hc Pre m Hinv Hpre.
  destruct (Hc (this m) m Hinv eq_refl) as (Hs & Hi & Ht & Hr).
  refine (conj Hs (conj Hi (conj Ht _))).
  destruct (result_of (c m)); auto. destruct Hr as [-> Hq]. auto.
Qed.

Lemma triple_absurd {A} (T : Service.t -> Action -> Prop) (c : M A)
    (Post : A -> Service.t -> Prop) :
  triple T (fun _ => False) c Post.
Proof. intros m _ []. Qed.

Lemma Lookup_antitone : antitone LookupAction.
Proof. intros s s' a _ H. exact H. Qed.

Lemma Relay_antitone : antitone RelayAction.
Proof. intros s s' a _ H. exact H. Qed.

Lemma LoopAction_antitone : antitone LoopAction.
Proof.
  intros s s' a (Ho & Hp & Hb & Hl & Hn) H. destruct a as [| | | |n c]; cbn in *; auto.
  - congruence.
  - destruct c; auto. lia.
Qed.

Lemma Lookup_Relay (s : Service.t) (a : Action) : LookupAction s a -> RelayAction s a.
Proof. destruct a as [| | | |n c]; cbn; auto. destruct c; auto. Qed.

Lemma Relay_Loop (s : Service.t) (a : Action) : RelayAction s a -> LoopAction s a.
Proof. destruct a as [| | | |n c]; cbn; try tauto. destruct c; tauto. Qed.

(** * Relations between the trace predicates *)


Lemma HeaderAction_Advance (a : Action) : HeaderAction a -> AdvanceAction a.
Proof. destruct a as [| | | |n c]; cbn; try tauto. destruct c; tauto. Qed.

Lemma Advance_ScansFrom (bound : Z) (a : Action) : AdvanceAction a -> ScansFrom bound a.
Proof. destruct a as [| | | |n c]; cbn; try tauto. destruct c; tauto. Qed.

Lemma ScansFrom_le (bound bound' : Z) (a : Action) :
  bound <= bound' -> ScansFrom bound' a -> ScansFrom bound a.
Proof. intros Hle. destruct a as [| | | |n c]; cbn; auto. destruct c; auto. lia. Qed.

Lemma LoopAction_ScansFrom (s : Service.t) (a : Action) :
  LoopAction s a -> ScansFrom (Service.lastFinalizedTxHeight s + Service.blockOffset s) a.
Proof. destruct a as [| | | |n c]; cbn; auto. Qed.

Lemma Advance_NotMessageCall (a : Action) : AdvanceAction a -> NotMessageCall a.
Proof. destruct a as [| | | |n c]; cbn; try tauto. destruct c; tauto. Qed.

(** * Facts about the service *)

Section ServiceFacts.

Variable keccak : list byte -> list byte.
Variable decodeAppendStateBatch : string -> option (list string * Z).
Variable decodeRelayMessage : string -> option RelayMessageArgs.t.
Variable rlp_encode : list string -> Buffer.
Variable world : World.

Local Abbreviation getStateBatchHeader := (_getStateBatchHeader decodeAppendStateBatch world).
Local Abbreviation isTransactionFinalized := (_isTransactionFinalized decodeAppendStateBatch world).
Local Abbreviation getSentMessages := (_getSentMessages keccak decodeRelayMessage world).
Local Abbreviation getMessageProof :=
  (_getMessageProof keccak decodeAppendStateBatch rlp_encode world).
Local Abbreviation relay_ := (relay keccak decodeAppendStateBatch rlp_encode world).
Local Abbreviation while_finalized_ := (while_finalized decodeAppendStateBatch world).
Local Abbreviation tick_ :=
  (tick keccak decodeAppendStateBatch decodeRelayMessage rlp_encode world).
Local Abbreviation while_running_ :=
  (while_running keccak decodeAppendStateBatch decodeRelayMessage rlp_encode world).

(** A conversion that succeeds returns the value, which is a safe integer. *)
Lemma toNumber_inr (v n : Z) : toNumber v = inr n -> n = v /\ Z.abs v < 2 ^ 53.
Proof.
  unfold toNumber. destruct (Z.abs v <? 2 ^ 53) eqn:E; [|intros H; discriminate H].
  intros H. injection H as <-. split; [reflexivity | apply Z.ltb_lt; exact E].
Qed.

Lemma toNumber_safe (v : Z) : Z.abs v < 2 ^ 53 -> toNumber v = inr v.
Proof. intros H. unfold toNumber. apply Z.ltb_lt in H. rewrite H. reflexivity. Qed.

(** When the callback returns, it returns the range test. *)
Lemma covers_callback_inr (height : Z) (event : StateBatchAppended.t) (b : bool) :
  covers_callback height event = inr b -> b = covers height event.
Proof.
  unfold covers_callback, covers.
  destruct (toNumber (StateBatchAppended._prevTotalElements event)) as [e|prev] eqn:Hp;
    [intros H; discriminate H|].
  apply toNumber_inr in Hp as [-> _].
  destruct (StateBatchAppended._prevTotalElements event <=? height);
    [|intros H; injection H as <-; reflexivity].
  destruct (toNumber (StateBatchAppended._batchSize event)) as [e|size] eqn:Hs;
    [intros H; discriminate H|].
  apply toNumber_inr in Hs as [-> _].
  intros H. injection H as <-. reflexivity.
Qed.

(** On safe integers the callback is the range test. *)
Lemma covers_callback_safe (height : Z) (event : StateBatchAppended.t) :
  Z.abs (StateBatchAppended._prevTotalElements event) < 2 ^ 53 ->
  Z.abs (StateBatchAppended._batchSize event) < 2 ^ 53 ->
  covers_callback height event = inr (covers height event).
Proof.
  intros Hp Hs. unfold covers_callback, covers.
  rewrite (toNumber_safe _ Hp), (toNumber_safe _ Hs).
  destruct (StateBatchAppended._prevTotalElements event <=? height); reflexivity.
Qed.

(** The event that the callback accepts covers the height, and its size
    is a safe integer. *)
Lemma covers_callback_true (height : Z) (event : StateBatchAppended.t) :
  covers_callback height event = inr true ->
  StateBatchAppended._prevTotalElements event <= height
  < StateBatchAppended._prevTotalElements event + StateBatchAppended._batchSize event
  /\ Z.abs (StateBatchAppended._prevTotalElements event) < 2 ^ 53
  /\ Z.abs (StateBatchAppended._batchSize event) < 2 ^ 53.
Proof.
  unfold covers_callback.
  destruct (toNumber (StateBatchAppended._prevTotalElements event)) as [e|prev] eqn:Hp;
    [intros H; discriminate H|].
  apply toNumber_inr in Hp as [-> Hp].
  destruct (StateBatchAppended._prevTotalElements event <=? height) eqn:Hle;
    [|intros H; discriminate H].
  destruct (toNumber (StateBatchAppended._batchSize event)) as [e|size] eqn:Hs;
    [intros H; discriminate H|].
  apply toNumber_inr in Hs as [-> Hs].
  intros H. injection H as H. lia.
Qed.

Lemma find_throwing_some {A} (f : A -> Err + bool) (xs : list A) (x : A) :
  find_throwing f xs = inr (Some x) -> In x xs /\ f x = inr true.
Proof.
  induction xs as [|y rest IH]; cbn; [intros H; discriminate H|].
  destruct (f y) as [e|[|]] eqn:Hy; [intros H; discriminate H| |].
  - intros H. injection H as <-. split; [left; reflexivity | exact Hy].
  - intros H. destruct (IH H) as [Hin Hx]. split; [right; exact Hin | exact Hx].
Qed.

(** With a callback that does not throw, [find_throwing] is [find]. *)
Lemma find_throwing_find {A} (f : A -> Err + bool) (g : A -> bool) (xs : list A) :
  Forall (fun x => f x = inr (g x)) xs -> find_throwing f xs = inr (find g xs).
Proof.
  induction 1 as [|x rest Hx _ IH]; cbn; [reflexivity|].
  rewrite Hx. destruct (g x); [reflexivity | exact IH].
Qed.

(** The event that [find] selects covers the height. *)
Lemma find_covers (height : Z) (events : list StateBatchAppended.t) (event : StateBatchAppended.t) :
  find_throwing (covers_callback height) events = inr (Some event) ->
  In event events
  /\ StateBatchAppended._prevTotalElements event <= height
     < StateBatchAppended._prevTotalElements event + StateBatchAppended._batchSize event.
Proof.
  intros H. apply find_throwing_some in H as [Hin Hc]. split; [exact Hin|].
  apply covers_callback_true in Hc. tauto.
Qed.


Lemma getStateBatchHeader_readonly (height : Z) (s0 : Service.t) :
  triple LookupAction (fun s => s = s0) (getStateBatchHeader height)
         (fun r s => s = s0 /\ header_covers height r).
Proof.
  intros m Hinv Hpre.
  unfold _getStateBatchHeader, bind, rpc, lift, ret, throw, state_of, result_of, trace_of.
  cbn.
  destruct (scc_StateBatchAppended (world (clock m))) as [events|e]; cbn.
  2:{ triple_base; auto using Step_refl. }
  destruct (find_throwing (covers_callback height) events) as [e|[event|]] eqn:Hfind; cbn.
  1,3: triple_base; auto using Step_refl.
  apply find_covers in Hfind as [_ Hcov].
  destruct (l1_getTransaction (world (S (clock m))) _) as [[tx|]|e]; cbn;
    [ | triple_base; auto using Step_refl | triple_base; auto using Step_refl ].
  destruct (decodeAppendStateBatch (Transaction.data tx)) as [d|]; cbn;
    triple_base; auto using Step_refl.
Qed.

(** A header that the lookup returns was built from an event of the
    answer to the query; that event covers the height and its numbers are
    safe integers, since the callback converted them. *)
Lemma getStateBatchHeader_some (height : Z) (m : Mem) (h : StateBatchHeader.t) :
  result_of (getStateBatchHeader height m) = Return (Some h) ->
  exists (events : list StateBatchAppended.t) (event : StateBatchAppended.t)
         (stateRoots : list string),
    scc_StateBatchAppended (world (clock m)) = Resolve events
    /\ In event events
    /\ StateBatchAppended._prevTotalElements event <= height
       < StateBatchAppended._prevTotalElements event + StateBatchAppended._batchSize event
    /\ safe_event event
    /\ h = header_of event stateRoots.
Proof.
  unfold _getStateBatchHeader, bind, rpc, lift, ret, throw, result_of. cbn.
  destruct (scc_StateBatchAppended (world (clock m))) as [events|e]; cbn;
    [|intros H; discriminate H].
  destruct (find_throwing (covers_callback height) events) as [e|[event|]] eqn:Hfind; cbn;
    try (intros H; discriminate H).
  destruct (l1_getTransaction (world (S (clock m))) _) as [[tx|]|e]; cbn;
    try (intros H; discriminate H).
  destruct (decodeAppendStateBatch (Transaction.data tx)) as [[stateRoots start]|]; cbn;
    [|intros H; discriminate H].
  intros H. injection H as <-.
  apply find_throwing_some in Hfind as [Hin Hc].
  apply covers_callback_true in Hc as (Hrange & Hp & Hs).
  exists events, event, stateRoots. repeat split; try assumption; apply Hrange.
Qed.

Lemma getStateBatchHeader_triple (height : Z) (Pre : Service.t -> Prop) :
  triple LookupAction Pre (getStateBatchHeader height)
         (fun r s => Pre s /\ header_covers height r).
Proof. apply triple_readonly. apply getStateBatchHeader_readonly. Qed.

Lemma isTransactionFinalized_triple (height : Z) (Pre : Service.t -> Prop) :
  triple LookupAction Pre (isTransactionFinalized height) (fun _ s => Pre s /\ True).
Proof.
  apply triple_readonly. intros s0. unfold _isTransactionFinalized.
  eapply (triple_bind _ Lookup_antitone); [apply getStateBatchHeader_triple|].
  intros [batch|].
  - eapply (triple_bind _ Lookup_antitone _ (fun _ s => s = s0)).
    + apply triple_rpc; [intros; exact I | tauto].
    + intros inside. apply triple_ret. auto.
  - apply triple_ret. tauto.
Qed.

(** The inner loop only moves [nextUnfinalizedTxHeight], and only forward:
    the size it adds belongs to a batch that covers the current height. *)
Lemma while_finalized_triple (budget : nat) :
  triple LookupAction (fun _ => True) (while_finalized_ budget) (fun _ _ => True).
Proof.
  induction budget as [|n IH]; cbn [while_finalized].
  - apply triple_running.
  - eapply (triple_bind _ Lookup_antitone _ (fun _ _ => True));
      [apply triple_gets; auto|]. intros next.
    eapply (triple_bind _ Lookup_antitone); [apply isTransactionFinalized_triple|].
    intros [|]; [|apply triple_ret; auto].
    eapply (triple_bind _ Lookup_antitone _ (fun x s => x = Service.nextUnfinalizedTxHeight s));
      [apply triple_gets; auto|]. intros next'.
    eapply (triple_bind _ Lookup_antitone); [apply getStateBatchHeader_triple|].
    intros [h|].
    + eapply (triple_bind _ Lookup_antitone _
                (fun size s => 0 < size)).
      { apply triple_lift. intros size s Hsize [_ Hc].
        apply toNumber_inr in Hsize as [-> _]. cbn in Hc. lia. }
      intros size.
      eapply (triple_bind _ Lookup_antitone _ (fun _ s => 0 < size));
        [apply triple_emit; [intros; exact I | auto]|]. intros _.
      eapply (triple_bind _ Lookup_antitone _ (fun _ _ => True)); [|intros _; exact IH].
      apply triple_modify. intros s Hinv Hsize.
      unfold Step, Inv, set_nextUnfinalizedTxHeight in *. cbn. repeat split; lia.
    + eapply (triple_bind _ Lookup_antitone _ (fun _ _ => False)); [apply triple_throw|].
      intros size. apply triple_absurd.
Qed.

Ltac relay_bind :=
  eapply (triple_bind _ Relay_antitone _ (fun _ _ => True)).

Ltac relay_leaf :=
  first [ apply triple_gets; auto
        | apply triple_lift; auto
        | apply triple_ret; auto
        | apply triple_throw
        | apply triple_emit; [intros; exact I | auto]
        | apply triple_rpc; [intros; exact I | auto] ].

Lemma getStateBatchHeader_relay (height : Z) :
  triple RelayAction (fun _ => True) (getStateBatchHeader height) (fun _ _ => True).
Proof.
  eapply triple_conseq;
    [ eapply triple_weaken;
        [exact Lookup_Relay | apply (getStateBatchHeader_triple height (fun _ => True))]
    | cbn; auto | cbn; auto ].
Qed.

Lemma getMessageProof_triple (message : SentMessage.t) :
  triple RelayAction (fun _ => True) (getMessageProof message) (fun _ _ => True).
Proof.
  unfold _getMessageProof.
  relay_bind; [relay_leaf|]. intros o.
  relay_bind; [relay_leaf|]. intros blockOffset.
  relay_bind; [relay_leaf|]. intros slot.
  relay_bind.
  { apply triple_try_catch; [exact Relay_antitone | |].
    - relay_bind; [relay_leaf|]. intros [p|]; relay_leaf.
    - intros e. relay_bind; [relay_leaf | intros _; relay_leaf]. }
  intros [proof|]; [|relay_leaf].
  relay_bind.
  { apply triple_try_catch; [exact Relay_antitone | |].
    - relay_bind; [apply getStateBatchHeader_relay|]. intros [h|]; relay_leaf.
    - intros e. relay_bind; [relay_leaf | intros _; relay_leaf]. }
  intros [batch|]; [|relay_leaf].
  relay_bind; [relay_leaf | intros p; relay_leaf].
Qed.

Lemma relay_triple (message : SentMessage.t) :
  triple RelayAction (fun _ => True) (relay_ message) (fun _ _ => True).
Proof.
  unfold relay.
  relay_bind; [relay_leaf|]. intros _.
  relay_bind; [unfold _wasMessageRelayed; relay_leaf|]. intros [|]; [relay_leaf|].
  relay_bind; [relay_leaf|]. intros _.
  relay_bind; [apply getMessageProof_triple|]. intros proof.
  relay_bind; [relay_leaf|]. intros _.
  apply triple_try_catch; [exact Relay_antitone | |].
  - relay_bind; [unfold _relayMessageToL1; relay_leaf | intros _; relay_leaf].
  - intros e. relay_leaf.
Qed.

(** A scan from [startHeight] is a loop action as long as
    [lastFinalizedTxHeight] is not above [startHeight]. *)
Lemma getSentMessages_triple (startHeight endHeight : Z) :
  triple LoopAction (fun s => Service.lastFinalizedTxHeight s <= startHeight)
         (getSentMessages startHeight endHeight) (fun _ _ => True).
Proof.
  unfold _getSentMessages.
  eapply (triple_bind _ LoopAction_antitone _
            (fun off s => off = Service.blockOffset s
                          /\ Service.lastFinalizedTxHeight s <= startHeight)).
  { apply triple_gets. auto. }
  intros off.
  eapply (triple_bind _ LoopAction_antitone _ (fun _ _ => True)).
  { apply triple_rpc; [|auto]. intros s n [-> Hle]. cbn. lia. }
  intros events. apply triple_lift. auto.
Qed.

Lemma tick_triple (budget : nat) :
  triple LoopAction (fun _ => True) (tick_ budget) (fun _ _ => True).
Proof.
  unfold tick.
  eapply (triple_bind _ LoopAction_antitone _
            (fun p s => p = Service.pollingInterval s)); [apply triple_gets; auto|].
  intros p.
  eapply (triple_bind _ LoopAction_antitone _ (fun _ _ => True)).
  { apply triple_emit; [|auto]. intros s ->. reflexivity. }
  intros _.
  eapply (triple_bind _ LoopAction_antitone _ (fun _ _ => True)).
  { apply triple_emit; [intros; exact I | auto]. }
  intros _.
  eapply (triple_bind _ LoopAction_antitone _ (fun _ _ => True)); [apply triple_gets; auto|].
  intros next.
  eapply (triple_bind _ LoopAction_antitone _ (fun _ _ => True)).
  { eapply triple_conseq;
      [ eapply triple_weaken; [|apply (isTransactionFinalized_triple next (fun _ => True))];
        intros s a H; apply Relay_Loop, Lookup_Relay, H
      | cbn; auto | cbn; auto ]. }
  intros [|]; cbn [negb].
  2:{ apply triple_emit; [intros; exact I | auto]. }
  eapply (triple_bind _ LoopAction_antitone _ (fun _ _ => True)).
  { apply triple_modify. intros s Hinv _.
    unfold Step, Inv, set_lastFinalizedTxHeight in *. cbn. repeat split; lia. }
  intros _.
  eapply (triple_bind _ LoopAction_antitone _ (fun _ _ => True)).
  { eapply triple_weaken; [|apply while_finalized_triple].
    intros s a H. apply Relay_Loop, Lookup_Relay, H. }
  intros _.
  eapply (triple_bind _ LoopAction_antitone _
            (fun l s => l = Service.lastFinalizedTxHeight s)); [apply triple_gets; auto|].
  intros l.
  eapply (triple_bind _ LoopAction_antitone _
            (fun _ s => l = Service.lastFinalizedTxHeight s)); [apply triple_gets; auto|].
  intros n.
  eapply (triple_bind _ LoopAction_antitone _
            (fun _ s => l = Service.lastFinalizedTxHeight s)).
  { apply triple_emit; [intros; exact I | auto]. }
  intros _.
  eapply (triple_bind _ LoopAction_antitone _ (fun _ _ => True)).
  { eapply triple_conseq; [apply getSentMessages_triple | | auto].
    intros s ->. cbn. lia. }
  intros messages.
  eapply (triple_bind _ LoopAction_antitone _ (fun _ _ => True)).
  { destruct (length messages =? 0)%nat;
      [apply triple_emit; [intros; exact I | auto] | apply triple_ret; auto]. }
  intros _.
  apply (triple_for_of _ LoopAction_antitone (fun _ => True)).
  intros message. eapply triple_weaken; [exact Relay_Loop | apply relay_triple].
Qed.

Lemma while_running_triple (ticks budget : nat) :
  triple LoopAction (fun _ => True) (while_running_ ticks budget) (fun _ _ => True).
Proof.
  induction ticks as [|n IH]; cbn [while_running].
  - apply triple_ret. auto.
  - eapply (triple_bind _ LoopAction_antitone); [apply tick_triple|].
    intros u. exact IH.
Qed.

End ServiceFacts.

(** * The claims *)

(** C1 (finalization gate), evaluated on two inputs.  On [gate_world] one
    pass returns with the cursor at height 1, the first height that is not
    final, having submitted one relay: for the message with nonce 0, sent
    at height 1, with the header of batch 1; batch 1 is the only batch that
    covers height 1 and the fraud-proof view answers [true] for it at every
    instant.  On [midbatch_world], started at height 3, the pass jumps from
    3 to 8 by the size of batch 0 and submits a relay for the message at
    height 6, which only batch 1 covers, again inside the window. *)
Theorem finalization_gate_not_enforced :
  (let r := Scenario.run Scenario.gate_world Scenario.options 1 10 in
   (result_of r, Service.nextUnfinalizedTxHeight (this (state_of r)),
    Scenario.submissions (trace_of r))
   = (Return tt, 1, [(0, Some (1, 1))]))
  /\ filter (covers 1) (map Scenario.event Scenario.gate_batches)
     = [Scenario.event (Scenario.batch 1 1 "0xb1" [Scenario.root "22"] true)]
  /\ (forall (instant : nat) (header : StateBatchHeader.t),
        StateBatchHeader.batchIndex header = 1 ->
        scc_insideFraudProofWindow (Scenario.gate_world instant) header = Resolve true)
  /\
  (let r := Scenario.run Scenario.midbatch_world (Scenario.with_start 3 Scenario.options) 1 10 in
   (result_of r, Service.lastFinalizedTxHeight (this (state_of r)),
    Service.nextUnfinalizedTxHeight (this (state_of r)), Scenario.submissions (trace_of r))
   = (Return tt, 3, 8, [(0, Some (1, 6))]))
  /\ filter (covers 6) (map Scenario.event Scenario.midbatch_batches)
     = [Scenario.event (Scenario.batch 1 5 "0xb1" Scenario.seven true)]
  /\ (forall (instant : nat) (header : StateBatchHeader.t),
        StateBatchHeader.batchIndex header = 1 ->
        scc_insideFraudProofWindow (Scenario.midbatch_world instant) header = Resolve true).
Proof.
  split; [vm_compute; reflexivity|].
  split; [vm_compute; reflexivity|].
  split.
  { intros instant header H. cbn. unfold Scenario.inside_window. rewrite H. reflexivity. }
  split; [vm_compute; reflexivity|].
  split; [vm_compute; reflexivity|].
  intros instant header H. cbn. unfold Scenario.inside_window. rewrite H. reflexivity.
Qed.

Section Claims.

Variable keccak : list byte -> list byte.
Variable decodeAppendStateBatch : string -> option (list string * Z).
Variable decodeRelayMessage : string -> option RelayMessageArgs.t.
Variable rlp_encode : list string -> Buffer.
Variable world : World.

Local Abbreviation getStateBatchHeader := (_getStateBatchHeader decodeAppendStateBatch world).
Local Abbreviation isTransactionFinalized := (_isTransactionFinalized decodeAppendStateBatch world).
Local Abbreviation getSentMessages := (_getSentMessages keccak decodeRelayMessage world).
Local Abbreviation getMessageProof :=
  (_getMessageProof keccak decodeAppendStateBatch rlp_encode world).
Local Abbreviation relay_ := (relay keccak decodeAppendStateBatch rlp_encode world).
Local Abbreviation while_finalized_ := (while_finalized decodeAppendStateBatch world).
Local Abbreviation tick_ :=
  (tick keccak decodeAppendStateBatch decodeRelayMessage rlp_encode world).
Local Abbreviation while_running_ :=
  (while_running keccak decodeAppendStateBatch decodeRelayMessage rlp_encode world).
Local Abbreviation start_ :=
  (_start keccak decodeAppendStateBatch decodeRelayMessage rlp_encode world).
Local Abbreviation decoded_as := (decoded_as keccak decodeRelayMessage).
Local Abbreviation advance := (advance decodeAppendStateBatch world).
Local Abbreviation finish_tick :=
  (finish_tick keccak decodeAppendStateBatch decodeRelayMessage rlp_encode world).


Lemma getStateBatchHeader_emits (height : Z) :
  emits HeaderAction (getStateBatchHeader height).
Proof.
  unfold _getStateBatchHeader.
  emits_step; [emits_step|].
  emits_step; [emits_step|].
  destruct a0 as [event|]; [|emits_step].
  emits_step; [emits_step|].
  emits_step; [destruct a0; emits_step|].
  emits_step; [destruct (decodeAppendStateBatch a1); emits_step|].
  emits_step.
Qed.





(** *** The Merkle tree over the state roots *)

Lemma hash_Buffer_keccak (b : Buffer) : hash_Buffer keccak b = keccak b.
Proof.
  unfold hash_Buffer, keccak256_Buffer.
  rewrite HexFacts.slice2_hexlify. apply HexFacts.Buffer_from_hex_body.
Qed.

Lemma hash_keccak (el : string) (bs : list byte) :
  Hex.arrayify el = Some bs -> hash keccak el = inr (keccak bs).
Proof.
  intros H. unfold hash, keccak256. rewrite H.
  rewrite HexFacts.slice2_hexlify, HexFacts.Buffer_from_hex_body. reflexivity.
Qed.

Lemma arrayify_zero32 : Hex.arrayify zero32 = Some (Hex.zeros 32).
Proof. reflexivity. Qed.

Lemma map_throwing_app {A B} (f : A -> Err + B) (xs ys : list A) (xs' ys' : list B) :
  map_throwing f xs = inr xs' -> map_throwing f ys = inr ys' ->
  map_throwing f (xs ++ ys) = inr (xs' ++ ys').
Proof.
  revert xs'. induction xs as [|x xs IH]; intros xs' Hx Hy; cbn in *.
  - injection Hx as <-. exact Hy.
  - destruct (f x) as [e|y]; [discriminate|].
    destruct (map_throwing f xs) as [e|zs]; [discriminate|].
    injection Hx as <-. rewrite (IH zs eq_refl Hy). reflexivity.
Qed.

Lemma map_throwing_repeat {A B} (f : A -> Err + B) (x : A) (y : B) (n : nat) :
  f x = inr y -> map_throwing f (repeat x n) = inr (repeat y n).
Proof.
  intros H. induction n as [|n IH]; cbn; [reflexivity|]. rewrite H, IH. reflexivity.
Qed.

Lemma map_throwing_hash (stateRoots : list string) (rootsBytes : list (list byte)) :
  Forall2 (fun r b => Hex.arrayify r = Some b) stateRoots rootsBytes ->
  map_throwing (hash keccak) stateRoots = inr (map keccak rootsBytes).
Proof.
  induction 1 as [|r b rs bs Hr _ IH]; cbn; [reflexivity|].
  rewrite (hash_keccak r b Hr), IH. reflexivity.
Qed.

(** A non-empty list is at most as long as the power of two the source computes. *)
Lemma le_pow2_ceil_log2 (n : nat) : (1 <= n)%nat -> (n <= 2 ^ Nat.log2_up n)%nat.
Proof.
  intros H. destruct (Nat.eq_dec n 1) as [->|Hne]; [cbn; lia|].
  apply Nat.log2_up_spec. lia.
Qed.

Lemma pow2_ceil_log2_pos (n : nat) :
  (1 <= n)%nat -> pow2_ceil_log2 n = (2 ^ Nat.log2_up n)%nat.
Proof. intros H. unfold pow2_ceil_log2. destruct n; [lia|reflexivity]. Qed.

Lemma nth_map_seq {A} (f : nat -> A) (N i : nat) (d : A) :
  (i < N)%nat -> nth i (map f (seq 0 N)) d = f i.
Proof.
  intros Hi. rewrite (nth_indep _ d (f 0%nat)) by (rewrite length_map, length_seq; exact Hi).
  rewrite map_nth, seq_nth by exact Hi. reflexivity.
Qed.

(** The [for] loop leaves the state roots in place and pads with zero words. *)
Lemma elements_padded (stateRoots : list string) :
  (1 <= length stateRoots)%nat ->
  elements stateRoots
  = stateRoots ++ repeat zero32 (2 ^ Nat.log2_up (length stateRoots) - length stateRoots).
Proof.
  intros Hn. unfold elements. rewrite (pow2_ceil_log2_pos _ Hn).
  pose proof (le_pow2_ceil_log2 _ Hn) as Hle.
  set (n := length stateRoots) in *. set (N := (2 ^ Nat.log2_up n)%nat) in *.
  apply (nth_ext _ _ zero32 zero32).
  - rewrite length_map, length_seq, length_app, repeat_length. lia.
  - intros i Hi. rewrite length_map, length_seq in Hi.
    rewrite nth_map_seq by exact Hi.
    destruct (i <? n)%nat eqn:E.
    + apply Nat.ltb_lt in E. rewrite app_nth1 by exact E. reflexivity.
    + apply Nat.ltb_ge in E. rewrite app_nth2 by exact E.
      rewrite nth_repeat. reflexivity.
Qed.

Lemma leaves_of_batch (stateRoots : list string) (rootsBytes : list (list byte)) :
  (1 <= length stateRoots)%nat ->
  Forall2 (fun r b => Hex.arrayify r = Some b) stateRoots rootsBytes ->
  map_throwing (hash keccak) (elements stateRoots)
  = inr (map keccak
           (rootsBytes
            ++ repeat (Hex.zeros 32)
                 (2 ^ Nat.log2_up (length stateRoots) - length stateRoots))).
Proof.
  intros Hn Hb. rewrite (elements_padded _ Hn), map_app, map_repeat.
  apply map_throwing_app; [apply map_throwing_hash; exact Hb|].
  apply map_throwing_repeat. apply hash_keccak. apply arrayify_zero32.
Qed.

Lemma assembleMessageProof_spec (message : SentMessage.t) (proof : EthProof.t)
    (batch : StateBatchHeader.t) (rootsBytes : list (list byte))
    (storageProof0 : EthProof.StorageProof) (others : list EthProof.StorageProof) :
  (1 <= length (StateBatchHeader.stateRoots batch))%nat ->
  Forall2 (fun r b => Hex.arrayify r = Some b) (StateBatchHeader.stateRoots batch) rootsBytes ->
  EthProof.storageProof proof = storageProof0 :: others ->
  Z.abs (StateBatchHeader.prevTotalElements batch) < 2 ^ 53 ->
  let index := SentMessage.height message - StateBatchHeader.prevTotalElements batch in
  let leaves :=
    map keccak
      (rootsBytes
       ++ repeat (Hex.zeros 32)
            (2 ^ Nat.log2_up (length (StateBatchHeader.stateRoots batch))
             - length (StateBatchHeader.stateRoots batch))) in
  assembleMessageProof keccak rlp_encode message proof batch
  = inr {| MessageProof.stateRoot := at_index (StateBatchHeader.stateRoots batch) index;
           MessageProof.stateRootBatchHeader := batch;
           MessageProof.stateRootProof :=
             {| StateRootProof.index := index;
                StateRootProof.siblings :=
                  map MerkleTree.data
                      (MerkleTree.getProof (MerkleTree.new keccak leaves)
                                           (at_index leaves index) index) |};
           MessageProof.stateTrieWitness := rlp_encode (EthProof.accountProof proof);
           MessageProof.storageTrieWitness := rlp_encode (EthProof.proof storageProof0) |}.
Proof.
  intros Hn Hb Hs Hsafe index leaves. unfold assembleMessageProof.
  rewrite (leaves_of_batch _ _ Hn Hb), (toNumber_safe _ Hsafe).
  fold leaves. fold index.
  rewrite (MerkleTreeFacts.new_ext (hash_Buffer keccak) keccak leaves hash_Buffer_keccak).
  destruct proof as [|accountProof storageProof]; [discriminate Hs|].
  cbn [EthProof.storageProof] in Hs. rewrite Hs. reflexivity.
Qed.

(** C2 (Merkle tree and inclusion proof).  Let the batch that covers the
    message hold [n >= 1] state roots, the hex strings of [rootsBytes], and
    let [k = ceil(log2 n)].  When [eth_getProof] answers and the header
    lookup finds the batch, [_getMessageProof] returns a proof [p] such
    that: the tree is built over [2^k] leaves, leaf [i] being keccak of
    state root [i] for [i < n] and keccak of 32 zero bytes from [n] on; its
    root is the root of the complete binary tree in which every internal
    node is keccak(left ++ right); [p]'s index is [height -
    prevTotalElements], its state root is [stateRoots[index]], its header
    is the batch; and folding leaf [index] with [p]'s siblings, bottom-up,
    gives that root. *)
Theorem merkle_inclusion_proof (message : SentMessage.t) (m : Mem) (slot : string)
    (proof : EthProof.t) (batch : StateBatchHeader.t) (rootsBytes : list (list byte)) :
  let o := Service.options (this m) in
  let stateRoots := StateBatchHeader.stateRoots batch in
  let n := length stateRoots in
  let index := SentMessage.height message - StateBatchHeader.prevTotalElements batch in
  let k := Nat.log2_up n in
  let leaves := map keccak (rootsBytes ++ repeat (Hex.zeros 32) (2 ^ k - n)) in
  messageSlot keccak (SentMessage.calldata message) (Options.l2CrossDomainMessengerAddress o)
  = inr slot ->
  l2_eth_getProof (world (clock m)) (Options.l2ToL1MessagePasserAddress o) [slot]
                  (SentMessage.height message + Service.blockOffset (this m))
  = Resolve (Some proof) ->
  EthProof.storageProof proof <> [] ->
  result_of (getStateBatchHeader (SentMessage.height message)
               {| this := this m; clock := S (clock m) |})
  = Return (Some batch) ->
  (1 <= n)%nat ->
  Forall2 (fun r b => Hex.arrayify r = Some b) stateRoots rootsBytes ->
  0 <= index < Z.of_nat n ->
  exists (p : MessageProof.t) (leaf : Buffer) (root : string),
    result_of (getMessageProof message m) = Return (Some p)
    /\ length leaves = (2 ^ k)%nat
    /\ MerkleTree.getRoot (MerkleTree.new (hash_Buffer keccak) leaves)
       = MerkleTree.complete_root keccak k leaves
    /\ StateRootProof.index (MessageProof.stateRootProof p) = index
    /\ MessageProof.stateRoot p = Some root
    /\ nth_error stateRoots (Z.to_nat index) = Some root
    /\ MessageProof.stateRootBatchHeader p = batch
    /\ nth_error leaves (Z.to_nat index) = Some leaf
    /\ MerkleTree.fold_siblings keccak (Z.to_nat index) leaf
         (StateRootProof.siblings (MessageProof.stateRootProof p))
       = MerkleTree.complete_root keccak k leaves.
Proof.
  intros o stateRoots n index k leaves Hslot Hproof Hstorage Hbatch Hn Hbytes Hindex.
  destruct (EthProof.storageProof proof) as [|storageProof0 others] eqn:Hs; [congruence|].
  assert (Hsafe : Z.abs (StateBatchHeader.prevTotalElements batch) < 2 ^ 53).
  { destruct (getStateBatchHeader_some decodeAppendStateBatch world _ _ _ Hbatch)
      as (events & event & roots & _ & _ & _ & [Hp _] & ->). exact Hp. }
  pose proof (assembleMessageProof_spec message proof batch rootsBytes _ _ Hn Hbytes Hs Hsafe)
    as Hassemble.
  cbv zeta in Hassemble. fold stateRoots n k leaves index in Hassemble.
  assert (Hlen : length leaves = (2 ^ k)%nat).
  { unfold leaves. rewrite length_map, length_app, repeat_length.
    rewrite <- (Forall2_length Hbytes). fold stateRoots n.
    pose proof (le_pow2_ceil_log2 n Hn). fold k in H. lia. }
  assert (Hi : (Z.to_nat index < 2 ^ k)%nat).
  { pose proof (le_pow2_ceil_log2 n Hn). fold k in H. lia. }
  destruct (MerkleTreeFacts.getProof_fold keccak k leaves (at_index leaves index)
              (Z.to_nat index) Hlen Hi) as (leaf & Hleaf & Hfold).
  rewrite Z2Nat.id in Hfold by lia.
  destruct (nth_error stateRoots (Z.to_nat index)) as [root|] eqn:Hroot.
  2:{ apply nth_error_None in Hroot. fold n in Hroot. lia. }
  eexists _, leaf, root.
  assert (Hfirst :
    bind (rpc world
            (EthGetProof (Options.l2ToL1MessagePasserAddress o) [slot]
               (SentMessage.height message + Service.blockOffset (this m)))
            (fun c => l2_eth_getProof c (Options.l2ToL1MessagePasserAddress o) [slot]
                        (SentMessage.height message + Service.blockOffset (this m))))
         (fun proof0 => match proof0 with
                        | Some p => ret (Some p)
                        | None => throw (ThrownString "No proof found")
                        end) m
    = (Return (Some proof), {| this := this m; clock := S (clock m) |},
       [Call (clock m)
          (EthGetProof (Options.l2ToL1MessagePasserAddress o) [slot]
             (SentMessage.height message + Service.blockOffset (this m)))])).
  { unfold bind, rpc. rewrite Hproof. reflexivity. }
  pose proof (triple_eta (getStateBatchHeader (SentMessage.height message)
                            {| this := this m; clock := S (clock m) |})) as Hheader.
  rewrite Hbatch in Hheader.
  assert (Hsecond :
    bind (getStateBatchHeader (SentMessage.height message))
         (fun batch0 => match batch0 with
                        | Some b => ret (Some b)
                        | None => throw (ThrownString "No events found in state batch header")
                        end) {| this := this m; clock := S (clock m) |}
    = (Return (Some batch),
       state_of (getStateBatchHeader (SentMessage.height message)
                   {| this := this m; clock := S (clock m) |}),
       trace_of (getStateBatchHeader (SentMessage.height message)
                   {| this := this m; clock := S (clock m) |}))).
  { rewrite (bind_of_return _ _ _ _ _ _ Hheader). cbn. rewrite app_nil_r. reflexivity. }
  split.
  { unfold _getMessageProof. rewrite !bind_gets. fold o. rewrite Hslot, bind_lift_inr.
    rewrite (bind_of_return _ _ _ _ _ _ (try_catch_of_return _ _ _ _ _ _ Hfirst)).
    cbn [result_of fst].
    rewrite (bind_of_return _ _ _ _ _ _ (try_catch_of_return _ _ _ _ _ _ Hsecond)).
    cbn [result_of fst].
    rewrite Hassemble, bind_lift_inr. reflexivity. }
  cbn [MessageProof.stateRootProof MessageProof.stateRoot MessageProof.stateRootBatchHeader
       StateRootProof.index StateRootProof.siblings].
  rewrite <- (MerkleTreeFacts.new_root keccak k leaves Hlen) at 2.
  rewrite (MerkleTreeFacts.new_ext (hash_Buffer keccak) keccak leaves hash_Buffer_keccak).
  rewrite (MerkleTreeFacts.new_root keccak k leaves Hlen) at 1.
  assert (Hat : at_index stateRoots index = Some root).
  { unfold at_index. replace (index <? 0) with false by (symmetry; apply Z.ltb_ge; lia).
    exact Hroot. }
  repeat split; auto.
Qed.

(** *** Lookup of the state batch header *)

Lemma covers_iff (height : Z) (event : StateBatchAppended.t) :
  covers height event = true
  <-> StateBatchAppended._prevTotalElements event <= height
      < StateBatchAppended._prevTotalElements event + StateBatchAppended._batchSize event.
Proof.
  unfold covers. rewrite andb_true_iff, Z.leb_le, Z.gtb_lt. tauto.
Qed.

Lemma find_none_covers (height : Z) (events : list StateBatchAppended.t) :
  (forall event, In event events -> covers height event <> true) ->
  find (covers height) events = None.
Proof.
  intros H. induction events as [|e rest IH]; cbn; [reflexivity|].
  destruct (covers height e) eqn:E.
  - exfalso. apply (H e); [left; reflexivity | exact E].
  - apply IH. intros event Hin. apply H. right. exact Hin.
Qed.

Lemma find_unique_covers (height : Z) (events : list StateBatchAppended.t)
    (event : StateBatchAppended.t) :
  In event events -> covers height event = true ->
  (forall other, In other events -> covers height other = true -> other = event) ->
  find (covers height) events = Some event.
Proof.
  intros Hin Hc Hu. induction events as [|e rest IH]; [destruct Hin|]. cbn.
  destruct (covers height e) eqn:E.
  - f_equal. apply Hu; [left; reflexivity | exact E].
  - destruct Hin as [->|Hin]; [congruence|].
    apply IH; [exact Hin|]. intros other Ho. apply Hu. right. exact Ho.
Qed.

(** On a list of safe events the callback never throws, so the lookup is
    [find] with the range test. *)
Lemma find_throwing_covers (height : Z) (events : list StateBatchAppended.t) :
  Forall safe_event events ->
  find_throwing (covers_callback height) events = inr (find (covers height) events).
Proof.
  intros Hsafe. apply find_throwing_find.
  apply Forall_impl with (2 := Hsafe). intros event [Hp Hs].
  apply covers_callback_safe; assumption.
Qed.

(** The callback throws on an event whose [_prevTotalElements] is not a
    safe integer, and on one that starts at or below the height and whose
    [_batchSize] is not a safe integer. *)
Lemma covers_callback_overflow (height : Z) (event : StateBatchAppended.t) :
  2 ^ 53 <= Z.abs (StateBatchAppended._prevTotalElements event)
  \/ (StateBatchAppended._prevTotalElements event <= height
      /\ 2 ^ 53 <= Z.abs (StateBatchAppended._batchSize event)) ->
  covers_callback height event = inl (NumericFault "overflow").
Proof.
  unfold covers_callback, toNumber.
  destruct (Z.abs (StateBatchAppended._prevTotalElements event) <? 2 ^ 53) eqn:Hp;
    [|reflexivity].
  apply Z.ltb_lt in Hp. intros [H|[Hle Hs]]; [lia|].
  apply Z.leb_le in Hle. rewrite Hle.
  destruct (Z.abs (StateBatchAppended._batchSize event) <? 2 ^ 53) eqn:Hs';
    [apply Z.ltb_lt in Hs'; lia | reflexivity].
Qed.

(** [find] stops at the first element on which the callback throws. *)
Lemma find_throwing_throw {A} (f : A -> Err + bool) (before after : list A) (x : A) (e : Err) :
  Forall (fun y => f y = inr false) before ->
  f x = inl e ->
  find_throwing f (before ++ x :: after) = inl e.
Proof.
  intros Hb Hx. induction Hb as [|y rest Hy _ IH]; cbn.
  - rewrite Hx. reflexivity.
  - rewrite Hy. exact IH.
Qed.

(** C6 (state batch header lookup).  [_getStateBatchHeader] reads the
    [StateBatchAppended] events and converts their [_prevTotalElements] and
    [_batchSize] with [toNumber()].  For a height that is a safe integer
    and events whose two numbers are safe integers: when no event's range
    [prevTotalElements, prevTotalElements + batchSize) contains the height,
    it returns none after that single query; when exactly one event's range
    contains the height, it fetches the transaction that emitted this
    event, decodes the state roots from its [appendStateBatch] calldata,
    and returns the header made of the event's fields and these state
    roots. *)
Theorem getStateBatchHeader_lookup (height : Z) (m : Mem)
    (events : list StateBatchAppended.t) :
  scc_StateBatchAppended (world (clock m)) = Resolve events ->
  Z.abs height < 2 ^ 53 ->
  (Forall safe_event events ->
   (forall event, In event events ->
      ~ (StateBatchAppended._prevTotalElements event <= height
         < StateBatchAppended._prevTotalElements event + StateBatchAppended._batchSize event)) ->
   getStateBatchHeader height m
   = (Return None, {| this := this m; clock := S (clock m) |},
      [Call (clock m) QueryStateBatchAppended]))
  /\
  (forall (event : StateBatchAppended.t) (tx : Transaction.t) (stateRoots : list string)
          (startElement : Z),
      Forall safe_event events ->
      In event events ->
      StateBatchAppended._prevTotalElements event <= height
      < StateBatchAppended._prevTotalElements event + StateBatchAppended._batchSize event ->
      (forall other, In other events ->
         StateBatchAppended._prevTotalElements other <= height
         < StateBatchAppended._prevTotalElements other + StateBatchAppended._batchSize other ->
         other = event) ->
      l1_getTransaction (world (S (clock m))) (StateBatchAppended.transactionHash event)
      = Resolve (Some tx) ->
      decodeAppendStateBatch (Transaction.data tx) = Some (stateRoots, startElement) ->
      getStateBatchHeader height m
      = (Return (Some {| StateBatchHeader.batchIndex := StateBatchAppended._batchIndex event;
                         StateBatchHeader.batchRoot := StateBatchAppended._batchRoot event;
                         StateBatchHeader.batchSize := StateBatchAppended._batchSize event;
                         StateBatchHeader.prevTotalElements :=
                           StateBatchAppended._prevTotalElements event;
                         StateBatchHeader.extraData := StateBatchAppended._extraData event;
                         StateBatchHeader.stateRoots := stateRoots |}),
         {| this := this m; clock := S (S (clock m)) |},
         [Call (clock m) QueryStateBatchAppended;
          Call (S (clock m)) (GetTransaction (StateBatchAppended.transactionHash event))])).
Proof.
  intros Hevents Hheight. split.
  - intros Hsafe Hnone. unfold _getStateBatchHeader, bind, rpc, lift. rewrite Hevents.
    rewrite (find_throwing_covers height events Hsafe).
    rewrite find_none_covers; [reflexivity|].
    intros event Hin Hc. apply (Hnone event Hin). apply covers_iff. exact Hc.
  - intros event tx stateRoots startElement Hsafe Hin Hc Hu Htx Hdecode.
    unfold _getStateBatchHeader, bind, rpc, lift. rewrite Hevents.
    rewrite (find_throwing_covers height events Hsafe).
    rewrite (find_unique_covers height events event Hin).
    + cbn. rewrite Htx. cbn. rewrite Hdecode. reflexivity.
    + apply covers_iff. exact Hc.
    + intros other Ho Hco. apply Hu; [exact Ho|]. apply covers_iff. exact Hco.
Qed.

(** Outside the bound the lookup can fail.  When the events that come
    first are safe and do not contain the height, and the next one has a
    [_prevTotalElements] of magnitude 2^53 or more (or starts at or below
    the height with such a [_batchSize]), the conversion throws inside the
    callback of [find] and the lookup is rejected after the single query,
    whatever events follow. *)
Lemma getStateBatchHeader_overflow (height : Z) (m : Mem)
    (before after : list StateBatchAppended.t) (event : StateBatchAppended.t) :
  scc_StateBatchAppended (world (clock m)) = Resolve (before ++ event :: after) ->
  Forall safe_event before ->
  (forall other, In other before ->
     ~ (StateBatchAppended._prevTotalElements other <= height
        < StateBatchAppended._prevTotalElements other + StateBatchAppended._batchSize other)) ->
  2 ^ 53 <= Z.abs (StateBatchAppended._prevTotalElements event)
  \/ (StateBatchAppended._prevTotalElements event <= height
      /\ 2 ^ 53 <= Z.abs (StateBatchAppended._batchSize event)) ->
  getStateBatchHeader height m
  = (Throw (NumericFault "overflow"), {| this := this m; clock := S (clock m) |},
     [Call (clock m) QueryStateBatchAppended]).
Proof.
  intros Hevents Hsafe Hnone Hbad.
  unfold _getStateBatchHeader, bind, rpc, lift. rewrite Hevents.
  rewrite (find_throwing_throw (covers_callback height) before after event
             (NumericFault "overflow")); [reflexivity| |].
  - apply Forall_forall. intros other Hin.
    destruct (proj1 (Forall_forall _ _) Hsafe other Hin) as [Hp Hs].
    rewrite (covers_callback_safe height other Hp Hs). f_equal.
    destruct (covers height other) eqn:Hc; [|reflexivity].
    exfalso. apply (Hnone other Hin). apply covers_iff. exact Hc.
  - apply covers_callback_overflow. exact Hbad.
Qed.

(** *** Scanning of sent messages *)


Lemma toSentMessage_all (blockOffset : Z) (events : list SentMessageEvent.t) :
  Forall (fun event => decodeRelayMessage (SentMessageEvent.message event) <> None
                       /\ Hex.arrayify (SentMessageEvent.message event) <> None) events ->
  exists messages,
    map_throwing (toSentMessage keccak decodeRelayMessage blockOffset) events = inr messages
    /\ Forall2 (decoded_as blockOffset) events messages.
Proof.
  induction 1 as [|event rest [Hd Ha] _ (messages & Hm & Hall)]; cbn.
  - exists []. split; [reflexivity | constructor].
  - unfold toSentMessage at 1, keccak256.
    destruct (decodeRelayMessage (SentMessageEvent.message event)) as [args|] eqn:Ed;
      [|congruence].
    destruct (Hex.arrayify (SentMessageEvent.message event)) as [payload|] eqn:Ea;
      [|congruence].
    rewrite Hm. eexists. split; [reflexivity|].
    constructor; [|exact Hall].
    exists args, payload. cbn. repeat split; assumption.
Qed.

(** C7 (message scanning).  [_getSentMessages] makes one query for the
    [SentMessage] logs between blocks [startHeight + blockOffset] and
    [endHeight + blockOffset]; when every payload in the answer is
    [relayMessage] calldata, it returns, in the order of the logs, one
    record per log with the decoded target, sender, data and nonce, the
    payload as calldata, keccak of the payload as hash, and
    [blockNumber - blockOffset] as height. *)
Theorem getSentMessages_scan (startHeight endHeight : Z) (m : Mem)
    (events : list SentMessageEvent.t) :
  let blockOffset := Service.blockOffset (this m) in
  l2xdm_SentMessage (world (clock m)) (startHeight + blockOffset) (endHeight + blockOffset)
  = Resolve events ->
  Forall (fun event => decodeRelayMessage (SentMessageEvent.message event) <> None
                       /\ Hex.arrayify (SentMessageEvent.message event) <> None) events ->
  exists messages : list SentMessage.t,
    getSentMessages startHeight endHeight m
    = (Return messages, {| this := this m; clock := S (clock m) |},
       [Call (clock m)
             (QuerySentMessage (startHeight + blockOffset) (endHeight + blockOffset))])
    /\ Forall2 (decoded_as blockOffset) events messages.
Proof.
  intros blockOffset Hq Hall.
  destruct (toSentMessage_all blockOffset events Hall) as (messages & Hm & Hd).
  exists messages. split; [|exact Hd].
  unfold _getSentMessages. rewrite bind_gets. fold blockOffset.
  unfold bind, rpc. rewrite Hq, Hm. reflexivity.
Qed.

(** *** The cursor *)

Lemma getStateBatchHeader_keeps (height : Z) : keeps (getStateBatchHeader height).
Proof.
  unfold _getStateBatchHeader.
  keeps_step; [keeps_step|].
  keeps_step; [keeps_step|].
  destruct a0 as [event|]; [|keeps_step].
  keeps_step; [keeps_step|].
  keeps_step; [destruct a0; keeps_step|].
  keeps_step; [destruct (decodeAppendStateBatch a1); keeps_step|].
  keeps_step.
Qed.

Lemma isTransactionFinalized_keeps (height : Z) : keeps (isTransactionFinalized height).
Proof.
  unfold _isTransactionFinalized.
  keeps_step; [apply getStateBatchHeader_keeps|].
  destruct a as [batch|]; [|keeps_step].
  keeps_step; keeps_step.
Qed.

Lemma sanityChecks_keeps : keeps (_sanityChecks world).
Proof. unfold _sanityChecks. keeps_auto. Qed.

(** What [_init] leaves in the service object, whether or not the sanity
    checks pass. *)
Lemma init_state (m0 : Mem) :
  let o := Service.options (this m0) in
  this (state_of (_init world m0))
  = {| Service.options := o;
       Service.pollingInterval := or_default (Options.pollingInterval o) 5000;
       Service.lastFinalizedTxHeight := or_default (Options.l2ChainStartingHeight o) 0;
       Service.nextUnfinalizedTxHeight := or_default (Options.l2ChainStartingHeight o) 0;
       Service.blockOffset := or_default (Options.blockOffset o) 0 |}.
Proof.
  intros o. unfold _init. rewrite bind_modify.
  rewrite keeps_try_catch.
  - reflexivity.
  - apply sanityChecks_keeps.
  - intros e. keeps_step; keeps_step.
Qed.

Lemma start_while_running (ticks budget : nat) (m : Mem) :
  start_ ticks budget m
  = (result_of (while_running_ ticks budget m), state_of (while_running_ ticks budget m),
     Log status "Service has started." :: trace_of (while_running_ ticks budget m)).
Proof. unfold _start. apply bind_emit. Qed.

(** Running [n + k] passes is running [n] passes and then, unless the
    loop has been left, [k] more. *)
Lemma while_running_add (n k budget : nat) (m : Mem) :
  state_of (while_running_ (n + k) budget m)
  = match result_of (while_running_ n budget m) with
    | Return _ => state_of (while_running_ k budget (state_of (while_running_ n budget m)))
    | _ => state_of (while_running_ n budget m)
    end.
Proof.
  revert m. induction n as [|n IH]; intros m; [reflexivity|].
  cbn [Nat.add while_running].
  rewrite !state_bind, result_bind.
  destruct (result_of (tick_ budget m)); [apply IH | reflexivity | reflexivity].
Qed.

(** C4 (cursor monotonicity).  [_init] sets both cursor fields to the
    configured starting height (0 when it is not given).  From there, after
    any number [n] of passes of the relay loop, and wherever the inner loop
    stands (any [budget]), [lastFinalizedTxHeight <=
    nextUnfinalizedTxHeight]; the cursor is never below the starting
    height, and [k] further passes never move it back. *)
Theorem cursor_monotonicity (m0 : Mem) (n k budget : nat) :
  let startingHeight := or_default (Options.l2ChainStartingHeight (Service.options (this m0))) 0 in
  let m1 := state_of (_init world m0) in
  let after := fun j => this (state_of (start_ j budget m1)) in
  Service.lastFinalizedTxHeight (this m1) = startingHeight
  /\ Service.nextUnfinalizedTxHeight (this m1) = startingHeight
  /\ Service.lastFinalizedTxHeight (after n) <= Service.nextUnfinalizedTxHeight (after n)
  /\ startingHeight <= Service.nextUnfinalizedTxHeight (after n)
  /\ Service.nextUnfinalizedTxHeight (after n) <= Service.nextUnfinalizedTxHeight (after (n + k)%nat).
Proof.
  intros startingHeight m1 after.
  pose proof (init_state m0) as Hinit. cbv zeta in Hinit. fold m1 in Hinit.
  assert (Hinv : Inv (this m1)) by (rewrite Hinit; unfold Inv; cbn; lia).
  assert (Hlast : Service.lastFinalizedTxHeight (this m1) = startingHeight)
    by (rewrite Hinit; reflexivity).
  assert (Hnext : Service.nextUnfinalizedTxHeight (this m1) = startingHeight)
    by (rewrite Hinit; reflexivity).
  unfold after. rewrite !start_while_running. cbn [state_of fst snd].
  destruct (while_running_triple keccak decodeAppendStateBatch decodeRelayMessage rlp_encode
              world n budget m1 Hinv I) as ((_ & _ & _ & _ & Hn) & Hi & _ & _).
  repeat split; try assumption.
  - lia.
  - rewrite while_running_add.
    destruct (result_of (while_running_ n budget m1)); try lia.
    destruct (while_running_triple keccak decodeAppendStateBatch decodeRelayMessage rlp_encode
                world k budget _ Hi I) as ((_ & _ & _ & _ & Hk) & _).
    exact Hk.
Qed.

(** C10 (falsy options collapse to the defaults).  After [_init], a falsy
    option ([undefined], [NaN] or [0]) has been replaced by its default:
    5000 for [pollingInterval], 0 for [l2ChainStartingHeight] and
    [blockOffset]; any other number is kept.  Hence the interval in use is
    never 0, and every sleep of the relay loop lasts that non-zero
    interval. *)
Theorem falsy_options_default (m0 : Mem) (ticks budget : nat) :
  let o := Service.options (this m0) in
  let m1 := state_of (_init world m0) in
  (falsy (Options.pollingInterval o) = true -> Service.pollingInterval (this m1) = 5000)
  /\ (forall z, Options.pollingInterval o = Num z -> z <> 0 ->
        Service.pollingInterval (this m1) = z)
  /\ (falsy (Options.l2ChainStartingHeight o) = true ->
        Service.lastFinalizedTxHeight (this m1) = 0
        /\ Service.nextUnfinalizedTxHeight (this m1) = 0)
  /\ (falsy (Options.blockOffset o) = true -> Service.blockOffset (this m1) = 0)
  /\ Service.pollingInterval (this m1) <> 0
  /\ Forall (fun a => match a with
                      | Sleep ms => ms = Service.pollingInterval (this m1) /\ ms <> 0
                      | _ => True
                      end)
            (trace_of (start_ ticks budget m1)).
Proof.
  intros o m1.
  pose proof (init_state m0) as Hinit. cbv zeta in Hinit. fold m1 o in Hinit.
  assert (Hnz : Service.pollingInterval (this m1) <> 0).
  { rewrite Hinit. cbn. destruct (Options.pollingInterval o) as [| |z]; cbn; try lia.
    destruct (z =? 0) eqn:E; [lia|]. apply Z.eqb_neq. exact E. }
  assert (Hinv : Inv (this m1)) by (rewrite Hinit; unfold Inv; cbn; lia).
  split; [|split; [|split; [|split; [|split]]]].
  - rewrite Hinit. cbn. destruct (Options.pollingInterval o) as [| |z]; cbn; try reflexivity.
    intros ->. reflexivity.
  - intros z Hz Hne. rewrite Hinit. cbn. rewrite Hz. cbn.
    apply Z.eqb_neq in Hne. rewrite Hne. reflexivity.
  - rewrite Hinit. cbn.
    destruct (Options.l2ChainStartingHeight o) as [| |z]; cbn; try (split; reflexivity).
    intros ->. split; reflexivity.
  - rewrite Hinit. cbn. destruct (Options.blockOffset o) as [| |z]; cbn; try reflexivity.
    intros ->. reflexivity.
  - exact Hnz.
  - rewrite start_while_running. cbn [trace_of snd].
    apply Forall_cons; [exact I|].
    destruct (while_running_triple keccak decodeAppendStateBatch decodeRelayMessage rlp_encode
                world ticks budget m1 Hinv I) as (_ & _ & Ht & _).
    eapply Forall_impl; [|exact Ht].
    intros [| | |ms|n c]; cbn; auto.
    intros ->. split; [reflexivity | exact Hnz].
Qed.

(** *** Advancing the cursor *)

Lemma of_result {A} (x : Result A * Mem * list Action) (r : Result A) :
  result_of x = r -> x = (r, state_of x, trace_of x).
Proof. intros <-. apply triple_eta. Qed.

Lemma getSentMessages_keeps (startHeight endHeight : Z) :
  keeps (getSentMessages startHeight endHeight).
Proof. unfold _getSentMessages. keeps_auto. Qed.

Lemma getMessageProof_keeps (message : SentMessage.t) : keeps (getMessageProof message).
Proof.
  unfold _getMessageProof. keeps_auto; apply getStateBatchHeader_keeps.
Qed.

Lemma relay_keeps (message : SentMessage.t) : keeps (relay_ message).
Proof.
  unfold relay, _wasMessageRelayed, _relayMessageToL1. keeps_auto;
  apply getMessageProof_keeps.
Qed.

(** One round of the inner loop whose check succeeds: the header of the
    current height is fetched and the loop goes on from a cursor moved by
    exactly the size of that batch. *)
Lemma while_finalized_round (m : Mem) (budget : nat) (h : StateBatchHeader.t) :
  let next := Service.nextUnfinalizedTxHeight (this m) in
  let checked := isTransactionFinalized next m in
  let fetched := getStateBatchHeader next (state_of checked) in
  result_of checked = Return true ->
  result_of fetched = Return (Some h) ->
  let m' := {| this := set_nextUnfinalizedTxHeight (next + StateBatchHeader.batchSize h) (this m);
               clock := clock (state_of fetched) |} in
  while_finalized_ (S budget) m
  = (result_of (while_finalized_ budget m'), state_of (while_finalized_ budget m'),
     trace_of checked
     ++ trace_of fetched
     ++ LogN info "Found a batch with ${size} finalized transaction(s), checking for more..."
             (StateBatchHeader.batchSize h)
        :: trace_of (while_finalized_ budget m')).
Proof.
  intros next checked fetched Hc Hf m'.
  cbn [while_finalized]. rewrite bind_gets. fold next.
  rewrite (bind_of_return _ _ _ _ _ _ (of_result _ _ Hc)). fold checked.
  rewrite bind_gets.
  assert (Hk1 : this (state_of checked) = this m) by apply isTransactionFinalized_keeps.
  rewrite Hk1. fold next.
  rewrite (bind_of_return _ _ _ _ _ _ (of_result _ _ Hf)). fold fetched.
  assert (Hsize : toNumber (StateBatchHeader.batchSize h) = inr (StateBatchHeader.batchSize h)).
  { destruct (getStateBatchHeader_some decodeAppendStateBatch world _ _ _ Hf)
      as (events & event & roots & _ & _ & _ & [_ Hs] & ->).
    apply toNumber_safe. exact Hs. }
  rewrite Hsize, bind_lift_inr, bind_emit, bind_modify.
  assert (Hk2 : this (state_of fetched) = this m).
  { unfold fetched. rewrite getStateBatchHeader_keeps. exact Hk1. }
  rewrite Hk2. fold next. fold m'.
  cbn [result_of state_of trace_of fst snd]. reflexivity.
Qed.

(** One round whose check fails: the loop ends and the cursor stays. *)
Lemma while_finalized_exit (m : Mem) (budget : nat) :
  let next := Service.nextUnfinalizedTxHeight (this m) in
  result_of (isTransactionFinalized next m) = Return false ->
  result_of (while_finalized_ (S budget) m) = Return tt
  /\ this (state_of (while_finalized_ (S budget) m)) = this m.
Proof.
  intros next Hc. cbn [while_finalized]. rewrite bind_gets. fold next.
  rewrite (bind_of_return _ _ _ _ _ _ (of_result _ _ Hc)).
  cbn [result_of state_of fst snd ret]. split; [reflexivity|].
  apply isTransactionFinalized_keeps.
Qed.


Lemma state_bind_keeps {A B} (c : M A) (k : A -> M B) (m : Mem) :
  (forall a, keeps (k a)) -> this (state_of (bind c k m)) = this (state_of (c m)).
Proof.
  intros Hk. rewrite state_bind. destruct (result_of (c m)); [apply Hk|..]; reflexivity.
Qed.

Lemma tick_cursor (budget : nat) (m : Mem) :
  this (state_of (tick_ budget m)) = this (state_of (advance budget m)).
Proof.
  unfold tick, advance. rewrite !bind_gets, !bind_emit. cbn [state_of fst snd].
  rewrite !bind_gets.
  rewrite (state_bind (isTransactionFinalized _)).
  rewrite (state_bind (isTransactionFinalized _)).
  destruct (result_of (isTransactionFinalized _ m)) as [[|]| |]; cbn [negb]; try reflexivity.
  rewrite !bind_modify.
  apply state_bind_keeps. intros u.
  keeps_auto; first [apply getSentMessages_keeps | apply relay_keeps].
Qed.

(** *** Where later passes scan *)


Lemma tick_unfold (budget : nat) :
  tick_ budget
  = (pollingInterval <- gets Service.pollingInterval ;;
     emit (Sleep pollingInterval) ;;
     emit (Log info "Checking for newly finalized transactions...") ;;
     next <- gets Service.nextUnfinalizedTxHeight ;;
     finalized <- isTransactionFinalized next ;;
     if negb finalized
     then emit (LogN info "Didn't find any newly finalized transactions. Trying again in ${} seconds..."
                     (pollingInterval / 1000))
     else
       modify (fun s => set_lastFinalizedTxHeight (Service.nextUnfinalizedTxHeight s) s) ;;
       finish_tick pollingInterval budget).
Proof. reflexivity. Qed.

Lemma finish_tick_triple (pollingInterval : Z) (budget : nat) :
  triple LoopAction (fun _ => True) (finish_tick pollingInterval budget) (fun _ _ => True).
Proof.
  unfold finish_tick.
  eapply (triple_bind _ LoopAction_antitone _ (fun _ _ => True)).
  { eapply triple_weaken; [|apply while_finalized_triple].
    intros s a H. apply Relay_Loop, Lookup_Relay, H. }
  intros u.
  eapply (triple_bind _ LoopAction_antitone _
            (fun l s => l = Service.lastFinalizedTxHeight s)); [apply triple_gets; auto|].
  intros l.
  eapply (triple_bind _ LoopAction_antitone _
            (fun _ s => l = Service.lastFinalizedTxHeight s)); [apply triple_gets; auto|].
  intros n.
  eapply (triple_bind _ LoopAction_antitone _
            (fun _ s => l = Service.lastFinalizedTxHeight s)).
  { apply triple_emit; [intros; exact I | auto]. }
  intros u0.
  eapply (triple_bind _ LoopAction_antitone _ (fun _ _ => True)).
  { eapply triple_conseq; [apply getSentMessages_triple | | auto].
    intros s ->. cbn. lia. }
  intros messages.
  eapply (triple_bind _ LoopAction_antitone _ (fun _ _ => True)).
  { destruct (length messages =? 0)%nat;
      [apply triple_emit; [intros; exact I | auto] | apply triple_ret; auto]. }
  intros u1.
  apply (triple_for_of _ LoopAction_antitone (fun _ => True)).
  intros message. eapply triple_weaken; [exact Relay_Loop | apply relay_triple].
Qed.


Lemma getStateBatchHeader_advance (height : Z) :
  emits AdvanceAction (getStateBatchHeader height).
Proof.
  eapply emits_weaken; [exact HeaderAction_Advance | apply getStateBatchHeader_emits].
Qed.

Lemma isTransactionFinalized_emits (height : Z) :
  emits AdvanceAction (isTransactionFinalized height).
Proof.
  unfold _isTransactionFinalized.
  emits_auto ltac:(apply getStateBatchHeader_advance).
Qed.

Lemma while_finalized_emits (budget : nat) : emits AdvanceAction (while_finalized_ budget).
Proof.
  induction budget as [|n IH]; cbn [while_finalized]; [emits_step|].
  emits_auto ltac:(first [ apply getStateBatchHeader_advance
                         | apply isTransactionFinalized_emits
                         | exact IH ]).
Qed.


(** Every scan of a pass starts at the block of the cursor the pass began with. *)
Lemma tick_scans (budget : nat) (m : Mem) :
  Forall (ScansFrom (Service.nextUnfinalizedTxHeight (this m) + Service.blockOffset (this m)))
         (trace_of (tick_ budget m)).
Proof.
  rewrite tick_unfold. rewrite bind_gets, !bind_emit. cbn [trace_of snd].
  apply Forall_cons; [exact I|]. apply Forall_cons; [exact I|].
  rewrite bind_gets, trace_bind. apply Forall_app. split.
  { eapply Forall_impl; [apply Advance_ScansFrom | apply isTransactionFinalized_emits]. }
  pose proof (isTransactionFinalized_keeps (Service.nextUnfinalizedTxHeight (this m)) m) as Hk.
  destruct (result_of (isTransactionFinalized _ m)) as [[|]| |]; cbn [negb];
    try apply Forall_nil.
  2:{ apply Forall_cons; [exact I | apply Forall_nil]. }
  rewrite bind_modify.
  set (m1 := state_of (isTransactionFinalized _ m)) in *.
  set (m2 := {| this := set_lastFinalizedTxHeight (Service.nextUnfinalizedTxHeight (this m1))
                          (this m1);
                clock := clock m1 |}).
  assert (Hinv : Inv (this m2)) by (unfold Inv, m2; cbn; lia).
  destruct (finish_tick_triple (Service.pollingInterval (this m)) budget m2 Hinv I)
    as (_ & _ & Ht & _).
  eapply Forall_impl; [|exact Ht].
  intros act Ha. apply LoopAction_ScansFrom in Ha.
  replace (Service.lastFinalizedTxHeight (this m2) + Service.blockOffset (this m2))
    with (Service.nextUnfinalizedTxHeight (this m) + Service.blockOffset (this m)) in Ha
    by (unfold m2; cbn; rewrite Hk; reflexivity).
  exact Ha.
Qed.

(** No later pass scans below the cursor. *)
Lemma while_running_scans (ticks budget : nat) (m : Mem) :
  Inv (this m) ->
  Forall (ScansFrom (Service.nextUnfinalizedTxHeight (this m) + Service.blockOffset (this m)))
         (trace_of (while_running_ ticks budget m)).
Proof.
  revert m. induction ticks as [|n IH]; intros m Hinv; cbn [while_running].
  - apply Forall_nil.
  - rewrite trace_bind. apply Forall_app. split; [apply tick_scans|].
    destruct (tick_triple keccak decodeAppendStateBatch decodeRelayMessage rlp_encode world
                budget m Hinv I) as ((_ & _ & Hoff & _ & Hnext) & Hinv' & _ & _).
    destruct (result_of (tick_ budget m)); try apply Forall_nil.
    eapply Forall_impl; [|apply (IH _ Hinv')].
    intros act. apply ScansFrom_le. rewrite Hoff. lia.
Qed.

(** *** A payload that does not decode *)

Lemma emits_In {A} (P : Action -> Prop) (c : M A) (m : Mem) (a : Action) :
  emits P c -> In a (trace_of (c m)) -> P a.
Proof. intros H Hin. exact (proj1 (Forall_forall _ _) (H m) a Hin). Qed.

Lemma relay_emits (message : SentMessage.t) (s : Service.t) :
  emits (RelayAction s) (relay_ message).
Proof.
  unfold relay, _wasMessageRelayed, _relayMessageToL1, _getMessageProof.
  emits_auto ltac:(eapply emits_weaken;
                   [ intros act Hact; apply Lookup_Relay;
                     destruct act as [| | | |n c]; [| | | |destruct c]; cbn in *; tauto
                   | apply getStateBatchHeader_emits ]).
Qed.

(** An undecodable payload makes the whole [map] throw. *)
Lemma toSentMessage_throws (blockOffset : Z) (events : list SentMessageEvent.t) :
  Exists (fun event => decodeRelayMessage (SentMessageEvent.message event) = None) events ->
  exists e, map_throwing (toSentMessage keccak decodeRelayMessage blockOffset) events = inl e.
Proof.
  induction 1 as [event rest Hd | event rest _ (e & He)]; cbn.
  - unfold toSentMessage at 1. rewrite Hd. eexists. reflexivity.
  - destruct (toSentMessage keccak decodeRelayMessage blockOffset event) as [e'|msg];
      [eexists; reflexivity|].
    rewrite He. eexists. reflexivity.
Qed.


(** The scan makes exactly one call. *)
Lemma getSentMessages_trace (startHeight endHeight : Z) (m : Mem) :
  trace_of (getSentMessages startHeight endHeight m)
  = [Call (clock m)
          (QuerySentMessage (startHeight + Service.blockOffset (this m))
                            (endHeight + Service.blockOffset (this m)))].
Proof.
  unfold _getSentMessages. rewrite bind_gets. unfold bind, rpc.
  destruct (l2xdm_SentMessage _ _ _) as [events|e]; [|reflexivity].
  destruct (map_throwing _ events); reflexivity.
Qed.

Lemma getSentMessages_result (startHeight endHeight : Z) (m : Mem)
    (events : list SentMessageEvent.t) :
  l2xdm_SentMessage (world (clock m)) (startHeight + Service.blockOffset (this m))
                    (endHeight + Service.blockOffset (this m)) = Resolve events ->
  result_of (getSentMessages startHeight endHeight m)
  = match map_throwing (toSentMessage keccak decodeRelayMessage (Service.blockOffset (this m)))
                       events with
    | inr messages => Return messages
    | inl e => Throw e
    end.
Proof.
  intros H. unfold _getSentMessages. rewrite bind_gets. unfold bind, rpc. rewrite H.
  destruct (map_throwing _ events); reflexivity.
Qed.

(** C9 (scope of a decode failure), as the code has it.  When the scan of
    a pass is answered with a log whose payload is not [relayMessage]
    calldata, the pass throws at that point: the scan is its last action
    and no message of the pass has been looked at (no dedup check, no proof
    request, no relay); the exception leaves the relay loop, so that no
    further pass is made however long the service would have kept running. *)
Theorem decode_failure_ends_loop (m : Mem) (budget instant : nat) (fromBlock toBlock : Z)
    (events : list SentMessageEvent.t) :
  In (Call instant (QuerySentMessage fromBlock toBlock)) (trace_of (tick_ budget m)) ->
  l2xdm_SentMessage (world instant) fromBlock toBlock = Resolve events ->
  Exists (fun event => decodeRelayMessage (SentMessageEvent.message event) = None) events ->
  exists (e : Err) (before : list Action),
    result_of (tick_ budget m) = Throw e
    /\ trace_of (tick_ budget m) = before ++ [Call instant (QuerySentMessage fromBlock toBlock)]
    /\ Forall NotMessageCall before
    /\ forall ticks, while_running_ (S ticks) budget m = tick_ budget m.
Proof.
  intros Hin Hanswer Hbad.
  set (q := Call instant (QuerySentMessage fromBlock toBlock)) in *.
  assert (Hq : ~ AdvanceAction q) by (cbn; tauto).
  enough (Hmain : exists e before,
             result_of (tick_ budget m) = Throw e
             /\ trace_of (tick_ budget m) = before ++ [q]
             /\ Forall NotMessageCall before).
  { destruct Hmain as (e & before & Hr & Ht & Hb). exists e, before.
    repeat split; try assumption.
    intros ticks. cbn [while_running].
    rewrite (bind_of_throw _ _ _ _ _ _ (of_result _ _ Hr)). symmetry. apply of_result. exact Hr. }
  revert Hin. rewrite tick_unfold. rewrite bind_gets, !bind_emit.
  cbn [trace_of result_of fst snd]. rewrite bind_gets.
  set (next := Service.nextUnfinalizedTxHeight (this m)).
  set (pollingInterval := Service.pollingInterval (this m)).
  intros [Hin|[Hin|Hin]]; try discriminate Hin.
  rewrite trace_bind in Hin. rewrite result_bind, trace_bind.
  pose proof (isTransactionFinalized_emits next m) as Ht1.
  apply in_app_or in Hin as [Hin|Hin].
  { exfalso. apply Hq. exact (proj1 (Forall_forall _ _) Ht1 q Hin). }
  destruct (result_of (isTransactionFinalized next m)) as [[|]| |]; cbn [negb] in *;
    try (destruct Hin; fail).
  2:{ destruct Hin as [Hin|[]]. discriminate Hin. }
  set (m1 := state_of (isTransactionFinalized next m)) in *.
  rewrite bind_modify in *.
  set (m2 := {| this := set_lastFinalizedTxHeight (Service.nextUnfinalizedTxHeight (this m1))
                          (this m1);
                clock := clock m1 |}) in *.
  unfold finish_tick in *.
  rewrite trace_bind in Hin. rewrite result_bind, trace_bind.
  pose proof (while_finalized_emits budget m2) as Ht3.
  apply in_app_or in Hin as [Hin|Hin].
  { exfalso. apply Hq. exact (proj1 (Forall_forall _ _) Ht3 q Hin). }
  destruct (result_of (while_finalized_ budget m2)) as [[]| |]; try (destruct Hin; fail).
  set (m3 := state_of (while_finalized_ budget m2)) in *.
  rewrite !bind_gets, bind_emit in *. cbn [trace_of result_of fst snd] in *.
  destruct Hin as [Hin|Hin]; [discriminate Hin|].
  rewrite trace_bind in Hin. rewrite result_bind, trace_bind.
  rewrite getSentMessages_trace in *.
  apply in_app_or in Hin as [[Hin|[]]|Hin].
  - (* the call is the scan of this pass *)
    unfold q in Hin. injection Hin as Hclock Hfrom Hto.
    destruct (toSentMessage_throws (Service.blockOffset (this m3)) events Hbad) as (e & He).
    rewrite (getSentMessages_result _ _ m3 events) by (rewrite Hclock, Hfrom, Hto; exact Hanswer).
    rewrite He. rewrite Hclock, Hfrom, Hto. fold q.
    exists e.
    exists (Sleep pollingInterval
            :: Log info "Checking for newly finalized transactions..."
            :: trace_of (isTransactionFinalized next m)
               ++ trace_of (while_finalized_ budget m2)
               ++ [LogN interesting "Found a total of ${} finalized transaction(s)."
                        (Service.nextUnfinalizedTxHeight (this m3)
                         - Service.lastFinalizedTxHeight (this m3))]).
    split; [reflexivity|]. split.
    + cbn [app]. rewrite <- !app_assoc. cbn [app]. reflexivity.
    + apply Forall_cons; [exact I|]. apply Forall_cons; [exact I|].
      apply Forall_app. split.
      { eapply Forall_impl; [exact Advance_NotMessageCall | exact Ht1]. }
      apply Forall_app. split.
      { eapply Forall_impl; [exact Advance_NotMessageCall | exact Ht3]. }
      apply Forall_cons; [exact I | apply Forall_nil].
  - (* it cannot come from the handling of a message *)
    exfalso.
    destruct (result_of (getSentMessages _ _ m3)) as [messages| |]; try (destruct Hin; fail).
    rewrite trace_bind in Hin. apply in_app_or in Hin as [Hin|Hin].
    + destruct (length messages =? 0)%nat; [destruct Hin as [Hin|[]]; discriminate Hin|].
      destruct Hin.
    + destruct (result_of _) in Hin; try (destruct Hin; fail).
      apply (emits_In _ _ _ _ (emits_for_of _ messages relay_
                                 (fun x => relay_emits x (this m)))) in Hin.
      exact Hin.
Qed.

(** *** A proof that cannot be built *)

(** How the handling of a message ends. *)
Lemma relay_result (message : SentMessage.t) (m : Mem) :
  let m1 := {| this := this m; clock := S (clock m) |} in
  result_of (relay_ message m)
  = match l1xdm_successfulMessages (world (clock m)) (SentMessage.hash message) with
    | Reject e => Throw e
    | Resolve true => Return tt
    | Resolve false =>
        match result_of (getMessageProof message m1) with
        | Return _ => Return tt
        | Throw e => Throw e
        | Running => Running
        end
    end.
Proof.
  intros m1. unfold relay, _wasMessageRelayed. rewrite bind_emit.
  cbn [result_of fst]. rewrite result_bind.
  unfold rpc at 1. cbn [result_of fst].
  destruct (l1xdm_successfulMessages (world (clock m)) (SentMessage.hash message))
    as [[|]|e]; try reflexivity.
  unfold rpc. cbn [state_of fst snd]. fold m1.
  rewrite bind_emit. cbn [result_of fst]. rewrite result_bind.
  destruct (result_of (getMessageProof message m1)) as [proof| |]; try reflexivity.
  rewrite bind_emit. cbn [result_of fst]. rewrite result_try_catch, result_bind.
  unfold _relayMessageToL1, rpc. cbn [result_of fst].
  destruct (l1xdm_relayMessage _ _ _ _ _ _); reflexivity.
Qed.

(** The handling of a message that is not yet relayed and whose proof
    construction returns, with a proof or without one. *)
Lemma relay_run (message : SentMessage.t) (m : Mem) (proof : option MessageProof.t) :
  let m1 := {| this := this m; clock := S (clock m) |} in
  let built := getMessageProof message m1 in
  let instant := clock (state_of built) in
  let answer :=
    l1xdm_relayMessage (world instant) (SentMessage.target message)
                       (SentMessage.sender message) (SentMessage.data message)
                       (SentMessage.nonce message) proof in
  l1xdm_successfulMessages (world (clock m)) (SentMessage.hash message) = Resolve false ->
  result_of built = Return proof ->
  relay_ message m
  = (Return tt, {| this := this m; clock := S instant |},
     [LogN interesting "Found a message sent during transaction: ${message.height}"
           (SentMessage.height message);
      Call (clock m) (SuccessfulMessages (SentMessage.hash message));
      Log interesting "Message not yet relayed. Attempting to generate a proof..."]
     ++ trace_of built
     ++ [Log interesting "Successfully generated a proof. Attempting to relay to Layer 1...";
         Call instant
              (RelayMessage (SentMessage.target message) (SentMessage.sender message)
                            (SentMessage.data message) (SentMessage.nonce message)
                            proof 2000000);
         match answer with
         | Resolve _ => Log success "Message successfully relayed to Layer 1!"
         | Reject e =>
             LogErr "Could not relay message to Layer 1, see error log below: ${err}" e
         end]).
Proof.
  intros m1 built instant answer Hd Hb.
  assert (Hk : this (state_of built) = this m).
  { unfold built. rewrite getMessageProof_keeps. reflexivity. }
  assert (Hq : rpc world (SuccessfulMessages (SentMessage.hash message))
                   (fun c => l1xdm_successfulMessages c (SentMessage.hash message)) m
               = (Return false, m1, [Call (clock m) (SuccessfulMessages (SentMessage.hash message))])).
  { unfold rpc. rewrite Hd. reflexivity. }
  assert (Hfinal :
    try_catch
      (_relayMessageToL1 world message proof ;;
       emit (Log success "Message successfully relayed to Layer 1!"))
      (fun err =>
         emit (LogErr "Could not relay message to Layer 1, see error log below: ${err}" err))
      (state_of built)
    = (Return tt, {| this := this m; clock := S instant |},
       [Call instant
             (RelayMessage (SentMessage.target message) (SentMessage.sender message)
                           (SentMessage.data message) (SentMessage.nonce message)
                           proof 2000000);
        match answer with
        | Resolve _ => Log success "Message successfully relayed to Layer 1!"
        | Reject e =>
            LogErr "Could not relay message to Layer 1, see error log below: ${err}" e
        end])).
  { unfold try_catch, bind, _relayMessageToL1, rpc, emit.
    fold instant. fold answer. rewrite Hk. destruct answer; reflexivity. }
  unfold relay, _wasMessageRelayed. rewrite bind_emit.
  rewrite (bind_of_return _ _ _ _ _ _ Hq).
  rewrite bind_emit.
  rewrite (bind_of_return _ _ _ _ _ _ (of_result _ _ Hb)). fold built.
  rewrite bind_emit, Hfinal.
  clearbody built.
  cbn [result_of state_of trace_of fst snd app]. reflexivity.
Qed.

(** Hex strings all hash. *)
Lemma hash_all (els : list string) :
  Forall (fun el => Hex.arrayify el <> None) els ->
  exists leaves, map_throwing (hash keccak) els = inr leaves.
Proof.
  induction 1 as [|el rest Hel _ (leaves & IH)]; cbn [map_throwing].
  - eexists. reflexivity.
  - rewrite IH. unfold hash, keccak256.
    destruct (Hex.arrayify el) as [bs|]; [|congruence].
    eexists. reflexivity.
Qed.

(** The elements of a batch whose state roots are hex strings all hash. *)
Lemma hash_elements (stateRoots : list string) :
  Forall (fun r => Hex.arrayify r <> None) stateRoots ->
  exists leaves, map_throwing (hash keccak) (elements stateRoots) = inr leaves.
Proof.
  intros Hroots. apply hash_all. unfold elements.
  apply Forall_map, Forall_forall. intros i _.
  destruct (i <? length stateRoots)%nat eqn:Hi.
  - apply Nat.ltb_lt in Hi.
    apply (proj1 (Forall_forall _ _) Hroots). apply nth_In. exact Hi.
  - rewrite arrayify_zero32. discriminate.
Qed.

(** *** The scans of the passes *)

Lemma Advance_no_scan (a : Action) : AdvanceAction a -> is_scan a = false.
Proof.
  destruct a as [| | | |n c]; [| | | |destruct c]; cbn; intros H;
    try reflexivity; destruct H.
Qed.

Lemma Relay_no_scan (s : Service.t) (a : Action) : RelayAction s a -> is_scan a = false.
Proof.
  destruct a as [| | | |n c]; [| | | |destruct c]; cbn; intros H;
    try reflexivity; destruct H.
Qed.

Lemma filter_none {A} (f : A -> bool) (P : A -> Prop) (t : list A) :
  (forall a, P a -> f a = false) -> Forall P t -> filter f t = [].
Proof.
  intros Hf. induction 1 as [|a t Ha _ IH]; [reflexivity|].
  cbn. rewrite (Hf a Ha). exact IH.
Qed.

Lemma set_next_same (s : Service.t) :
  set_nextUnfinalizedTxHeight (Service.nextUnfinalizedTxHeight s) s = s.
Proof. destruct s. reflexivity. Qed.

Lemma keeps_moves_next {A} (c : M A) : keeps c -> moves_next c.
Proof.
  intros Hk m. exists (Service.nextUnfinalizedTxHeight (this m)).
  rewrite Hk, set_next_same. reflexivity.
Qed.

Lemma moves_next_bind {A B} (c : M A) (k : A -> M B) :
  moves_next c -> (forall a, moves_next (k a)) -> moves_next (bind c k).
Proof.
  intros Hc Hk m. rewrite state_bind.
  destruct (Hc m) as [v Hv].
  destruct (result_of (c m)) as [a| |]; try (exists v; exact Hv).
  destruct (Hk a (state_of (c m))) as [w Hw]. exists w. rewrite Hw, Hv. reflexivity.
Qed.

(** The inner loop assigns to [nextUnfinalizedTxHeight] only. *)
Lemma while_finalized_moves_next (budget : nat) : moves_next (while_finalized_ budget).
Proof.
  induction budget as [|n IH]; cbn [while_finalized].
  - apply keeps_moves_next, keeps_running.
  - apply moves_next_bind; [apply keeps_moves_next, keeps_gets|]. intros next.
    apply moves_next_bind; [apply keeps_moves_next, isTransactionFinalized_keeps|].
    intros [|]; [|apply keeps_moves_next, keeps_ret].
    apply moves_next_bind; [apply keeps_moves_next, keeps_gets|]. intros next'.
    apply moves_next_bind; [apply keeps_moves_next, getStateBatchHeader_keeps|].
    intros header.
    apply moves_next_bind; [apply keeps_moves_next; destruct header; keeps_step|].
    intros size.
    apply moves_next_bind; [apply keeps_moves_next, keeps_emit|]. intros u.
    apply moves_next_bind; [|intros u'; exact IH].
    intros m. eexists. reflexivity.
Qed.

(** What follows the inner loop in a pass: the scan is its only scan, it
    asks for the blocks from [lastFinalizedTxHeight + blockOffset] to
    [nextUnfinalizedTxHeight + blockOffset], and the service object is
    left as the inner loop left it. *)
Lemma scan_and_relay (pollingInterval : Z) (m : Mem) :
  let scan_then_relay :=
    (last <- gets Service.lastFinalizedTxHeight ;;
     next <- gets Service.nextUnfinalizedTxHeight ;;
     emit (LogN interesting "Found a total of ${} finalized transaction(s)." (next - last)) ;;
     messages <- getSentMessages last next ;;
     (if (length messages =? 0)%nat
      then emit (LogN interesting "Didn't find any L2->L1 messages. Trying again in ${} seconds..."
                      (pollingInterval / 1000))
      else ret tt) ;;
     for_of messages relay_) in
  this (state_of (scan_then_relay m)) = this m
  /\ filter is_scan (trace_of (scan_then_relay m))
     = [Call (clock m)
             (QuerySentMessage
                (Service.lastFinalizedTxHeight (this m) + Service.blockOffset (this m))
                (Service.nextUnfinalizedTxHeight (this m) + Service.blockOffset (this m)))].
Proof.
  intros c. split.
  - unfold c.
    assert (Hk : keeps c).
    { unfold c. keeps_auto; first [ apply getSentMessages_keeps | apply relay_keeps ]. }
    apply Hk.
  - unfold c. rewrite !bind_gets, bind_emit. cbn [trace_of snd filter is_scan].
    rewrite trace_bind, filter_app.
    rewrite getSentMessages_trace.
    cbn [filter is_scan app]. f_equal.
    destruct (result_of _) as [messages| |]; try reflexivity.
    apply (filter_none _ (RelayAction (this m))); [apply Relay_no_scan|].
    match goal with |- Forall _ (trace_of (?c ?s)) =>
      enough (H : emits (RelayAction (this m)) c) by apply H end.
    emits_auto ltac:(apply relay_emits).
Qed.

(** A pass scans at most once.  A pass that does not scan and returns
    leaves the service object as it was.  A pass that scans asks for the
    blocks from the cursor it began with to the cursor it ends with, and
    ends with [lastFinalizedTxHeight <= nextUnfinalizedTxHeight]. *)
Lemma tick_scans_at (budget : nat) (m : Mem) :
  let after := this (state_of (tick_ budget m)) in
  let offset := Service.blockOffset (this m) in
  Service.blockOffset after = offset
  /\ ((filter is_scan (trace_of (tick_ budget m)) = []
       /\ (forall u, result_of (tick_ budget m) = Return u -> after = this m))
      \/ (Inv after
          /\ Service.nextUnfinalizedTxHeight (this m) <= Service.nextUnfinalizedTxHeight after
          /\ exists instant,
               filter is_scan (trace_of (tick_ budget m))
               = [Call instant
                       (QuerySentMessage (Service.nextUnfinalizedTxHeight (this m) + offset)
                                         (Service.nextUnfinalizedTxHeight after + offset))])).
Proof.
  intros after offset. subst after.
  rewrite tick_unfold.
  rewrite bind_gets, !bind_emit. cbn [result_of state_of trace_of fst snd filter is_scan].
  rewrite bind_gets, trace_bind, state_bind, result_bind, filter_app.
  set (checked := isTransactionFinalized (Service.nextUnfinalizedTxHeight (this m)) m).
  assert (Hk : this (state_of checked) = this m) by apply isTransactionFinalized_keeps.
  rewrite (filter_none _ AdvanceAction (trace_of checked) Advance_no_scan)
    by apply isTransactionFinalized_emits.
  cbn [app].
  destruct (result_of checked) as [[|]| |]; cbn [negb];
    try (rewrite Hk; split; [reflexivity | left; split; [reflexivity | intros u H; discriminate H]]).
  2:{ unfold emit. cbn [state_of trace_of fst snd filter is_scan]. rewrite Hk.
      split; [reflexivity | left; split; reflexivity]. }
  rewrite bind_modify.
  set (m2 := {| this := set_lastFinalizedTxHeight
                          (Service.nextUnfinalizedTxHeight (this (state_of checked)))
                          (this (state_of checked));
                clock := clock (state_of checked) |}).
  unfold finish_tick. rewrite trace_bind, state_bind, result_bind, filter_app.
  set (w := while_finalized_ budget m2).
  destruct (while_finalized_moves_next budget m2) as [v Hv]. fold w in Hv.
  assert (Hw : this (state_of w) = set_nextUnfinalizedTxHeight v (set_lastFinalizedTxHeight
                 (Service.nextUnfinalizedTxHeight (this m)) (this m))).
  { rewrite Hv. unfold m2. cbn [this]. rewrite Hk. reflexivity. }
  assert (Hinv2 : Inv (this m2)) by (unfold Inv, m2; cbn; lia).
  destruct (while_finalized_triple decodeAppendStateBatch world budget m2 Hinv2 I)
    as (_ & Hinvw & _ & _). fold w in Hinvw.
  rewrite (filter_none _ AdvanceAction (trace_of w) Advance_no_scan)
    by apply while_finalized_emits.
  cbn [app].
  destruct (result_of w) as [u| |];
    try (rewrite Hw; split; [reflexivity | left; split; [reflexivity | intros u H; discriminate H]]).
  destruct (scan_and_relay (Service.pollingInterval (this m)) (state_of w)) as [Hs Hf].
  cbv zeta in Hs, Hf. rewrite Hs, Hf. rewrite Hw in *. cbn.
  split; [reflexivity|]. right.
  unfold Inv in Hinvw. cbn in Hinvw.
  split; [unfold Inv; cbn; exact Hinvw|]. split; [exact Hinvw|].
  eexists. reflexivity.
Qed.

Lemma scan_ranges_app (t1 t2 : list Action) :
  scan_ranges (t1 ++ t2) = scan_ranges t1 ++ scan_ranges t2.
Proof.
  induction t1 as [|a t1 IH]; [reflexivity|].
  destruct a as [| | | |n c]; cbn; try exact IH.
  destruct c; cbn; try exact IH. rewrite IH. reflexivity.
Qed.

Lemma scan_ranges_filter (t : list Action) :
  scan_ranges t = scan_ranges (filter is_scan t).
Proof.
  induction t as [|a t IH]; [reflexivity|].
  destruct a as [| | | |n c]; cbn; try exact IH.
  destruct c; cbn; try exact IH. rewrite IH. reflexivity.
Qed.

(** The first scan of a run of the loop, if there is one, starts at the
    block of the cursor the run began with. *)
Lemma while_running_first_scan (ticks budget : nat) (m : Mem) :
  match scan_ranges (trace_of (while_running_ ticks budget m)) with
  | [] => True
  | (fromBlock, toBlock) :: _ =>
      fromBlock = Service.nextUnfinalizedTxHeight (this m) + Service.blockOffset (this m)
      /\ fromBlock <= toBlock
  end.
Proof.
  revert m. induction ticks as [|n IH]; intros m; [exact I|].
  cbn [while_running]. rewrite trace_bind, scan_ranges_app.
  rewrite (scan_ranges_filter (trace_of (tick_ budget m))).
  destruct (tick_scans_at budget m) as [Hoff [[-> Hsame] | (_ & Hle & instant & ->)]].
  - cbn [scan_ranges app].
    destruct (result_of (tick_ budget m)) as [u| |]; try exact I.
    specialize (IH (state_of (tick_ budget m))).
    rewrite (Hsame u eq_refl) in IH. exact IH.
  - cbn [scan_ranges app]. split; [reflexivity | lia].
Qed.

(** C8 (a proof that cannot be built), as the code has it.

    Soft failures.  If [eth_getProof] is rejected or resolves to
    [undefined], or if the header lookup finds no batch for the height or
    throws, then [_getMessageProof] logs the error and returns [undefined]
    instead of throwing.  The message is not skipped: [relayMessage] is
    called for it with the missing proof; the outcome of that call is only
    logged, the handling of the message returns with the service object as
    it was, and the [for] loop goes on with the next message.

    A failure that is not soft.  If [eth_getProof] resolves to [null], a
    batch covers the height and its state roots are hex strings, then the
    read of [proof.accountProof] throws a [TypeError] that leaves
    [_getMessageProof], the handling of the message and the [for] loop.

    No retry.  Whether a message is taken up again depends on the cursor
    alone.  A pass that scans asks for the blocks from the cursor it began
    with to the cursor it ends with, both included.  A message in that range
    whose height is below the ending cursor is never scanned again: every
    later scan starts above its block.  A message whose height is the
    ending cursor is scanned again: the next scan, if there is one, starts
    at its block. *)
Theorem proof_failure_is_soft_and_final (message : SentMessage.t) (m : Mem) (slot : string) :
  let o := Service.options (this m) in
  let height := SentMessage.height message in
  let m1 := {| this := this m; clock := S (clock m) |} in
  let m2 := {| this := this m; clock := S (S (clock m)) |} in
  let asked := l2_eth_getProof (world (clock m1)) (Options.l2ToL1MessagePasserAddress o) [slot]
                               (height + Service.blockOffset (this m)) in
  l1xdm_successfulMessages (world (clock m)) (SentMessage.hash message) = Resolve false ->
  messageSlot keccak (SentMessage.calldata message) (Options.l2CrossDomainMessengerAddress o)
  = inr slot ->
  (((exists e, asked = Reject e)
    \/ asked = Resolve None
    \/ (exists p, asked = Resolve (Some p)
                  /\ (result_of (getStateBatchHeader height m2) = Return None
                      \/ exists e, result_of (getStateBatchHeader height m2) = Throw e))) ->
   result_of (getMessageProof message m1) = Return None
   /\ (exists e, In (LogErr "${err}" e) (trace_of (getMessageProof message m1)))
   /\ (exists instant,
         In (Call instant
                  (RelayMessage (SentMessage.target message) (SentMessage.sender message)
                                (SentMessage.data message) (SentMessage.nonce message)
                                None 2000000))
            (trace_of (relay_ message m)))
   /\ result_of (relay_ message m) = Return tt
   /\ this (state_of (relay_ message m)) = this m
   /\ (forall rest,
         result_of (for_of (message :: rest) relay_ m)
         = result_of (for_of rest relay_ (state_of (relay_ message m)))))
  /\ (forall batch : StateBatchHeader.t,
        asked = Resolve (Some EthProof.null) ->
        result_of (getStateBatchHeader height m2) = Return (Some batch) ->
        Forall (fun r => Hex.arrayify r <> None) (StateBatchHeader.stateRoots batch) ->
        let e := TypeError "Cannot read property 'accountProof' of null" in
        result_of (getMessageProof message m1) = Throw e
        /\ result_of (relay_ message m) = Throw e
        /\ (forall rest, result_of (for_of (message :: rest) relay_ m) = Throw e))
  /\ (forall (pass : Mem) (budget instant : nat) (fromBlock toBlock : Z),
        let after := state_of (tick_ budget pass) in
        let offset := Service.blockOffset (this pass) in
        In (Call instant (QuerySentMessage fromBlock toBlock)) (trace_of (tick_ budget pass)) ->
        fromBlock <= height + offset <= toBlock ->
        fromBlock = Service.nextUnfinalizedTxHeight (this pass) + offset
        /\ toBlock = Service.nextUnfinalizedTxHeight (this after) + offset
        /\ Service.blockOffset (this after) = offset
        /\ forall ticks budget',
             let later := trace_of (while_running_ ticks budget' after) in
             (height < Service.nextUnfinalizedTxHeight (this after) ->
              Forall (fun a => match a with
                               | Call _ (QuerySentMessage from _) => height + offset < from
                               | _ => True
                               end) later)
             /\ (height = Service.nextUnfinalizedTxHeight (this after) ->
                 match scan_ranges later with
                 | [] => True
                 | (from, to) :: _ => from = height + offset /\ height + offset <= to
                 end)).
Proof.
  intros o height m1 m2 asked Hdedup Hslot.
  assert (Hstart : forall k : option EthProof.t -> M (option MessageProof.t),
    getMessageProof message m1
    = bind (try_catch
              (proof <- rpc world (EthGetProof (Options.l2ToL1MessagePasserAddress o) [slot]
                                               (height + Service.blockOffset (this m)))
                            (fun c => l2_eth_getProof c (Options.l2ToL1MessagePasserAddress o)
                                                      [slot]
                                                      (height + Service.blockOffset (this m))) ;;
               match proof with
               | None => throw (ThrownString "No proof found")
               | Some p => ret (Some p)
               end)
              (fun err => emit (LogErr "${err}" err) ;; ret None))
           (fun proof =>
              match proof with
              | None => ret None
              | Some proof =>
                  batch <- try_catch
                    (batch <- getStateBatchHeader height ;;
                     match batch with
                     | None => throw (ThrownString "No events found in state batch header")
                     | Some b => ret (Some b)
                     end)
                    (fun err => emit (LogErr "${err}" err) ;; ret None) ;;
                  match batch with
                  | None => ret None
                  | Some batch =>
                      p <- lift (assembleMessageProof keccak rlp_encode message proof batch) ;;
                      ret (Some p)
                  end
              end) m1).
  { intros _. unfold _getMessageProof. rewrite !bind_gets.
    change (Service.options (this m1)) with o.
    change (Service.blockOffset (this m1)) with (Service.blockOffset (this m)).
    rewrite Hslot, bind_lift_inr. reflexivity. }
  specialize (Hstart (fun _ => ret None)).
  set (request := try_catch _ _) in Hstart.
  set (call := Call (clock m1)
                 (EthGetProof (Options.l2ToL1MessagePasserAddress o) [slot]
                              (height + Service.blockOffset (this m)))).
  assert (Hanswer : forall p, asked = Resolve (Some p) ->
                              request m1 = (Return (Some p), m2, [call])).
  { intros p Hp. unfold request, try_catch, bind, rpc. fold asked. rewrite Hp. reflexivity. }
  split; [|split].
  - intros Hfail.
    assert (Hsoft : exists st t e, getMessageProof message m1 = (Return None, st, t)
                                   /\ In (LogErr "${err}" e) t).
    { rewrite Hstart.
      assert (Hrequest :
        (exists e, request m1 = (Return None, m2, [call; LogErr "${err}" e]))
        \/ (exists p, asked = Resolve (Some p))).
      { destruct Hfail as [(e & He)|[He|(p & He & _)]].
        - left. exists e. unfold request, try_catch, bind, rpc. fold asked. rewrite He.
          reflexivity.
        - left. eexists. unfold request, try_catch, bind, rpc. fold asked. rewrite He.
          reflexivity.
        - right. exists p. exact He. }
      destruct Hrequest as [(e & He)|(p & Hp)].
      - unfold bind at 1. rewrite He. cbn.
        eexists _, _, e. split; [reflexivity|]. right. left. reflexivity.
      - destruct Hfail as [(e & Hf)|[Hf|(p' & Hf & Hheader)]]; try congruence.
        unfold bind at 1. rewrite (Hanswer p Hp).
        set (lookup := bind (getStateBatchHeader height) _).
        assert (Hlookup : exists e, lookup m2
                  = (Throw e, state_of (getStateBatchHeader height m2),
                     trace_of (getStateBatchHeader height m2))).
        { unfold lookup. destruct Hheader as [Hnone|(e & Hthrow)].
          - eexists. rewrite (bind_of_return _ _ _ _ _ _ (of_result _ _ Hnone)).
            cbn. rewrite app_nil_r. reflexivity.
          - exists e. apply bind_of_throw. apply of_result. exact Hthrow. }
        destruct Hlookup as (e & Hl).
        unfold bind at 1. rewrite (try_catch_of_throw _ _ _ _ _ _ Hl).
        cbn. eexists _, _, e. split; [reflexivity|].
        right. apply in_or_app. left. apply in_or_app. right. left. reflexivity. }
    destruct Hsoft as (st & t & e & Hrun & Hlog).
    assert (Hnone : result_of (getMessageProof message m1) = Return None)
      by (rewrite Hrun; reflexivity).
    pose proof (relay_run message m None Hdedup Hnone) as Hrelay. cbv zeta in Hrelay.
    split; [exact Hnone|].
    split; [exists e; rewrite Hrun; exact Hlog|].
    split.
    { eexists. rewrite Hrelay. cbn [trace_of snd].
      apply in_or_app. right. apply in_or_app. right. right. left. reflexivity. }
    split; [rewrite Hrelay; reflexivity|].
    split; [apply relay_keeps|].
    intros rest. cbn [for_of]. rewrite result_bind, Hrelay. reflexivity.
  - intros batch Hnull Hbatch Hroots e.
    assert (Hthrow : result_of (getMessageProof message m1) = Throw e).
    { rewrite Hstart.
      rewrite (bind_of_return _ _ _ _ _ _ (Hanswer _ Hnull)).
      assert (Hlookup :
        try_catch
          (batch <- getStateBatchHeader height ;;
           match batch with
           | None => throw (ThrownString "No events found in state batch header")
           | Some b => ret (Some b)
           end)
          (fun err => emit (LogErr "${err}" err) ;; ret None) m2
        = (Return (Some batch), state_of (getStateBatchHeader height m2),
           trace_of (getStateBatchHeader height m2))).
      { apply try_catch_of_return.
        rewrite (bind_of_return _ _ _ _ _ _ (of_result _ _ Hbatch)).
        cbn. rewrite app_nil_r. reflexivity. }
      rewrite (bind_of_return _ _ _ _ _ _ Hlookup).
      assert (Hassemble : assembleMessageProof keccak rlp_encode message EthProof.null batch
                          = inl e).
      { unfold assembleMessageProof.
        destruct (hash_elements _ Hroots) as (leaves & ->).
        destruct (getStateBatchHeader_some decodeAppendStateBatch world _ _ _ Hbatch)
          as (events & event & roots & _ & _ & _ & [Hp _] & ->).
        cbn [StateBatchHeader.prevTotalElements header_of].
        rewrite (toNumber_safe _ Hp). reflexivity. }
      rewrite Hassemble. reflexivity. }
    assert (Hrelay : result_of (relay_ message m) = Throw e).
    { rewrite relay_result, Hdedup. fold m1. rewrite Hthrow. reflexivity. }
    split; [exact Hthrow|]. split; [exact Hrelay|].
    intros rest. cbn [for_of]. rewrite result_bind, Hrelay. reflexivity.
  - intros pass budget instant fromBlock toBlock after offset Hscan Hrange.
    assert (Hin : In (Call instant (QuerySentMessage fromBlock toBlock))
                     (filter is_scan (trace_of (tick_ budget pass))))
      by (apply filter_In; split; [exact Hscan | reflexivity]).
    destruct (tick_scans_at budget pass)
      as [Hoff [[Hno _] | (Hinv & Hle & instant' & Heq)]].
    { rewrite Hno in Hin. destruct Hin. }
    fold after in Hoff, Hinv, Hle, Heq. fold offset in Hoff, Heq.
    rewrite Heq in Hin. destruct Hin as [Hin|[]].
    injection Hin as _ Hfrom Hto.
    split; [symmetry; exact Hfrom|]. split; [symmetry; exact Hto|]. split; [exact Hoff|].
    intros ticks budget' later. split.
    + intros Hbelow. unfold later.
      eapply Forall_impl; [|apply (while_running_scans ticks budget' after Hinv)].
      intros [| | | |n c]; cbn; auto. destruct c; auto. rewrite Hoff. lia.
    + intros Hat. unfold later.
      pose proof (while_running_first_scan ticks budget' after) as Hfirst.
      destruct (scan_ranges _) as [|[from to] others]; [exact I|].
      rewrite Hoff in Hfirst. destruct Hfirst as [-> Hto']. split; lia.
Qed.

End Claims.

(** * The claims on the scenarios *)

(** C5 (cursor advance).  While the check of the current height succeeds,
    one round of the inner loop fetches the header of that height and goes
    on from a cursor increased by exactly the size of that batch; when the
    check fails the loop returns and leaves the cursor.  With two
    consecutive final batches of sizes 5 and 7, whatever the L2 logs, one
    pass takes the cursor from 0 to 12 (any budget of at least 3 checks). *)
Theorem cursor_advance :
  (forall (decodeAppendStateBatch : string -> option (list string * Z)) (world : World)
          (m : Mem) (budget : nat) (h : StateBatchHeader.t),
      let next := Service.nextUnfinalizedTxHeight (this m) in
      let checked := _isTransactionFinalized decodeAppendStateBatch world next m in
      let fetched := _getStateBatchHeader decodeAppendStateBatch world next (state_of checked) in
      result_of checked = Return true ->
      result_of fetched = Return (Some h) ->
      let m' := {| this := set_nextUnfinalizedTxHeight
                             (next + StateBatchHeader.batchSize h) (this m);
                   clock := clock (state_of fetched) |} in
      let rest := while_finalized decodeAppendStateBatch world budget m' in
      while_finalized decodeAppendStateBatch world (S budget) m
      = (result_of rest, state_of rest,
         trace_of checked
         ++ trace_of fetched
         ++ LogN info "Found a batch with ${size} finalized transaction(s), checking for more..."
                 (StateBatchHeader.batchSize h)
            :: trace_of rest))
  /\
  (forall (decodeAppendStateBatch : string -> option (list string * Z)) (world : World)
          (m : Mem) (budget : nat),
      result_of (_isTransactionFinalized decodeAppendStateBatch world
                   (Service.nextUnfinalizedTxHeight (this m)) m) = Return false ->
      result_of (while_finalized decodeAppendStateBatch world (S budget) m) = Return tt
      /\ this (state_of (while_finalized decodeAppendStateBatch world (S budget) m)) = this m)
  /\
  (forall (logs : list SentMessageEvent.t) (extra : nat),
      let world := Scenario.gapless_world logs in
      let before := Scenario.service 3 0 0 in
      let after :=
        this (state_of (tick Scenario.digest Scenario.decodeAppendStateBatch
                             Scenario.decodeRelayMessage Scenario.rlp_encode world
                             (3 + extra) before)) in
      Service.lastFinalizedTxHeight after = 0
      /\ Service.nextUnfinalizedTxHeight after = 12).
Proof.
  split; [|split].
  - intros decodeAppendStateBatch world m budget h. cbv zeta.
    apply (while_finalized_round decodeAppendStateBatch world m budget h).
  - intros decodeAppendStateBatch world m budget.
    apply (while_finalized_exit decodeAppendStateBatch world m budget).
  - intros logs extra. cbv zeta. rewrite tick_cursor.
    split; vm_compute; reflexivity.
Qed.


(** The inclusion proof on the batch of the test suite: three state roots,
    padded to four leaves; the message at height 1 gets index 1, the second
    state root, and two siblings that fold to the root of the tree. *)
Lemma merkle_inclusion_proof_witness :
  let message := Scenario.sentMessage "00" 0 1 in
  let m := Scenario.service 3 0 0 in
  let rootsBytes := map (fun r => Hex.Buffer_from_hex (Hex.slice2 r)) Scenario.three in
  let leaves := map Scenario.digest (rootsBytes ++ repeat (Hex.zeros 32) 1) in
  exists (p : MessageProof.t) (leaf : Buffer),
    result_of (_getMessageProof Scenario.digest Scenario.decodeAppendStateBatch
                 Scenario.rlp_encode Scenario.three_world message m) = Return (Some p)
    /\ length leaves = 4%nat
    /\ StateRootProof.index (MessageProof.stateRootProof p) = 1
    /\ MessageProof.stateRoot p = Some (Scenario.root "12")
    /\ nth_error leaves 1 = Some leaf
    /\ length (StateRootProof.siblings (MessageProof.stateRootProof p)) = 2%nat
    /\ MerkleTree.fold_siblings Scenario.digest 1 leaf
         (StateRootProof.siblings (MessageProof.stateRootProof p))
       = MerkleTree.complete_root Scenario.digest 2 leaves.
Proof.
  cbv zeta.
  assert (Hbytes : Forall2 (fun r b => Hex.arrayify r = Some b) Scenario.three
                     (map (fun r => Hex.Buffer_from_hex (Hex.slice2 r)) Scenario.three))
    by (repeat constructor).
  assert (Hstorage : EthProof.storageProof Scenario.ethProof <> []) by discriminate.
  assert (Hn : (1 <= 3)%nat) by lia.
  assert (Hindex : 0 <= 1 - 0 < Z.of_nat 3) by lia.
  assert (Hslot : messageSlot Scenario.digest
                    (SentMessage.calldata (Scenario.sentMessage "00" 0 1))
                    (Options.l2CrossDomainMessengerAddress
                       (Service.options (this (Scenario.service 3 0 0))))
                  = inr (Scenario.slot "00")) by (vm_compute; reflexivity).
  assert (Hheader : result_of (_getStateBatchHeader Scenario.decodeAppendStateBatch
                                 Scenario.three_world
                                 (SentMessage.height (Scenario.sentMessage "00" 0 1))
                                 {| this := this (Scenario.service 3 0 0);
                                    clock := S (clock (Scenario.service 3 0 0)) |})
                    = Return (Some Scenario.three_header)) by (vm_compute; reflexivity).
  destruct (merkle_inclusion_proof Scenario.digest Scenario.decodeAppendStateBatch
              Scenario.rlp_encode Scenario.three_world
              (Scenario.sentMessage "00" 0 1) (Scenario.service 3 0 0)
              (Scenario.slot "00") Scenario.ethProof Scenario.three_header
              (map (fun r => Hex.Buffer_from_hex (Hex.slice2 r)) Scenario.three)
              Hslot eq_refl Hstorage Hheader Hn Hbytes Hindex)
    as (p & leaf & root & Hp & Hlen & _ & Hi & Hroot & Hnth & _ & Hleaf & Hfold).
  exists p, leaf.
  assert (Hp' := Hp).
  vm_compute in Hp'. injection Hp' as <-.
  split; [exact Hp|]. split; [exact Hlen|]. split; [reflexivity|]. split; [reflexivity|].
  split; [exact Hleaf|]. split; [reflexivity|]. exact Hfold.
Defined.

(** The header lookup on the chains of the first scenario: height 1 lies in
    the range of batch 1 only, height 7 in no range. *)
Lemma getStateBatchHeader_lookup_witness :
  result_of (_getStateBatchHeader Scenario.decodeAppendStateBatch Scenario.gate_world 1
               (Scenario.service 3 0 0))
  = Return (Some {| StateBatchHeader.batchIndex := 1;
                    StateBatchHeader.batchRoot := Scenario.root "00";
                    StateBatchHeader.batchSize := 1;
                    StateBatchHeader.prevTotalElements := 1;
                    StateBatchHeader.extraData := "0x";
                    StateBatchHeader.stateRoots := [Scenario.root "22"] |})
  /\ result_of (_getStateBatchHeader Scenario.decodeAppendStateBatch Scenario.gate_world 7
                  (Scenario.service 3 0 0))
     = Return None.
Proof.
  assert (Hsafe : Forall safe_event (map Scenario.event Scenario.gate_batches)).
  { repeat constructor; cbn; lia. }
  destruct (getStateBatchHeader_lookup Scenario.decodeAppendStateBatch Scenario.gate_world 1
              (Scenario.service 3 0 0) (map Scenario.event Scenario.gate_batches) eq_refl)
    as [_ Hfound]; [cbn; lia|].
  destruct (getStateBatchHeader_lookup Scenario.decodeAppendStateBatch Scenario.gate_world 7
              (Scenario.service 3 0 0) (map Scenario.event Scenario.gate_batches) eq_refl)
    as [Hnone _]; [cbn; lia|].
  split.
  - rewrite (Hfound (Scenario.event (Scenario.batch 1 1 "0xb1" [Scenario.root "22"] true))
               {| Transaction.data := Scenario.encodeAppendStateBatch [Scenario.root "22"] |}
               [Scenario.root "22"] 0).
    + reflexivity.
    + exact Hsafe.
    + right. left. reflexivity.
    + cbn. lia.
    + intros other [<-|[<-|[]]]; cbn; intros; [lia | reflexivity].
    + reflexivity.
    + reflexivity.
  - rewrite Hnone; [reflexivity | exact Hsafe |].
    intros event [<-|[<-|[]]]; cbn; lia.
Defined.

(** The scan on the chains of the first scenario: the query for heights 0
    to 1 covers blocks 8 to 9 and yields the record of the one message. *)
Lemma getSentMessages_scan_witness :
  exists messages : list SentMessage.t,
    _getSentMessages Scenario.digest Scenario.decodeRelayMessage Scenario.gate_world 0 1
                     (Scenario.service 3 0 0)
    = (Return messages, Scenario.service 4 0 0, [Call 3 (QuerySentMessage 8 9)])
    /\ Forall2 (decoded_as Scenario.digest Scenario.decodeRelayMessage 8)
               [Scenario.sent "00" 9] messages
    /\ messages = [Scenario.sentMessage "00" 0 1].
Proof.
  assert (Hall : Forall (fun event =>
                           Scenario.decodeRelayMessage (SentMessageEvent.message event) <> None
                           /\ Hex.arrayify (SentMessageEvent.message event) <> None)
                        [Scenario.sent "00" 9])
    by (repeat constructor; discriminate).
  destruct (getSentMessages_scan Scenario.digest Scenario.decodeRelayMessage
              Scenario.gate_world 0 1 (Scenario.service 3 0 0) [Scenario.sent "00" 9]
              eq_refl Hall) as (messages & Hrun & Hdecoded).
  exists messages. split; [exact Hrun|]. split; [exact Hdecoded|].
  assert (Hrun' := Hrun). vm_compute in Hrun'. injection Hrun' as <-. vm_compute. reflexivity.
Defined.

(** C8 as stated fails.  On [retry_world] the proof request for the one
    message is rejected during the first pass (instant 16).  The service
    runs three passes (three sleeps) and returns; the only calls it ever
    makes for the message are those of the first pass (instants 15 to 17),
    the last of which is a relay submission without a proof; the cursor
    ends at 3, above the message.  Yet from instant 18 on the node serves
    the proof, and the message is still not marked as relayed. *)
Lemma failed_proof_is_not_retried :
  (let r := Scenario.run Scenario.retry_world Scenario.options 3 10 in
   (result_of r,
    Scenario.call_instants Scenario.message_call (trace_of r),
    Scenario.submissions (trace_of r),
    length (filter Scenario.is_sleep (trace_of r)),
    Service.nextUnfinalizedTxHeight (this (state_of r)))
   = (Return tt, [15; 16; 17]%nat, [(0, None)], 3%nat, 3))
  /\ (forall (address : string) (slots : list string) (block : Z),
        l2_eth_getProof (Scenario.retry_world 16%nat) address slots block
        = Reject (CallError "missing trie node"))
  /\ (forall (instant : nat) (address : string) (slots : list string) (block : Z)
             (msgHash : string),
        (18 <= instant)%nat ->
        l2_eth_getProof (Scenario.retry_world instant) address slots block
        = Resolve (Some Scenario.ethProof)
        /\ l1xdm_successfulMessages (Scenario.retry_world instant) msgHash = Resolve false).
Proof.
  split; [vm_compute; reflexivity|].
  split; [reflexivity|].
  intros instant address slots block msgHash Hle. unfold Scenario.retry_world.
  replace (instant <? 18)%nat with false by (symmetry; apply Nat.ltb_ge; exact Hle).
  split; reflexivity.
Qed.

(** The amended C8 on three scenarios.

    On [boundary_world] the first pass moves the cursor from 0 to 1 and
    scans blocks 8 to 9; the message of block 9 (height 1, the ending
    cursor) is taken up at instant 13; no batch covers height 1 yet, so
    [_getMessageProof] returns no proof, [relayMessage] is called without
    one, and the handling returns.  The next scan of any continuation of
    the run starts at block 9 again; in a run of three passes the message
    is taken up a second time (instants 28 to 32) and then relayed with the
    header of batch 1.

    On [null_world] the L2 node answers [null]: the handling of the
    message throws the [TypeError].

    On [retry_world] the first pass moves the cursor from 0 to 2 and scans
    blocks 8 to 10; the message of block 8 (height 0) is below the ending
    cursor, and every later scan starts above block 8. *)
Lemma proof_failure_is_soft_and_final_witness :
  (result_of (_getMessageProof Scenario.digest Scenario.decodeAppendStateBatch
                Scenario.rlp_encode Scenario.boundary_world
                (Scenario.sentMessage "00" 0 1) (Scenario.service 14 0 1))
   = Return None
   /\ (exists instant,
         In (Call instant
                  (RelayMessage (Scenario.address "04") (Scenario.address "05")
                                "0x1234123412341234" 0 None 2000000))
            (trace_of (relay Scenario.digest Scenario.decodeAppendStateBatch
                             Scenario.rlp_encode Scenario.boundary_world
                             (Scenario.sentMessage "00" 0 1) (Scenario.service 13 0 1))))
   /\ result_of (relay Scenario.digest Scenario.decodeAppendStateBatch Scenario.rlp_encode
                   Scenario.boundary_world (Scenario.sentMessage "00" 0 1)
                   (Scenario.service 13 0 1))
      = Return tt
   /\ (let r := Scenario.run Scenario.boundary_world Scenario.options 3 10 in
       (result_of r,
        Scenario.call_instants Scenario.message_call (trace_of r),
        Scenario.submissions (trace_of r),
        scan_ranges (trace_of r))
       = (Return tt, [13; 14; 16; 28; 29; 32]%nat, [(0, None); (0, Some (1, 1))],
          [(8, 9); (9, 10)])))
  /\ result_of (relay Scenario.digest Scenario.decodeAppendStateBatch Scenario.rlp_encode
                  Scenario.null_world (Scenario.sentMessage "00" 0 1)
                  (Scenario.service 13 0 3))
     = Throw (TypeError "Cannot read property 'accountProof' of null")
  /\ (forall ticks budget : nat,
        match scan_ranges
                (trace_of
                   (while_running Scenario.digest Scenario.decodeAppendStateBatch
                      Scenario.decodeRelayMessage Scenario.rlp_encode Scenario.boundary_world
                      ticks budget
                      (state_of
                         (tick Scenario.digest Scenario.decodeAppendStateBatch
                               Scenario.decodeRelayMessage Scenario.rlp_encode
                               Scenario.boundary_world 10 (Scenario.service 3 0 0))))) with
        | [] => True
        | (fromBlock, toBlock) :: _ => fromBlock = 9 /\ 9 <= toBlock
        end)
  /\ (forall ticks budget : nat,
        Forall (fun a => match a with
                         | Call _ (QuerySentMessage fromBlock _) => 8 < fromBlock
                         | _ => True
                         end)
               (trace_of
                  (while_running Scenario.digest Scenario.decodeAppendStateBatch
                     Scenario.decodeRelayMessage Scenario.rlp_encode Scenario.retry_world
                     ticks budget
                     (state_of
                        (tick Scenario.digest Scenario.decodeAppendStateBatch
                              Scenario.decodeRelayMessage Scenario.rlp_encode
                              Scenario.retry_world 10 (Scenario.service 3 0 0)))))).
Proof.
  assert (Hslot0 : messageSlot Scenario.digest
                     (SentMessage.calldata (Scenario.sentMessage "00" 0 0))
                     (Options.l2CrossDomainMessengerAddress Scenario.options)
                   = inr (Scenario.slot "00")) by (vm_compute; reflexivity).
  assert (Hslot1 : messageSlot Scenario.digest
                     (SentMessage.calldata (Scenario.sentMessage "00" 0 1))
                     (Options.l2CrossDomainMessengerAddress Scenario.options)
                   = inr (Scenario.slot "00")) by (vm_compute; reflexivity).
  destruct (proof_failure_is_soft_and_final Scenario.digest Scenario.decodeAppendStateBatch
              Scenario.decodeRelayMessage Scenario.rlp_encode Scenario.boundary_world
              (Scenario.sentMessage "00" 0 1) (Scenario.service 13 0 1) (Scenario.slot "00")
              eq_refl Hslot1)
    as (Hsoft & _ & Hagain).
  destruct (proof_failure_is_soft_and_final Scenario.digest Scenario.decodeAppendStateBatch
              Scenario.decodeRelayMessage Scenario.rlp_encode Scenario.null_world
              (Scenario.sentMessage "00" 0 1) (Scenario.service 13 0 3) (Scenario.slot "00")
              eq_refl Hslot1)
    as (_ & Hnull & _).
  destruct (proof_failure_is_soft_and_final Scenario.digest Scenario.decodeAppendStateBatch
              Scenario.decodeRelayMessage Scenario.rlp_encode Scenario.retry_world
              (Scenario.sentMessage "00" 0 0) (Scenario.service 15 0 2) (Scenario.slot "00")
              eq_refl Hslot0)
    as (_ & _ & Hnever).
  split; [|split; [|split]].
  - assert (Hlookup : result_of (_getStateBatchHeader Scenario.decodeAppendStateBatch
                                   Scenario.boundary_world 1 (Scenario.service 15 0 1))
                      = Return None) by (vm_compute; reflexivity).
    destruct Hsoft as (Hnone & _ & Hcall & Hrelay & _).
    { right. right. exists Scenario.ethProof. split; [reflexivity|]. left. exact Hlookup. }
    split; [exact Hnone|]. split; [exact Hcall|]. split; [exact Hrelay|].
    vm_compute. reflexivity.
  - assert (Hlookup : result_of (_getStateBatchHeader Scenario.decodeAppendStateBatch
                                   Scenario.null_world 1 (Scenario.service 15 0 3))
                      = Return (Some Scenario.three_header)) by (vm_compute; reflexivity).
    assert (Hroots : Forall (fun r => Hex.arrayify r <> None) Scenario.three).
    { repeat constructor; intros H; vm_compute in H; discriminate H. }
    destruct (Hnull Scenario.three_header eq_refl Hlookup Hroots) as (_ & Hrelay & _).
    exact Hrelay.
  - intros ticks budget.
    assert (Hscan : filter is_scan
                      (trace_of (tick Scenario.digest Scenario.decodeAppendStateBatch
                                      Scenario.decodeRelayMessage Scenario.rlp_encode
                                      Scenario.boundary_world 10 (Scenario.service 3 0 0)))
                    = [Call 12 (QuerySentMessage 8 9)]) by (vm_compute; reflexivity).
    assert (Hfound : In (Call 12 (QuerySentMessage 8 9))
                        (filter is_scan
                           (trace_of (tick Scenario.digest Scenario.decodeAppendStateBatch
                                           Scenario.decodeRelayMessage Scenario.rlp_encode
                                           Scenario.boundary_world 10 (Scenario.service 3 0 0)))))
      by (rewrite Hscan; left; reflexivity).
    pose proof (proj1 (proj1 (filter_In is_scan (Call 12 (QuerySentMessage 8 9))
                                (trace_of (tick Scenario.digest Scenario.decodeAppendStateBatch
                                                Scenario.decodeRelayMessage Scenario.rlp_encode
                                                Scenario.boundary_world 10 (Scenario.service 3 0 0))))
                             Hfound)) as Hin.
    assert (Hrange : 8 <= 1 + 8 <= 9) by lia.
    destruct (Hagain (Scenario.service 3 0 0) 10%nat 12%nat 8 9 Hin Hrange)
      as (_ & _ & _ & Hlater).
    destruct (Hlater ticks budget) as [_ Hat].
    assert (Hcursor : 1 = Service.nextUnfinalizedTxHeight
                            (this (state_of
                               (tick Scenario.digest Scenario.decodeAppendStateBatch
                                     Scenario.decodeRelayMessage Scenario.rlp_encode
                                     Scenario.boundary_world 10 (Scenario.service 3 0 0)))))
      by (vm_compute; reflexivity).
    exact (Hat Hcursor).
  - intros ticks budget.
    assert (Hscan : filter is_scan
                      (trace_of (tick Scenario.digest Scenario.decodeAppendStateBatch
                                      Scenario.decodeRelayMessage Scenario.rlp_encode
                                      Scenario.retry_world 10 (Scenario.service 3 0 0)))
                    = [Call 14 (QuerySentMessage 8 10)]) by (vm_compute; reflexivity).
    assert (Hfound : In (Call 14 (QuerySentMessage 8 10))
                        (filter is_scan
                           (trace_of (tick Scenario.digest Scenario.decodeAppendStateBatch
                                           Scenario.decodeRelayMessage Scenario.rlp_encode
                                           Scenario.retry_world 10 (Scenario.service 3 0 0)))))
      by (rewrite Hscan; left; reflexivity).
    pose proof (proj1 (proj1 (filter_In is_scan (Call 14 (QuerySentMessage 8 10))
                                (trace_of (tick Scenario.digest Scenario.decodeAppendStateBatch
                                                Scenario.decodeRelayMessage Scenario.rlp_encode
                                                Scenario.retry_world 10 (Scenario.service 3 0 0))))
                             Hfound)) as Hin.
    assert (Hrange : 8 <= 0 + 8 <= 10) by lia.
    destruct (Hnever (Scenario.service 3 0 0) 10%nat 14%nat 8 10 Hin Hrange)
      as (_ & _ & _ & Hlater).
    destruct (Hlater ticks budget) as [Hbelow _].
    assert (Hcursor : 0 < Service.nextUnfinalizedTxHeight
                            (this (state_of
                               (tick Scenario.digest Scenario.decodeAppendStateBatch
                                     Scenario.decodeRelayMessage Scenario.rlp_encode
                                     Scenario.retry_world 10 (Scenario.service 3 0 0)))))
      by (vm_compute; reflexivity).
    exact (Hbelow Hcursor).
Defined.

(** C9 as stated fails.  On [decode_world] the scan of the first pass
    returns a malformed payload and a well-formed message.  The service,
    asked for three passes, throws during the first: it sleeps once, logs
    no error, and makes no call for the well-formed message either. *)
Lemma decode_failure_stops_service :
  let r := Scenario.run Scenario.decode_world Scenario.options 3 10 in
  (result_of r,
   length (filter Scenario.is_sleep (trace_of r)),
   Scenario.call_instants Scenario.message_call (trace_of r),
   length (filter Scenario.is_error_log (trace_of r)))
  = (Throw (ArgumentError "relayMessage"), 1%nat, [], 0%nat).
Proof. vm_compute. reflexivity. Qed.

(** The amended C9 on [decode_world]: the scan of the first pass, made at
    instant 12 for blocks 8 to 9, is answered with the malformed payload;
    the pass throws and the loop makes no second pass. *)
Lemma decode_failure_ends_loop_witness :
  exists e : Err,
    result_of (tick Scenario.digest Scenario.decodeAppendStateBatch Scenario.decodeRelayMessage
                    Scenario.rlp_encode Scenario.decode_world 10 (Scenario.service 3 0 0))
    = Throw e
    /\ forall ticks,
         while_running Scenario.digest Scenario.decodeAppendStateBatch
                       Scenario.decodeRelayMessage Scenario.rlp_encode Scenario.decode_world
                       (S ticks) 10 (Scenario.service 3 0 0)
         = tick Scenario.digest Scenario.decodeAppendStateBatch Scenario.decodeRelayMessage
                Scenario.rlp_encode Scenario.decode_world 10 (Scenario.service 3 0 0).
Proof.
  assert (Hin : In (Call 12 (QuerySentMessage 8 9))
                   (trace_of (tick Scenario.digest Scenario.decodeAppendStateBatch
                                   Scenario.decodeRelayMessage Scenario.rlp_encode
                                   Scenario.decode_world 10 (Scenario.service 3 0 0)))).
  { vm_compute. repeat (first [left; reflexivity | right]). }
  assert (Hbad : Exists (fun event =>
                           Scenario.decodeRelayMessage (SentMessageEvent.message event) = None)
                        [Scenario.malformed; Scenario.sent "00" 8]).
  { apply Exists_cons_hd. reflexivity. }
  destruct (decode_failure_ends_loop Scenario.digest Scenario.decodeAppendStateBatch
              Scenario.decodeRelayMessage Scenario.rlp_encode Scenario.decode_world
              (Scenario.service 3 0 0) 10 12 8 9
              [Scenario.malformed; Scenario.sent "00" 8] Hin eq_refl Hbad)
    as (e & before & Hthrow & _ & _ & Hloop).
  exists e. split; [exact Hthrow | exact Hloop].
Defined.

(** * Further properties of the service *)

Section FurtherProperties.

Variable keccak : list byte -> list byte.
Variable decodeAppendStateBatch : string -> option (list string * Z).
Variable decodeRelayMessage : string -> option RelayMessageArgs.t.
Variable rlp_encode : list string -> Buffer.
Variable world : World.

Local Abbreviation getStateBatchHeader := (_getStateBatchHeader decodeAppendStateBatch world).
Local Abbreviation isTransactionFinalized := (_isTransactionFinalized decodeAppendStateBatch world).
Local Abbreviation getSentMessages := (_getSentMessages keccak decodeRelayMessage world).
Local Abbreviation getMessageProof :=
  (_getMessageProof keccak decodeAppendStateBatch rlp_encode world).
Local Abbreviation relay_ := (relay keccak decodeAppendStateBatch rlp_encode world).
Local Abbreviation while_finalized_ := (while_finalized decodeAppendStateBatch world).
Local Abbreviation tick_ :=
  (tick keccak decodeAppendStateBatch decodeRelayMessage rlp_encode world).
Local Abbreviation while_running_ :=
  (while_running keccak decodeAppendStateBatch decodeRelayMessage rlp_encode world).

(** ** Start-up *)

(** The outcome of [_init] is decided by the sanity checks, in their
    order: the answer of the L1 node to [detectNetwork], that of the L2
    node, the sign of the configured starting height, and the answer to the
    query for the batch events.  The first that fails is the error thrown,
    and an error is logged as "Sanity check failed" exactly when it is
    thrown.  A negative starting height is refused after the two network
    checks and before the events are queried. *)
Theorem init_outcome (m0 : Mem) :
  let o := Service.options (this m0) in
  let c := clock m0 in
  let refused := ThrownString "L2 Chain Starting Height must be positive" in
  result_of (_init world m0)
  = match l1_detectNetwork (world c) with
    | Reject e => Throw e
    | Resolve _ =>
        match l2_detectNetwork (world (S c)) with
        | Reject e => Throw e
        | Resolve _ =>
            if lt0 (Options.l2ChainStartingHeight o) then Throw refused
            else match scc_StateBatchAppended (world (S (S c))) with
                 | Reject e => Throw e
                 | Resolve _ => Return tt
                 end
        end
    end
  /\ (forall e, result_of (_init world m0) = Throw e
                <-> In (LogErr "Sanity check failed: ${err}" e) (trace_of (_init world m0)))
  /\ (forall u1 u2,
        l1_detectNetwork (world c) = Resolve u1 ->
        l2_detectNetwork (world (S c)) = Resolve u2 ->
        lt0 (Options.l2ChainStartingHeight o) = true ->
        trace_of (_init world m0)
        = [Call c DetectNetworkL1; Call (S c) DetectNetworkL2;
           LogErr "Sanity check failed: ${err}" refused]).
Proof.
  intros o c refused. subst o c.
  unfold _init, _sanityChecks, bind, try_catch, rpc, modify, gets, emit, throw, ret,
    result_of, trace_of.
  cbn.
  destruct (l1_detectNetwork (world (clock m0))) as [u1|e1]; cbn;
    [destruct (l2_detectNetwork (world (S (clock m0)))) as [u2|e2]; cbn;
     [destruct (lt0 (Options.l2ChainStartingHeight (Service.options (this m0)))); cbn;
      [|destruct (scc_StateBatchAppended (world (S (S (clock m0))))) as [events|e3]; cbn;
        [destruct (length events =? 0)%nat, ((_ <? 15000) || (_ >? 60000)); cbn|]]|]|];
    (split;
     [ reflexivity
     | split;
       [ intros e; split; intros H;
         [ first [discriminate H | injection H as <-; repeat (first [left; reflexivity | right])]
         | repeat (destruct H as [H|H];
                   [first [discriminate H | injection H as <-; reflexivity]|]);
           destruct H ]
       | intros ? ? H1 H2 H3;
         first [discriminate H1 | discriminate H2 | discriminate H3 | reflexivity] ] ]).
Qed.

(** When [_init] returns, it has logged the warning about missing batch
    events exactly when the query returned no event, and the warning about
    the polling interval exactly when the interval in use is below 15000 ms
    or above 60000 ms.  The default interval, 5000 ms, is itself outside
    that range: a service configured without a polling interval always
    logs the warning. *)
Theorem init_warnings (m0 : Mem) (events : list StateBatchAppended.t) :
  let o := Service.options (this m0) in
  let interval := or_default (Options.pollingInterval o) 5000 in
  let log := trace_of (_init world m0) in
  let no_events :=
    Log info "Warning: No events exist yet, no state commitment for the given height" in
  let bad_interval :=
    Log info "Warning: Polling interval should be greater than 15s or less than an hour" in
  result_of (_init world m0) = Return tt ->
  scc_StateBatchAppended (world (S (S (clock m0)))) = Resolve events ->
  (In no_events log <-> events = [])
  /\ (In bad_interval log <-> interval < 15000 \/ 60000 < interval)
  /\ (falsy (Options.pollingInterval o) = true -> In bad_interval log).
Proof.
  intros o interval log no_events bad_interval.
  assert (Hdefault : falsy (Options.pollingInterval o) = true -> interval = 5000).
  { unfold interval. destruct (Options.pollingInterval o) as [| |z]; cbn; try reflexivity.
    intros ->. reflexivity. }
  subst log. revert Hdefault. subst interval o.
  unfold _init, _sanityChecks, bind, try_catch, rpc, modify, gets, emit, throw, ret,
    result_of, trace_of.
  cbn.
  set (interval := or_default _ 5000). intros Hdefault.
  destruct (l1_detectNetwork (world (clock m0))) as [u1|e1]; cbn;
    [|intros H; discriminate H].
  destruct (l2_detectNetwork (world (S (clock m0)))) as [u2|e2]; cbn;
    [|intros H; discriminate H].
  destruct (lt0 (Options.l2ChainStartingHeight (Service.options (this m0)))); cbn;
    [intros H; discriminate H|].
  destruct (scc_StateBatchAppended (world (S (S (clock m0))))) as [events'|e3]; cbn;
    [|intros H; discriminate H].
  intros _ Hev. injection Hev as ->.
  assert (Hb : (interval <? 15000) || (interval >? 60000) = true
               <-> interval < 15000 \/ 60000 < interval).
  { rewrite orb_true_iff, Z.ltb_lt, Z.gtb_gt. lia. }
  destruct events as [|event rest]; cbn;
    destruct ((interval <? 15000) || (interval >? 60000)); cbn;
    (split; [|split]);
    try (split; intros H;
         solve [ reflexivity | discriminate H | apply Hb; reflexivity
               | repeat (first [left; reflexivity | right])
               | apply Hb in H; discriminate H
               | repeat (destruct H as [H|H]; [discriminate H|]); destruct H ]);
    intros H; apply Hdefault in H;
    solve [ repeat (first [left; reflexivity | right])
          | assert (Hf : false = true) by (apply Hb; lia); discriminate Hf ].
Qed.

(** ** Finality of a height *)

(** [_isTransactionFinalized] answers [true] for a height only after it
    has found, among the events the chain returned, one whose range covers
    the height, has built the header of that batch, and has been told by
    the chain that this very header is not inside the fraud-proof window:
    three calls, in that order.  The numbers of that event are safe
    integers.  For a height that no event covers, the numbers of the
    events being safe integers, it answers [false] after the query alone,
    without asking about any window. *)
Theorem isTransactionFinalized_sound (height : Z) (m : Mem) :
  (result_of (isTransactionFinalized height m) = Return true ->
   exists (events : list StateBatchAppended.t) (event : StateBatchAppended.t)
          (stateRoots : list string),
     let header := header_of event stateRoots in
     scc_StateBatchAppended (world (clock m)) = Resolve events
     /\ In event events
     /\ StateBatchAppended._prevTotalElements event <= height < batch_end event
     /\ safe_event event
     /\ result_of (getStateBatchHeader height m) = Return (Some header)
     /\ scc_insideFraudProofWindow (world (S (S (clock m)))) header = Resolve false
     /\ trace_of (isTransactionFinalized height m)
        = [Call (clock m) QueryStateBatchAppended;
           Call (S (clock m)) (GetTransaction (StateBatchAppended.transactionHash event));
           Call (S (S (clock m))) (InsideFraudProofWindow header)])
  /\ (forall events : list StateBatchAppended.t,
        scc_StateBatchAppended (world (clock m)) = Resolve events ->
        Forall safe_event events ->
        (forall event, In event events ->
           ~ (StateBatchAppended._prevTotalElements event <= height < batch_end event)) ->
        isTransactionFinalized height m
        = (Return false, {| this := this m; clock := S (clock m) |},
           [Call (clock m) QueryStateBatchAppended])).
Proof.
  split.
  - unfold _isTransactionFinalized, _getStateBatchHeader, bind, rpc, lift, ret, throw,
      result_of, trace_of.
    cbn.
    destruct (scc_StateBatchAppended (world (clock m))) as [events|e]; cbn;
      [|intros H; discriminate H].
    destruct (find_throwing (covers_callback height) events) as [e|[event|]] eqn:Hfind; cbn;
      try (intros H; discriminate H).
    destruct (l1_getTransaction (world (S (clock m))) _) as [[tx|]|e]; cbn;
      try (intros H; discriminate H).
    destruct (decodeAppendStateBatch (Transaction.data tx)) as [[stateRoots start]|]; cbn;
      [|intros H; discriminate H].
    fold (header_of event stateRoots).
    destruct (scc_insideFraudProofWindow (world (S (S (clock m)))) _) as [[|]|e] eqn:Hwin;
      cbn; intros H; try discriminate H.
    exists events, event, stateRoots.
    apply find_throwing_some in Hfind as [Hin Hc].
    apply covers_callback_true in Hc as (Hrange & Hp & Hs).
    unfold batch_end, safe_event.
    repeat split; try reflexivity; try assumption; apply Hrange.
  - intros events Hq Hsafe Hnone.
    assert (Hfind : find_throwing (covers_callback height) events = inr None).
    { rewrite (find_throwing_covers height events Hsafe). f_equal.
      apply find_none_covers. intros event Hin Hc.
      apply (Hnone event Hin). apply covers_iff. exact Hc. }
    unfold _isTransactionFinalized, _getStateBatchHeader, bind, rpc, lift, ret.
    rewrite Hq, Hfind. reflexivity.
Qed.

(** ** Handling one message *)

(** A message that the L1 messenger reports as already relayed is skipped:
    its handling consists of the relay-status call and two log lines, and
    returns; no proof is requested and nothing is submitted. *)
Theorem relayed_message_is_skipped (message : SentMessage.t) (m : Mem) :
  l1xdm_successfulMessages (world (clock m)) (SentMessage.hash message) = Resolve true ->
  relay_ message m
  = (Return tt, {| this := this m; clock := S (clock m) |},
     [LogN interesting "Found a message sent during transaction: ${message.height}"
           (SentMessage.height message);
      Call (clock m) (SuccessfulMessages (SentMessage.hash message));
      Log interesting "Message has already been relayed, skipping."]).
Proof.
  intros H. unfold relay, _wasMessageRelayed. rewrite bind_emit.
  unfold bind, rpc. rewrite H. reflexivity.
Qed.

(** Which failures leave the handling of a message: a rejected
    relay-status call, and an exception thrown while the proof is built.
    The answer to the relay submission itself never does: whether the
    submission is accepted or rejected, the handling returns. *)
Theorem relay_outcome (message : SentMessage.t) (m : Mem) :
  let m1 := {| this := this m; clock := S (clock m) |} in
  result_of (relay_ message m)
  = match l1xdm_successfulMessages (world (clock m)) (SentMessage.hash message) with
    | Reject e => Throw e
    | Resolve true => Return tt
    | Resolve false =>
        match result_of (getMessageProof message m1) with
        | Return _ => Return tt
        | Throw e => Throw e
        | Running => Running
        end
    end.
Proof. apply relay_result. Qed.

(** The handling of a message that is not yet relayed and whose proof
    construction returns (with a proof or without one): after the proof
    has been built there is exactly one submission, made with the target,
    sender, data and nonce of the message, the proof as it was returned,
    and a gas limit of 2000000.  Its outcome is only logged: as a success
    when the call is accepted, as an error when it is rejected; either way
    the handling returns. *)
Theorem relay_submission (message : SentMessage.t) (m : Mem) (proof : option MessageProof.t) :
  let m1 := {| this := this m; clock := S (clock m) |} in
  let built := getMessageProof message m1 in
  let instant := clock (state_of built) in
  let answer :=
    l1xdm_relayMessage (world instant) (SentMessage.target message)
                       (SentMessage.sender message) (SentMessage.data message)
                       (SentMessage.nonce message) proof in
  l1xdm_successfulMessages (world (clock m)) (SentMessage.hash message) = Resolve false ->
  result_of built = Return proof ->
  relay_ message m
  = (Return tt, {| this := this m; clock := S instant |},
     [LogN interesting "Found a message sent during transaction: ${message.height}"
           (SentMessage.height message);
      Call (clock m) (SuccessfulMessages (SentMessage.hash message));
      Log interesting "Message not yet relayed. Attempting to generate a proof..."]
     ++ trace_of built
     ++ [Log interesting "Successfully generated a proof. Attempting to relay to Layer 1...";
         Call instant
              (RelayMessage (SentMessage.target message) (SentMessage.sender message)
                            (SentMessage.data message) (SentMessage.nonce message)
                            proof 2000000);
         match answer with
         | Resolve _ => Log success "Message successfully relayed to Layer 1!"
         | Reject e =>
             LogErr "Could not relay message to Layer 1, see error log below: ${err}" e
         end]).
Proof. apply relay_run. Qed.

(** ** The messages of one pass *)

Lemma checked_hashes_app (t1 t2 : list Action) :
  checked_hashes (t1 ++ t2) = checked_hashes t1 ++ checked_hashes t2.
Proof.
  induction t1 as [|a t1 IH]; [reflexivity|].
  destruct a as [| | | |n c]; cbn; try exact IH.
  destruct c; cbn; try exact IH. rewrite IH. reflexivity.
Qed.

Lemma checked_hashes_none (t : list Action) :
  Forall NotStatusCall t -> checked_hashes t = [].
Proof.
  induction 1 as [|a t Ha _ IH]; [reflexivity|].
  destruct a as [| | | |n c]; cbn; try exact IH.
  destruct c; cbn; try exact IH. destruct Ha.
Qed.

Lemma getMessageProof_no_status_call (message : SentMessage.t) :
  emits NotStatusCall (getMessageProof message).
Proof.
  unfold _getMessageProof.
  emits_auto ltac:(eapply emits_weaken;
                   [ intros act Hact; destruct act as [| | | |n c]; [| | | |destruct c];
                     cbn in *; tauto
                   | apply getStateBatchHeader_emits ]).
Qed.

(** The handling of a message asks for the relay status of that message,
    once. *)
Lemma relay_checked_hashes (message : SentMessage.t) (m : Mem) :
  checked_hashes (trace_of (relay_ message m)) = [SentMessage.hash message].
Proof.
  unfold relay, _wasMessageRelayed. rewrite bind_emit. cbn [trace_of snd checked_hashes].
  rewrite trace_bind, checked_hashes_app. unfold rpc at 1. cbn [trace_of snd checked_hashes].
  rewrite checked_hashes_none; [reflexivity|].
  destruct (result_of _) as [relayed| |]; try apply Forall_nil.
  match goal with |- Forall _ (trace_of (?c ?s)) =>
    enough (H : emits NotStatusCall c) by apply H end.
  unfold _relayMessageToL1.
  emits_auto ltac:(apply getMessageProof_no_status_call).
Qed.

(** Within a pass the messages are taken up one after the other in the
    order of the logs: the relay-status calls of the [for] loop are those
    of a prefix of the scanned messages, each asked once, in order; and of
    all of them when the loop returns. *)
Theorem messages_checked_in_order (messages : list SentMessage.t) (m : Mem) :
  (exists k : nat,
     checked_hashes (trace_of (for_of messages relay_ m))
     = map SentMessage.hash (firstn k messages))
  /\ (result_of (for_of messages relay_ m) = Return tt ->
      checked_hashes (trace_of (for_of messages relay_ m)) = map SentMessage.hash messages).
Proof.
  revert m. induction messages as [|message rest IH]; intros m.
  - split; [exists 0%nat|intros _]; reflexivity.
  - cbn [for_of]. rewrite trace_bind, result_bind, checked_hashes_app, relay_checked_hashes.
    destruct (result_of (relay_ message m)) as [u| |].
    + destruct (IH (state_of (relay_ message m))) as [[k Hk] Hall]. split.
      * exists (S k). cbn [firstn map app]. rewrite Hk. reflexivity.
      * intros Hr. cbn [map app]. rewrite (Hall Hr). reflexivity.
    + split; [exists 1%nat; reflexivity | intros H; discriminate H].
    + split; [exists 1%nat; reflexivity | intros H; discriminate H].
Qed.

(** ** One pass of the relay loop *)

Lemma ScansExactly_no_scan (fromBlock toBlock : Z) (a : Action) :
  is_scan a = false -> ScansExactly fromBlock toBlock a.
Proof. destruct a as [| | | |n c]; [| | | |destruct c]; cbn; intros H; try exact I; discriminate H. Qed.

(** A pass that finds the height at its cursor not finalized does nothing
    else: it sleeps, makes the lookups of that one check, logs that nothing
    new was found, and returns with the service object as it was; the L2
    node is not scanned and no message is touched. *)
Theorem idle_tick (budget : nat) (m : Mem) :
  let interval := Service.pollingInterval (this m) in
  let checked := isTransactionFinalized (Service.nextUnfinalizedTxHeight (this m)) m in
  result_of checked = Return false ->
  tick_ budget m
  = (Return tt, state_of checked,
     Sleep interval
     :: Log info "Checking for newly finalized transactions..."
     :: trace_of checked
        ++ [LogN info "Didn't find any newly finalized transactions. Trying again in ${} seconds..."
                 (interval / 1000)])
  /\ this (state_of (tick_ budget m)) = this m
  /\ Forall (fun a => is_scan a = false /\ NotMessageCall a) (trace_of (tick_ budget m)).
Proof.
  intros interval checked Hc.
  assert (Heq : tick_ budget m
    = (Return tt, state_of checked,
       Sleep interval
       :: Log info "Checking for newly finalized transactions..."
       :: trace_of checked
          ++ [LogN info "Didn't find any newly finalized transactions. Trying again in ${} seconds..."
                   (interval / 1000)])).
  { unfold tick. rewrite bind_gets, !bind_emit, bind_gets.
    rewrite (bind_of_return _ _ _ _ _ _ (of_result _ _ Hc)). reflexivity. }
  split; [exact Heq|]. rewrite Heq. cbn [state_of trace_of fst snd]. split.
  - apply isTransactionFinalized_keeps.
  - apply Forall_cons; [split; [reflexivity | exact I]|].
    apply Forall_cons; [split; [reflexivity | exact I]|].
    apply Forall_app. split.
    + eapply Forall_impl; [|apply (isTransactionFinalized_emits decodeAppendStateBatch world)].
      intros a Ha. split; [apply Advance_no_scan | apply Advance_NotMessageCall]; exact Ha.
    + apply Forall_cons; [split; [reflexivity | exact I] | apply Forall_nil].
Qed.

Lemma Forall_of_scans (fromBlock toBlock : Z) (t : list Action) :
  Forall (ScansExactly fromBlock toBlock) (filter is_scan t) ->
  Forall (ScansExactly fromBlock toBlock) t.
Proof.
  induction t as [|a t IH]; intros H; [apply Forall_nil|].
  cbn [filter] in H. destruct (is_scan a) eqn:Ha.
  - inversion H as [|? ? H1 H2]; subst. apply Forall_cons; [exact H1 | apply IH, H2].
  - apply Forall_cons; [apply ScansExactly_no_scan, Ha | apply IH, H].
Qed.

(** The blocks a pass scans.  A pass scans the L2 node at most once, and
    the range it asks for runs from the block of the cursor the pass began
    with to the block of the cursor it ends with, both as bounds of the
    log query: [nextUnfinalizedTxHeight + blockOffset] before and after.
    The block offset is not changed by a pass, so the upper bound of one
    scan is the lower bound of the scan of the next pass. *)
Theorem tick_scan_window (budget : nat) (m : Mem) :
  let after := this (state_of (tick_ budget m)) in
  let offset := Service.blockOffset (this m) in
  Forall (ScansExactly (Service.nextUnfinalizedTxHeight (this m) + offset)
                       (Service.nextUnfinalizedTxHeight after + offset))
         (trace_of (tick_ budget m))
  /\ (length (filter is_scan (trace_of (tick_ budget m))) <= 1)%nat
  /\ Service.blockOffset after = offset
  /\ (forall budget',
        Forall (fun a => match a with
                         | Call _ (QuerySentMessage fromBlock _) =>
                             fromBlock = Service.nextUnfinalizedTxHeight after + offset
                         | _ => True
                         end)
               (trace_of (tick_ budget' (state_of (tick_ budget m))))).
Proof.
  intros after offset.
  destruct (tick_scans_at keccak decodeAppendStateBatch decodeRelayMessage rlp_encode world
              budget m) as [Hoff Hscan]. fold after offset in Hoff, Hscan.
  split; [|split; [|split; [exact Hoff|]]].
  - apply Forall_of_scans.
    destruct Hscan as [[-> _] | (_ & _ & instant & ->)]; [apply Forall_nil|].
    apply Forall_cons; [split; reflexivity | apply Forall_nil].
  - destruct Hscan as [[-> _] | (_ & _ & instant & ->)]; cbn; lia.
  - intros budget'.
    destruct (tick_scans_at keccak decodeAppendStateBatch decodeRelayMessage rlp_encode world
                budget' (state_of (tick_ budget m))) as [_ Hnext].
    fold after in Hnext. rewrite Hoff in Hnext.
    eapply Forall_impl; [|apply Forall_of_scans with (t := trace_of _)].
    + intros a Ha. destruct a as [| | | |n c]; try exact I. destruct c; try exact I.
      exact (proj1 Ha).
    + destruct Hnext as [[-> _] | (_ & _ & instant & ->)]; [apply Forall_nil|].
      apply Forall_cons; [split; reflexivity | apply Forall_nil].
Qed.

(** ** From a log to its proof *)



(** ** Looking up a batch header *)

Lemma find_throwing_first {A} (f : A -> Err + bool) (before after : list A) (x : A) :
  Forall (fun y => f y = inr false) before -> f x = inr true ->
  find_throwing f (before ++ x :: after) = inr (Some x).
Proof.
  intros Hb Hx. induction Hb as [|y before Hy _ IH]; cbn.
  - rewrite Hx. reflexivity.
  - rewrite Hy. exact IH.
Qed.

(** The callback of the lookup stops at the first event that covers the
    height; the events after it are not looked at. *)
Lemma lookup_selects (height : Z) (before after : list StateBatchAppended.t)
    (event : StateBatchAppended.t) :
  Forall (fun earlier =>
            safe_event earlier
            /\ ~ (StateBatchAppended._prevTotalElements earlier <= height < batch_end earlier))
         before ->
  safe_event event ->
  StateBatchAppended._prevTotalElements event <= height < batch_end event ->
  find_throwing (covers_callback height) (before ++ event :: after) = inr (Some event).
Proof.
  intros Hb [Hp Hs] Hc. apply find_throwing_first.
  - eapply Forall_impl; [|exact Hb]. intros earlier [[Hp' Hs'] Hn].
    rewrite (covers_callback_safe height earlier Hp' Hs'). f_equal.
    destruct (covers height earlier) eqn:He; [|reflexivity].
    exfalso. apply Hn. apply covers_iff. exact He.
  - rewrite (covers_callback_safe height event Hp Hs). f_equal.
    apply covers_iff. exact Hc.
Qed.

(** When the ranges of several events cover a height, the lookup takes the
    first of them in the order in which the chain returned the events; the
    events that follow it are not examined, so their numbers need not even
    be safe integers.  The header is made of the fields of that event and
    of the state roots decoded from the calldata of its transaction,
    whatever their number and whatever start element the calldata names. *)
Theorem getStateBatchHeader_first_match (height : Z) (m : Mem)
    (before after : list StateBatchAppended.t) (event : StateBatchAppended.t)
    (tx : Transaction.t) (stateRoots : list string) (startElement : Z) :
  scc_StateBatchAppended (world (clock m)) = Resolve (before ++ event :: after) ->
  Forall (fun earlier =>
            safe_event earlier
            /\ ~ (StateBatchAppended._prevTotalElements earlier <= height < batch_end earlier))
         before ->
  safe_event event ->
  StateBatchAppended._prevTotalElements event <= height < batch_end event ->
  l1_getTransaction (world (S (clock m))) (StateBatchAppended.transactionHash event)
  = Resolve (Some tx) ->
  decodeAppendStateBatch (Transaction.data tx) = Some (stateRoots, startElement) ->
  getStateBatchHeader height m
  = (Return (Some (header_of event stateRoots)),
     {| this := this m; clock := S (S (clock m)) |},
     [Call (clock m) QueryStateBatchAppended;
      Call (S (clock m)) (GetTransaction (StateBatchAppended.transactionHash event))]).
Proof.
  intros Hq Hb Hsafe Hc Htx Hd.
  unfold _getStateBatchHeader, bind, rpc, lift, ret.
  rewrite Hq, (lookup_selects height before after event Hb Hsafe Hc).
  cbn [this clock]. rewrite Htx, Hd. reflexivity.
Qed.

(** How the lookup fails once an event has been selected.  A rejected
    event query is thrown on after that one call.  Once an event covers
    the height: a rejected [getTransaction] is thrown on; a transaction
    the node does not know makes the read of its [data] throw; calldata
    that does not decode as [appendStateBatch] makes the decoder throw.
    In each case the caller gets an exception, not an absent header. *)
Theorem getStateBatchHeader_failures (height : Z) (m : Mem) :
  (forall e, scc_StateBatchAppended (world (clock m)) = Reject e ->
     getStateBatchHeader height m
     = (Throw e, {| this := this m; clock := S (clock m) |},
        [Call (clock m) QueryStateBatchAppended]))
  /\ (forall (before after : list StateBatchAppended.t) (event : StateBatchAppended.t),
        scc_StateBatchAppended (world (clock m)) = Resolve (before ++ event :: after) ->
        Forall (fun earlier =>
                  safe_event earlier
                  /\ ~ (StateBatchAppended._prevTotalElements earlier <= height
                        < batch_end earlier))
               before ->
        safe_event event ->
        StateBatchAppended._prevTotalElements event <= height < batch_end event ->
        let asked :=
          l1_getTransaction (world (S (clock m))) (StateBatchAppended.transactionHash event) in
        (forall e, asked = Reject e -> result_of (getStateBatchHeader height m) = Throw e)
        /\ (asked = Resolve None ->
            result_of (getStateBatchHeader height m)
            = Throw (TypeError "Cannot read property 'data' of null"))
        /\ (forall tx, asked = Resolve (Some tx) ->
              decodeAppendStateBatch (Transaction.data tx) = None ->
              result_of (getStateBatchHeader height m)
              = Throw (ArgumentError "appendStateBatch"))).
Proof.
  split.
  - intros e Hq. unfold _getStateBatchHeader, bind, rpc. rewrite Hq. reflexivity.
  - intros before after event Hq Hb Hsafe Hc asked. subst asked.
    unfold _getStateBatchHeader, bind, rpc, lift, ret, throw, result_of.
    rewrite Hq, (lookup_selects height before after event Hb Hsafe Hc). cbn [this clock].
    split; [|split].
    + intros e ->. reflexivity.
    + intros ->. reflexivity.
    + intros tx -> ->. reflexivity.
Qed.

(** A lookup that throws while a pass checks the height at its cursor is
    not caught anywhere: the pass throws the same error before it has
    scanned or touched a message, the cursor stays, and the exception
    leaves the relay loop, which makes no further pass. *)
Theorem lookup_failure_ends_loop (budget ticks : nat) (m : Mem) (e : Err) :
  result_of (getStateBatchHeader (Service.nextUnfinalizedTxHeight (this m)) m) = Throw e ->
  result_of (tick_ budget m) = Throw e
  /\ this (state_of (tick_ budget m)) = this m
  /\ Forall (fun a => is_scan a = false /\ NotMessageCall a) (trace_of (tick_ budget m))
  /\ while_running_ (S ticks) budget m = tick_ budget m.
Proof.
  intros Hl.
  set (checked := isTransactionFinalized (Service.nextUnfinalizedTxHeight (this m)) m).
  assert (Hc : result_of checked = Throw e).
  { unfold checked, _isTransactionFinalized. rewrite result_bind, Hl. reflexivity. }
  assert (Heq : tick_ budget m
    = (Throw e, state_of checked,
       Sleep (Service.pollingInterval (this m))
       :: Log info "Checking for newly finalized transactions..." :: trace_of checked)).
  { unfold tick. rewrite bind_gets, !bind_emit, bind_gets.
    rewrite (bind_of_throw _ _ _ _ _ _ (of_result _ _ Hc)). reflexivity. }
  split; [rewrite Heq; reflexivity|].
  split; [rewrite Heq; apply (isTransactionFinalized_keeps decodeAppendStateBatch world)|].
  split.
  - rewrite Heq. cbn [trace_of snd].
    apply Forall_cons; [split; [reflexivity | exact I]|].
    apply Forall_cons; [split; [reflexivity | exact I]|].
    eapply Forall_impl; [|apply (isTransactionFinalized_emits decodeAppendStateBatch world)].
    intros a Ha. split; [apply Advance_no_scan | apply Advance_NotMessageCall]; exact Ha.
  - cbn [while_running]. rewrite (bind_of_throw _ _ _ _ _ _ Heq). symmetry. exact Heq.
Qed.

(** ** The inner loop of a pass *)

Lemma getStateBatchHeader_settles (height : Z) (m : Mem) :
  result_of (getStateBatchHeader height m) <> Running.
Proof.
  unfold _getStateBatchHeader, bind, rpc, lift, ret, throw, result_of. cbn.
  destruct (scc_StateBatchAppended (world (clock m))) as [events|e]; cbn; [|discriminate].
  destruct (find_throwing (covers_callback height) events) as [e|[event|]]; cbn;
    try discriminate.
  destruct (l1_getTransaction (world (S (clock m))) _) as [[tx|]|e]; cbn; try discriminate.
  destruct (decodeAppendStateBatch (Transaction.data tx)) as [[stateRoots start]|]; cbn;
    discriminate.
Qed.

Lemma isTransactionFinalized_settles (height : Z) (m : Mem) :
  result_of (isTransactionFinalized height m) <> Running.
Proof.
  unfold _isTransactionFinalized. rewrite result_bind.
  pose proof (getStateBatchHeader_settles height m) as Hs.
  destruct (result_of (getStateBatchHeader height m)) as [[batch|]| |];
    try discriminate; [|exfalso; apply Hs; reflexivity].
  unfold bind, rpc, ret, result_of. cbn.
  destruct (scc_insideFraudProofWindow _ _); cbn; discriminate.
Qed.

Lemma Header_no_jump (a : Action) : HeaderAction a -> is_batch_jump a = false.
Proof. destruct a as [| | | |n c]; cbn; intros H; try reflexivity; destruct H. Qed.

Lemma isTransactionFinalized_no_jump (height : Z) (m : Mem) :
  filter is_batch_jump (trace_of (isTransactionFinalized height m)) = [].
Proof.
  apply (filter_none _ (fun a => is_call a = true)).
  - intros a. destruct a; cbn; intros H; try reflexivity; discriminate H.
  - match goal with |- Forall _ (trace_of (?c m)) =>
      enough (H : emits (fun a => is_call a = true) c) by apply H end.
    unfold _isTransactionFinalized.
    emits_auto ltac:(eapply emits_weaken;
                     [ intros act Hact; destruct act; cbn in *; tauto
                     | apply (getStateBatchHeader_emits decodeAppendStateBatch world) ]).
Qed.

Lemma getStateBatchHeader_no_jump (height : Z) (m : Mem) :
  filter is_batch_jump (trace_of (getStateBatchHeader height m)) = [].
Proof.
  apply (filter_none _ HeaderAction); [exact Header_no_jump|].
  apply (getStateBatchHeader_emits decodeAppendStateBatch world).
Qed.

(** The inner loop makes progress: every round it completes (every
    "Found a batch" line it logs) raises [nextUnfinalizedTxHeight] by at
    least one, because the batch whose size is added covers the height the
    cursor was at.  This holds however the chain changes between the calls
    and however the loop ends. *)
Theorem advance_makes_progress (budget : nat) (m : Mem) :
  let run := while_finalized_ budget m in
  Z.of_nat (length (filter is_batch_jump (trace_of run)))
  <= Service.nextUnfinalizedTxHeight (this (state_of run))
     - Service.nextUnfinalizedTxHeight (this m).
Proof.
  revert m. induction budget as [|n IH]; intros m run; subst run.
  - cbn. lia.
  - set (next := Service.nextUnfinalizedTxHeight (this m)).
    set (checked := isTransactionFinalized next m).
    set (fetched := getStateBatchHeader next (state_of checked)).
    assert (Hk1 : this (state_of checked) = this m)
      by apply (isTransactionFinalized_keeps decodeAppendStateBatch world).
    assert (Hk2 : this (state_of fetched) = this m).
    { unfold fetched. rewrite (getStateBatchHeader_keeps decodeAppendStateBatch world).
      exact Hk1. }
    destruct (result_of checked) as [[|]| |] eqn:Hc.
    + destruct (result_of fetched) as [[h|]| |] eqn:Hf.
      * rewrite (while_finalized_round decodeAppendStateBatch world m n h Hc Hf).
        fold next checked fetched.
        set (m' := {| this := set_nextUnfinalizedTxHeight (next + StateBatchHeader.batchSize h)
                                (this m);
                      clock := clock (state_of fetched) |}).
        cbn [state_of trace_of fst snd].
        rewrite !filter_app. unfold checked at 1, fetched at 1.
        rewrite isTransactionFinalized_no_jump, getStateBatchHeader_no_jump.
        cbn [app filter is_batch_jump String.eqb Ascii.eqb Bool.eqb andb length].
        specialize (IH m'). cbv zeta in IH.
        destruct (getStateBatchHeader_some decodeAppendStateBatch world _ _ _ Hf)
          as (events & event & stateRoots & _ & _ & Hrange & _ & ->).
        replace (Service.nextUnfinalizedTxHeight (this m'))
          with (next + StateBatchAppended._batchSize event) in IH by reflexivity.
        cbn [header_of StateBatchHeader.batchSize] in *.
        lia.
      * cbn [while_finalized]. rewrite bind_gets. fold next.
        rewrite (bind_of_return _ _ _ _ _ _ (of_result _ _ Hc)). fold checked.
        rewrite bind_gets, Hk1. fold next.
        rewrite (bind_of_return _ _ _ _ _ _ (of_result _ _ Hf)). fold fetched.
        cbn [state_of trace_of fst snd throw bind result_of]. 
        rewrite !filter_app. unfold checked at 1, fetched at 1.
        rewrite isTransactionFinalized_no_jump, getStateBatchHeader_no_jump.
        rewrite Hk2. cbn [app filter length Z.of_nat]. unfold next. lia.
      * cbn [while_finalized]. rewrite bind_gets. fold next.
        rewrite (bind_of_return _ _ _ _ _ _ (of_result _ _ Hc)). fold checked.
        rewrite bind_gets, Hk1. fold next.
        rewrite (bind_of_throw _ _ _ _ _ _ (of_result _ _ Hf)). fold fetched.
        cbn [state_of trace_of fst snd].
        rewrite !filter_app. unfold checked at 1, fetched at 1.
        rewrite isTransactionFinalized_no_jump, getStateBatchHeader_no_jump.
        rewrite Hk2. cbn [app filter length Z.of_nat]. unfold next. lia.
      * exfalso. exact (getStateBatchHeader_settles _ _ Hf).
    + cbn [while_finalized]. rewrite bind_gets. fold next.
      rewrite (bind_of_return _ _ _ _ _ _ (of_result _ _ Hc)). fold checked.
      cbn [state_of trace_of fst snd ret]. rewrite app_nil_r.
      unfold checked at 1. rewrite isTransactionFinalized_no_jump.
      rewrite Hk1. cbn [app filter length Z.of_nat]. unfold next. lia.
    + cbn [while_finalized]. rewrite bind_gets. fold next.
      rewrite (bind_of_throw _ _ _ _ _ _ (of_result _ _ Hc)). fold checked.
      cbn [state_of trace_of fst snd].
      unfold checked at 1. rewrite isTransactionFinalized_no_jump.
      rewrite Hk1. cbn [app filter length Z.of_nat]. unfold next. lia.
    + exfalso. exact (isTransactionFinalized_settles _ _ Hc).
Qed.

(** On chains that do not change, the inner loop ends by the time it has
    evaluated its condition [bound - nextUnfinalizedTxHeight + 1] times. *)
Lemma while_finalized_settles (chains : Chains) (events : list StateBatchAppended.t)
    (bound : Z) (budget : nat) (m : Mem) :
  (forall instant, world instant = chains) ->
  scc_StateBatchAppended chains = Resolve events ->
  Forall (fun event => batch_end event <= bound) events ->
  Z.max 0 (bound - Service.nextUnfinalizedTxHeight (this m)) < Z.of_nat budget ->
  result_of (while_finalized_ budget m) <> Running.
Proof.
  intros Hw He Hb. revert m. induction budget as [|n IH]; intros m Hlt; [lia|].
  set (next := Service.nextUnfinalizedTxHeight (this m)) in *.
  set (checked := isTransactionFinalized next m).
  set (fetched := getStateBatchHeader next (state_of checked)).
  assert (Hk1 : this (state_of checked) = this m)
    by apply (isTransactionFinalized_keeps decodeAppendStateBatch world).
  destruct (result_of checked) as [[|]| |] eqn:Hc.
  - destruct (result_of fetched) as [[h|]| |] eqn:Hf.
    + rewrite (while_finalized_round decodeAppendStateBatch world m n h Hc Hf).
      cbn [result_of fst]. apply IH. cbn [this].
      destruct (getStateBatchHeader_some decodeAppendStateBatch world _ _ _ Hf)
        as (events' & event & stateRoots & Hq & Hin & Hrange & _ & ->).
      rewrite Hw, He in Hq. injection Hq as <-.
      pose proof (proj1 (Forall_forall _ _) Hb event Hin) as Hend.
      unfold batch_end in *. cbn. fold next. lia.
    + cbn [while_finalized]. rewrite bind_gets. fold next.
      rewrite (bind_of_return _ _ _ _ _ _ (of_result _ _ Hc)). fold checked.
      rewrite bind_gets, Hk1. fold next.
      rewrite (bind_of_return _ _ _ _ _ _ (of_result _ _ Hf)). discriminate.
    + cbn [while_finalized]. rewrite bind_gets. fold next.
      rewrite (bind_of_return _ _ _ _ _ _ (of_result _ _ Hc)). fold checked.
      rewrite bind_gets, Hk1. fold next.
      rewrite (bind_of_throw _ _ _ _ _ _ (of_result _ _ Hf)). discriminate.
    + exfalso. exact (getStateBatchHeader_settles _ _ Hf).
  - cbn [while_finalized]. rewrite bind_gets. fold next.
    rewrite (bind_of_return _ _ _ _ _ _ (of_result _ _ Hc)). discriminate.
  - cbn [while_finalized]. rewrite bind_gets. fold next.
    rewrite (bind_of_throw _ _ _ _ _ _ (of_result _ _ Hc)). discriminate.
  - exfalso. exact (isTransactionFinalized_settles _ _ Hc).
Qed.

Lemma settles_ret {A} (a : A) : settles (ret a).
Proof. intros m. discriminate. Qed.

Lemma settles_throw {A} (e : Err) : settles (@throw A e).
Proof. intros m. discriminate. Qed.

Lemma settles_gets {A} (f : Service.t -> A) : settles (gets f).
Proof. intros m. discriminate. Qed.

Lemma settles_modify (f : Service.t -> Service.t) : settles (modify f).
Proof. intros m. discriminate. Qed.

Lemma settles_emit (a : Action) : settles (emit a).
Proof. intros m. discriminate. Qed.

Lemma settles_lift {A} (v : Err + A) : settles (lift v).
Proof. intros m. destruct v; discriminate. Qed.

Lemma settles_rpc {A} (c : RpcCall) (ask : Chains -> Answer A) : settles (rpc world c ask).
Proof. intros m. unfold rpc, result_of. cbn. destruct (ask _); discriminate. Qed.

Lemma settles_bind {A B} (c : M A) (k : A -> M B) :
  settles c -> (forall a, settles (k a)) -> settles (bind c k).
Proof.
  intros Hc Hk m. rewrite result_bind. specialize (Hc m).
  destruct (result_of (c m)) as [a| |]; [apply Hk | discriminate | exfalso; apply Hc; reflexivity].
Qed.

Lemma settles_try_catch {A} (c : M A) (handler : Err -> M A) :
  settles c -> (forall e, settles (handler e)) -> settles (try_catch c handler).
Proof.
  intros Hc Hh m. rewrite result_try_catch. specialize (Hc m).
  destruct (result_of (c m)) as [a|e|]; [discriminate | apply Hh | exact Hc].
Qed.

Lemma settles_for_of {A} (xs : list A) (body : A -> M unit) :
  (forall x, settles (body x)) -> settles (for_of xs body).
Proof.
  intros Hb. induction xs as [|x rest IH]; cbn [for_of]; [apply settles_ret|].
  apply settles_bind; [apply Hb | intros u; exact IH].
Qed.

Ltac settles_step :=
  first [ apply settles_ret | apply settles_throw | apply settles_gets | apply settles_modify
        | apply settles_emit | apply settles_lift | apply settles_rpc
        | apply settles_bind; [|intros ?]
        | apply settles_try_catch; [|intros ?]
        | apply settles_for_of; intros ? ].

Ltac settles_auto :=
  repeat first
    [ settles_step
    | match goal with
      | |- settles (match ?x with _ => _ end) => destruct x
      | |- settles (if ?x then _ else _) => destruct x
      end ].

Lemma relay_settles (message : SentMessage.t) : settles (relay_ message).
Proof.
  unfold relay, _wasMessageRelayed, _relayMessageToL1, _getMessageProof, _getStateBatchHeader.
  settles_auto.
Qed.

(** A pass ends.  On chains that do not change while it runs, and with
    every batch event ending at or below [bound], the inner loop has
    returned or thrown by the time it has evaluated its condition
    [bound - nextUnfinalizedTxHeight + 1] times (once, if the cursor is
    already at or above [bound]); and the pass around it returns or throws
    as well: the check, the scan and the handling of each scanned message
    all come to an end. *)
Theorem tick_terminates (chains : Chains) (events : list StateBatchAppended.t)
    (bound : Z) (budget : nat) (m : Mem) :
  (forall instant, world instant = chains) ->
  scc_StateBatchAppended chains = Resolve events ->
  Forall (fun event => batch_end event <= bound) events ->
  Z.max 0 (bound - Service.nextUnfinalizedTxHeight (this m)) < Z.of_nat budget ->
  result_of (while_finalized_ budget m) <> Running
  /\ result_of (tick_ budget m) <> Running.
Proof.
  intros Hw He Hb Hlt.
  split; [exact (while_finalized_settles chains events bound budget m Hw He Hb Hlt)|].
  rewrite (tick_unfold keccak decodeAppendStateBatch decodeRelayMessage rlp_encode world).
  rewrite bind_gets, !bind_emit. cbn [result_of fst].
  rewrite bind_gets, result_bind.
  set (checked := isTransactionFinalized (Service.nextUnfinalizedTxHeight (this m)) m).
  assert (Hk : this (state_of checked) = this m)
    by apply (isTransactionFinalized_keeps decodeAppendStateBatch world).
  pose proof (isTransactionFinalized_settles (Service.nextUnfinalizedTxHeight (this m)) m)
    as Hs. fold checked in Hs.
  destruct (result_of checked) as [[|]| |]; cbn [negb]; try discriminate;
    [|exfalso; apply Hs; reflexivity].
  rewrite bind_modify. unfold finish_tick. rewrite result_bind.
  match goal with |- context [while_finalized_ budget ?s] => set (m2 := s) end.
  pose proof (while_finalized_settles chains events bound budget m2 Hw He Hb) as Ha.
  assert (Hlt2 : Z.max 0 (bound - Service.nextUnfinalizedTxHeight (this m2)) < Z.of_nat budget).
  { unfold m2. cbn [this set_lastFinalizedTxHeight Service.nextUnfinalizedTxHeight].
    rewrite Hk. exact Hlt. }
  specialize (Ha Hlt2).
  destruct (result_of (while_finalized_ budget m2)) as [u| |]; try discriminate;
    [|exfalso; apply Ha; reflexivity].
  match goal with |- result_of (?c ?s) <> Running =>
    enough (H : settles c) by apply H end.
  unfold _getSentMessages.
  settles_auto; apply relay_settles.
Qed.

(** ** The shape of a message proof *)

Lemma getProof_layers_length (f : MerkleTree.Buffer -> MerkleTree.Buffer) (k : nat) :
  forall (nodes : list MerkleTree.Buffer) (rounds i : nat),
    length nodes = (2 ^ k)%nat -> (k <= rounds)%nat -> (i < 2 ^ k)%nat ->
    length (MerkleTree.getProof_layers (nodes :: MerkleTree._createHashes f rounds nodes) i) = k.
Proof.
  induction k as [|k IH]; intros nodes rounds i Hlen Hr Hi.
  - destruct nodes as [|x [|y rest]]; simpl in Hlen; try lia.
    simpl in Hi. assert (i = 0)%nat as -> by lia.
    destruct rounds; reflexivity.
  - destruct rounds as [|r]; [lia|].
    pose proof (MerkleTreeFacts.pow2_pos k) as Hpos.
    assert (Hj : (2 * (i / 2) + 1 < length nodes)%nat).
    { rewrite Hlen. rewrite Nat.pow_succ_r' in Hi |- *.
      pose proof (MerkleTreeFacts.index_halves i). destruct (Nat.odd i); simpl in *; lia. }
    destruct (MerkleTreeFacts.hashLayer_nth f nodes (i / 2) Hj) as (a & b & Ha & Hb & _).
    assert (Hhalf : (i / 2 < 2 ^ k)%nat).
    { rewrite Hlen, Nat.pow_succ_r' in Hj. lia. }
    cbn [MerkleTree._createHashes].
    replace (1 <? length nodes)%nat with true by (symmetry; apply Nat.ltb_lt; lia).
    pose proof (IH (MerkleTree.hashLayer f nodes) r (i / 2)%nat
                  (MerkleTreeFacts.hashLayer_pow2 f k nodes Hlen)) as Hup.
    set (above := MerkleTree.hashLayer f nodes
                  :: MerkleTree._createHashes f r (MerkleTree.hashLayer f nodes)) in *.
    cbn [MerkleTree.getProof_layers]. rewrite length_app, Hup by lia.
    pose proof (MerkleTreeFacts.index_halves i) as Hi2.
    destruct (Nat.odd i) eqn:Hodd; cbn [Nat.b2n] in Hi2.
    + replace (i - 1)%nat with (2 * (i / 2))%nat by lia. rewrite Ha. reflexivity.
    + replace (i + 1)%nat with (2 * (i / 2) + 1)%nat by lia. rewrite Hb. reflexivity.
Qed.

(** The proof assembled for a batch of [n >= 1] state roots that begins
    at a safe integer carries
    exactly [ceil(log2 n)] sibling hashes, one per level of the padded
    tree, for every index inside the tree (none at all for a batch of one
    state root).  Its two witnesses are the RLP encodings of the account
    proof and of the proof of the first storage entry that the L2 node
    returned, and it carries the header it was given. *)
Theorem message_proof_shape (message : SentMessage.t) (proof : EthProof.t)
    (batch : StateBatchHeader.t) (rootsBytes : list (list byte))
    (storageProof0 : EthProof.StorageProof) (others : list EthProof.StorageProof) :
  let stateRoots := StateBatchHeader.stateRoots batch in
  let n := length stateRoots in
  let index := SentMessage.height message - StateBatchHeader.prevTotalElements batch in
  (1 <= n)%nat ->
  Forall2 (fun r b => Hex.arrayify r = Some b) stateRoots rootsBytes ->
  EthProof.storageProof proof = storageProof0 :: others ->
  Z.abs (StateBatchHeader.prevTotalElements batch) < 2 ^ 53 ->
  0 <= index < Z.of_nat (2 ^ Nat.log2_up n) ->
  exists p : MessageProof.t,
    assembleMessageProof keccak rlp_encode message proof batch = inr p
    /\ length (StateRootProof.siblings (MessageProof.stateRootProof p)) = Nat.log2_up n
    /\ (n = 1%nat -> StateRootProof.siblings (MessageProof.stateRootProof p) = [])
    /\ MessageProof.stateRootBatchHeader p = batch
    /\ MessageProof.stateTrieWitness p = rlp_encode (EthProof.accountProof proof)
    /\ MessageProof.storageTrieWitness p = rlp_encode (EthProof.proof storageProof0).
Proof.
  intros stateRoots n index Hn Hbytes Hs Hsafe Hindex.
  pose proof (assembleMessageProof_spec keccak rlp_encode message proof batch rootsBytes
                _ _ Hn Hbytes Hs Hsafe) as Hassemble.
  cbv zeta in Hassemble. fold stateRoots n index in Hassemble.
  set (k := Nat.log2_up n) in *.
  set (leaves := map keccak (rootsBytes ++ repeat (Hex.zeros 32) (2 ^ k - n))) in *.
  assert (Hlen : length leaves = (2 ^ k)%nat).
  { unfold leaves. rewrite length_map, length_app, repeat_length.
    rewrite <- (Forall2_length Hbytes). fold stateRoots n.
    pose proof (le_pow2_ceil_log2 n Hn). fold k in H. lia. }
  assert (Hcount :
    length (map MerkleTree.data
              (MerkleTree.getProof (MerkleTree.new keccak leaves) (at_index leaves index) index))
    = k).
  { rewrite length_map. unfold MerkleTree.getProof.
    replace (index <=? -1) with false by (symmetry; apply Z.leb_gt; lia).
    unfold MerkleTree.new. cbn [MerkleTree.layers].
    apply getProof_layers_length;
      [ exact Hlen
      | change (k <= length leaves)%nat; rewrite Hlen; apply MerkleTreeFacts.le_pow2
      | lia ]. }
  eexists. split; [exact Hassemble|].
  cbn [MessageProof.stateRootProof MessageProof.stateRootBatchHeader
       MessageProof.stateTrieWitness MessageProof.storageTrieWitness StateRootProof.siblings].
  split; [exact Hcount|]. split; [|repeat split].
  intros H1. apply length_zero_iff_nil.
  etransitivity; [exact Hcount|]. unfold k. rewrite H1. reflexivity.
Qed.

(** The local [hash] of [_getMessageProof] prints the digest as a hex
    string, cuts the prefix and parses the digits back into a [Buffer]:
    nothing is lost on the way.  On a [Buffer] it is keccak itself; on a
    hex string it is keccak of the bytes the string denotes; on a string
    that is not hex data it throws. *)
Theorem hash_round_trip :
  (forall b : Buffer, hash_Buffer keccak b = keccak b)
  /\ (forall (el : string) (bs : list byte),
        Hex.arrayify el = Some bs -> hash keccak el = inr (keccak bs))
  /\ (forall bs : list byte, hash keccak (Hex.hexlify bs) = inr (keccak bs))
  /\ (forall el : string,
        Hex.arrayify el = None ->
        hash keccak el = inl (ArgumentError "invalid arrayify value")).
Proof.
  split; [exact (hash_Buffer_keccak keccak)|].
  split; [exact (hash_keccak keccak)|].
  split.
  - intros bs. apply (hash_keccak keccak). apply HexFacts.arrayify_hexlify.
  - intros el H. unfold hash, keccak256. rewrite H. reflexivity.
Qed.

Lemma pow2_ceil_log2_lt (n : nat) : (1 <= n)%nat -> (2 ^ Nat.log2_up n < 2 * n)%nat.
Proof.
  intros H. destruct (Nat.eq_dec n 1) as [->|Hne]; [cbn; lia|].
  assert (Hn : (1 < n)%nat) by lia.
  destruct (Nat.log2_up_spec n Hn) as [Hlo _].
  assert (Hpos : (0 < Nat.log2_up n)%nat) by (apply Nat.log2_up_pos; exact Hn).
  destruct (Nat.log2_up n) as [|k]; [lia|].
  cbn [Nat.pred] in Hlo. rewrite Nat.pow_succ_r'. lia.
Qed.

(** The list of elements that become the leaves.  For an empty list of
    state roots it is empty (the loop bound is [2 ^ -Infinity = 0]).
    Otherwise it is the state roots, in place, followed by zero words up
    to the next power of two: fewer zero words than there are state
    roots, and none when their number is a power of two. *)
Theorem elements_padding (stateRoots : list string) :
  let n := length stateRoots in
  (n = 0%nat -> elements stateRoots = [])
  /\ ((1 <= n)%nat ->
      exists pad : nat,
        elements stateRoots = stateRoots ++ repeat zero32 pad
        /\ (n + pad = 2 ^ Nat.log2_up n)%nat
        /\ (pad < n)%nat)
  /\ (forall k : nat, n = (2 ^ k)%nat -> elements stateRoots = stateRoots).
Proof.
  intros n. split; [|split].
  - intros H0. unfold elements. fold n. rewrite H0. reflexivity.
  - intros Hn. exists (2 ^ Nat.log2_up n - n)%nat.
    pose proof (le_pow2_ceil_log2 n Hn) as Hle.
    pose proof (pow2_ceil_log2_lt n Hn) as Hlt.
    split; [apply elements_padded; exact Hn | lia].
  - intros k Hk.
    assert (Hn : (1 <= n)%nat) by (rewrite Hk; apply MerkleTreeFacts.pow2_pos).
    rewrite (elements_padded _ Hn). fold n. rewrite Hk, Nat.log2_up_pow2 by lia.
    rewrite Nat.sub_diag. apply app_nil_r.
Qed.

(** ** The scans of a run *)

Lemma chained_app (from : Z) (r1 r2 : list (Z * Z)) :
  chained from (r1 ++ r2)
  = match chained from r1 with
    | Some mid => chained mid r2
    | None => None
    end.
Proof.
  revert from. induction r1 as [|[f t] r1 IH]; intros from; [reflexivity|].
  cbn. destruct (f =? from); [apply IH | reflexivity].
Qed.

(** The scans of a run leave no gap.  When the relay loop has made its
    passes and returned, the block ranges it has asked the L2 node for
    follow one another: the first begins at the block of the cursor the
    run began with, each next one begins at the block where the one before
    ended, and the last ends at the block of the cursor the run ends with.
    No block between the two cursors is left out of the scans (and the
    cursor does not move in a run that makes no scan). *)
Theorem scans_are_gapless (ticks budget : nat) (m : Mem) :
  let run := while_running_ ticks budget m in
  let offset := Service.blockOffset (this m) in
  result_of run = Return tt ->
  chained (Service.nextUnfinalizedTxHeight (this m) + offset) (scan_ranges (trace_of run))
  = Some (Service.nextUnfinalizedTxHeight (this (state_of run)) + offset).
Proof.
  revert m. induction ticks as [|n IH]; intros m run offset Hr; subst run.
  - reflexivity.
  - cbn [while_running] in *.
    rewrite result_bind in Hr. rewrite trace_bind, state_bind, scan_ranges_app, chained_app.
    destruct (tick_scans_at keccak decodeAppendStateBatch decodeRelayMessage rlp_encode world
                budget m) as [Hoff Hscan]. fold offset in Hoff, Hscan.
    destruct (result_of (tick_ budget m)) as [[]| |] eqn:Ht; try discriminate Hr.
    specialize (IH (state_of (tick_ budget m)) Hr). cbv zeta in IH. rewrite Hoff in IH.
    rewrite (scan_ranges_filter (trace_of (tick_ budget m))).
    destruct Hscan as [[-> Hsame] | (_ & _ & instant & ->)].
    + cbn [scan_ranges chained]. rewrite <- (Hsame tt eq_refl) at 1. exact IH.
    + cbn [scan_ranges chained]. rewrite Z.eqb_refl. exact IH.
Qed.

End FurtherProperties.

(** * Properties of the state batch submitter *)

Section Submitter.
Import StateBatchSubmitter.

Variable BLOCK_OFFSET : Z.
Variable encodeAppendStateBatch : list string -> Z -> option string.

Local Abbreviation getBatchStartAndEnd := (_getBatchStartAndEnd BLOCK_OFFSET).
Local Abbreviation shrink_ := (shrink encodeAppendStateBatch).
Local Abbreviation generateStateCommitmentBatch :=
  (_generateStateCommitmentBatch encodeAppendStateBatch).
Local Abbreviation submitBatch := (_submitBatch BLOCK_OFFSET encodeAppendStateBatch).

(** The encoded transaction of the batch is not longer than [maxTxSize]. *)
Local Abbreviation fits this startBlock batch :=
  (exists tx, encodeAppendStateBatch batch startBlock = Some tx
              /\ Z.of_nat (String.length tx) <= maxTxSize this).

(** The range of the next batch.  With the three totals at hand, those of
    the two chains being safe integers,
    [_getBatchStartAndEnd] returns a range exactly when the transaction
    chain is ahead of the start block and the batch size limit is
    positive.  A range it returns starts at the total of the state
    commitment chain plus [BLOCK_OFFSET], is not empty, holds at most
    [maxBatchSize] blocks and ends at or below the total of the transaction
    chain, at one of these two bounds; no line is logged.  The error line
    is logged exactly when the start block is above the end block. *)
Theorem getBatchStartAndEnd_range (this : t) (nodes : Nodes)
    (sccTotal blockNumber ctcTotal : Z) :
  let startBlock := sccTotal + BLOCK_OFFSET in
  let outcome := getBatchStartAndEnd this nodes in
  let larger :=
    Logged error
      "State commitment chain is larger than transaction chain. This should never happen!" in
  scc_getTotalElements nodes = Resolve sccTotal ->
  getBlockNumber nodes = Resolve blockNumber ->
  ctc_getTotalElements nodes = Resolve ctcTotal ->
  Z.abs sccTotal < 2 ^ 53 ->
  Z.abs ctcTotal < 2 ^ 53 ->
  (forall range, fst outcome = Return (Some range) ->
     start range = startBlock
     /\ start range < end_ range
     /\ end_ range <= start range + maxBatchSize this
     /\ end_ range <= ctcTotal
     /\ (end_ range = ctcTotal \/ end_ range = start range + maxBatchSize this)
     /\ snd outcome = [])
  /\ ((exists range, fst outcome = Return (Some range))
      <-> startBlock < ctcTotal /\ 0 < maxBatchSize this)
  /\ (fst outcome = Return None <-> ctcTotal <= startBlock \/ maxBatchSize this <= 0)
  /\ (In larger (snd outcome) <-> ctcTotal < startBlock \/ maxBatchSize this < 0).
Proof.
  intros startBlock outcome larger Hs Hb Hc Hss Hsc. subst outcome larger.
  unfold _getBatchStartAndEnd, converted. rewrite Hs, Hb, Hc.
  rewrite (toNumber_safe _ Hss), (toNumber_safe _ Hsc). fold startBlock.
  set (endBlock := Z.min (startBlock + maxBatchSize this) ctcTotal).
  assert (Hend : endBlock = Z.min (startBlock + maxBatchSize this) ctcTotal) by reflexivity.
  clearbody endBlock.
  destruct (startBlock >=? endBlock) eqn:Hge.
  - apply Z.geb_le in Hge.
    destruct (startBlock >? endBlock) eqn:Hgt; cbn [fst snd app].
    + apply Z.gtb_lt in Hgt.
      split; [intros range H; discriminate H|].
      split; [split; [intros [range H]; discriminate H | lia]|].
      split; [split; [lia | reflexivity]|].
      split; [lia | intros _; left; reflexivity].
    + assert (Hle : startBlock <= endBlock) by (destruct (Z.gtb_spec startBlock endBlock); [discriminate | lia]).
      split; [intros range H; discriminate H|].
      split; [split; [intros [range H]; discriminate H | lia]|].
      split; [split; [lia | reflexivity]|].
      split; [intros [H|[]]; discriminate H | lia].
  - assert (Hlt : startBlock < endBlock)
      by (destruct (Z.geb_spec startBlock endBlock); [discriminate | lia]).
    cbn [fst snd].
    split.
    { intros range H. injection H as <-. cbn [start end_]. repeat split; try lia. }
    split; [split; [lia | intros _; eexists; reflexivity]|].
    split; [split; [intros H; discriminate H | lia]|].
    split; [intros [] | lia].
Qed.

(** The L1 block number and [finalityConfirmations] have no part in the
    range: [callBlockNumber] is computed and not used.  Two submitters
    that differ only in [finalityConfirmations], facing nodes that differ
    only in the block number they report, compute the same range and log
    the same lines. *)
Theorem getBatchStartAndEnd_ignores_finality (this this' : t) (nodes nodes' : Nodes)
    (blockNumber blockNumber' : Z) :
  maxBatchSize this' = maxBatchSize this ->
  scc_getTotalElements nodes' = scc_getTotalElements nodes ->
  ctc_getTotalElements nodes' = ctc_getTotalElements nodes ->
  getBlockNumber nodes = Resolve blockNumber ->
  getBlockNumber nodes' = Resolve blockNumber' ->
  getBatchStartAndEnd this' nodes' = getBatchStartAndEnd this nodes.
Proof.
  intros Hm Hs Hc Hb Hb'. unfold _getBatchStartAndEnd.
  rewrite Hs, Hc, Hb, Hb', Hm. reflexivity.
Qed.

(** How the computation of the range fails: on the first of the three
    calls that is rejected, and on a total that [toNumber()] does not
    convert; the total of the state commitment chain is converted before
    the block number is asked for. *)
Theorem getBatchStartAndEnd_failures (this : t) (nodes : Nodes) :
  (forall sccTotal, scc_getTotalElements nodes = Resolve sccTotal ->
     2 ^ 53 <= Z.abs sccTotal ->
     getBatchStartAndEnd this nodes = (Throw (NumericFault "overflow"), []))
  /\ (forall e, scc_getTotalElements nodes = Reject e ->
        getBatchStartAndEnd this nodes = (Throw e, []))
  /\ (forall sccTotal e,
        scc_getTotalElements nodes = Resolve sccTotal -> Z.abs sccTotal < 2 ^ 53 ->
        getBlockNumber nodes = Reject e ->
        getBatchStartAndEnd this nodes = (Throw e, []))
  /\ (forall sccTotal blockNumber ctcTotal,
        scc_getTotalElements nodes = Resolve sccTotal -> Z.abs sccTotal < 2 ^ 53 ->
        getBlockNumber nodes = Resolve blockNumber ->
        ctc_getTotalElements nodes = Resolve ctcTotal -> 2 ^ 53 <= Z.abs ctcTotal ->
        getBatchStartAndEnd this nodes = (Throw (NumericFault "overflow"), [])).
Proof.
  assert (Hbig : forall v, 2 ^ 53 <= Z.abs v -> toNumber v = inl (NumericFault "overflow")).
  { intros v Hv. unfold toNumber.
    replace (Z.abs v <? 2 ^ 53) with false by (symmetry; apply Z.ltb_ge; exact Hv).
    reflexivity. }
  unfold _getBatchStartAndEnd, converted. repeat split.
  - intros sccTotal -> Hv. rewrite (Hbig _ Hv). reflexivity.
  - intros e ->. reflexivity.
  - intros sccTotal e -> Hv ->. rewrite (toNumber_safe _ Hv). reflexivity.
  - intros sccTotal blockNumber ctcTotal -> Hv -> -> Hc.
    rewrite (toNumber_safe _ Hv), (Hbig _ Hc). reflexivity.
Qed.

Lemma collect_spec (nodes : Nodes) (count : nat) :
  forall (i : Z) (roots : list string),
    collect nodes i count = inr roots ->
    length roots = count
    /\ forall j, (j < count)%nat ->
         getBlockWithTransactions nodes (i + Z.of_nat j) = Resolve (Some (nth j roots "")).
Proof.
  induction count as [|n IH]; intros i roots; cbn [collect].
  - intros H. injection H as <-. split; [reflexivity | intros j Hj; lia].
  - destruct (getBlockWithTransactions nodes i) as [[stateRoot|]|e] eqn:Hi;
      try (intros H; discriminate H).
    destruct (collect nodes (i + 1) n) as [e|rest] eqn:Hrest; [intros H; discriminate H|].
    intros H. injection H as <-.
    destruct (IH _ _ Hrest) as [Hlen Hnth]. split; [cbn; rewrite Hlen; reflexivity|].
    intros [|j] Hj.
    + cbn. rewrite Z.add_0_r. exact Hi.
    + cbn [nth]. rewrite <- (Hnth j) by lia. f_equal. lia.
Qed.

Lemma shrink_spec (this : t) (startBlock : Z) (budget : nat) :
  forall batch result : list string,
    shrink_ this startBlock budget batch = Return result ->
    (exists k, result = firstn k batch)
    /\ fits this startBlock result
    /\ (fits this startBlock batch -> result = batch).
Proof.
  induction budget as [|n IH]; intros batch result; cbn [shrink]; [intros H; discriminate H|].
  destruct (encodeAppendStateBatch batch startBlock) as [tx|] eqn:Htx;
    [|intros H; discriminate H].
  destruct (Z.of_nat (String.length tx) >? maxTxSize this) eqn:Hgt.
  - apply Z.gtb_lt in Hgt. intros H. destruct (IH _ _ H) as [[k Hk] [Hfit _]].
    split; [|split; [exact Hfit|]].
    + exists (Nat.min k (Z.to_nat ((Z.of_nat (length batch) * 2 + 2) / 3))).
      rewrite Hk. unfold splice. apply firstn_firstn.
    + intros (tx' & Htx' & Hle). injection Htx' as <-. lia.
  - intros H. injection H as <-.
    assert (Hle : Z.of_nat (String.length tx) <= maxTxSize this)
      by (destruct (Z.gtb_spec (Z.of_nat (String.length tx)) (maxTxSize this));
          [discriminate | lia]).
    split; [exists (length batch); symmetry; apply firstn_all|].
    split; [exists tx; split; [exact Htx | exact Hle] | reflexivity].
Qed.

(** The batch that [_generateStateCommitmentBatch] returns.  Its source is
    the list of state roots of the L2 blocks [startBlock .. endBlock - 1],
    one per block, in order.  What is returned is a prefix of that list
    whose encoded transaction is not longer than [maxTxSize]; it is the
    whole list when the whole list fits. *)
Theorem generated_batch (this : t) (nodes : Nodes) (budget : nat) (startBlock endBlock : Z)
    (batch : list string) :
  generateStateCommitmentBatch this nodes budget startBlock endBlock = Return batch ->
  exists roots : list string,
    length roots = Z.to_nat (endBlock - startBlock)
    /\ (forall j, (j < length roots)%nat ->
          getBlockWithTransactions nodes (startBlock + Z.of_nat j)
          = Resolve (Some (nth j roots "")))
    /\ (exists k, batch = firstn k roots)
    /\ fits this startBlock batch
    /\ (fits this startBlock roots -> batch = roots).
Proof.
  unfold _generateStateCommitmentBatch.
  destruct (collect nodes startBlock (Z.to_nat (endBlock - startBlock))) as [e|roots] eqn:Hc;
    [intros H; discriminate H|].
  intros H. exists roots.
  destruct (collect_spec _ _ _ _ Hc) as [Hlen Hnth].
  destruct (shrink_spec _ _ _ _ _ H) as [Hk [Hfit Hall]].
  split; [exact Hlen|]. split; [rewrite Hlen; exact Hnth|].
  split; [exact Hk|]. split; [exact Hfit | exact Hall].
Qed.

Lemma collect_fails (nodes : Nodes) (count : nat) :
  forall (i : Z) (j : nat) (e : Err),
    (j < count)%nat ->
    (forall k, (k < j)%nat ->
       exists stateRoot,
         getBlockWithTransactions nodes (i + Z.of_nat k) = Resolve (Some stateRoot)) ->
    match getBlockWithTransactions nodes (i + Z.of_nat j) with
    | Reject e' => e' = e
    | Resolve None => e = TypeError "Cannot read property 'stateRoot' of null"
    | Resolve (Some _) => False
    end ->
    collect nodes i count = inl e.
Proof.
  induction count as [|n IH]; intros i j e Hj Hbefore He; [lia|].
  cbn [collect]. destruct j as [|j].
  - cbn in He. rewrite Z.add_0_r in He.
    destruct (getBlockWithTransactions nodes i) as [[root|]|e']; subst;
      [destruct He | reflexivity | reflexivity].
  - destruct (Hbefore 0%nat) as [root Hroot]; [lia|].
    cbn in Hroot. rewrite Z.add_0_r in Hroot. rewrite Hroot.
    rewrite (IH (i + 1) j e); [reflexivity | lia | |].
    + intros k Hk. destruct (Hbefore (S k)) as [r Hr]; [lia|].
      exists r. rewrite <- Hr. f_equal. lia.
    + replace (i + 1 + Z.of_nat j) with (i + Z.of_nat (S j)) by lia. exact He.
Qed.

(** How the generation of a batch fails while it reads the blocks: a
    rejected read of a block, and a block the node does not know (the read
    of its [stateRoot] throws), end it at the first such block; the state
    roots read before are dropped and nothing is encoded. *)
Theorem generated_batch_failures (this : t) (nodes : Nodes) (budget : nat)
    (startBlock endBlock : Z) (j : nat) :
  (j < Z.to_nat (endBlock - startBlock))%nat ->
  (forall i, (i < j)%nat ->
     exists stateRoot,
       getBlockWithTransactions nodes (startBlock + Z.of_nat i) = Resolve (Some stateRoot)) ->
  (forall e, getBlockWithTransactions nodes (startBlock + Z.of_nat j) = Reject e ->
     generateStateCommitmentBatch this nodes budget startBlock endBlock = Throw e)
  /\ (getBlockWithTransactions nodes (startBlock + Z.of_nat j) = Resolve None ->
      generateStateCommitmentBatch this nodes budget startBlock endBlock
      = Throw (TypeError "Cannot read property 'stateRoot' of null")).
Proof.
  intros Hj Hbefore. unfold _generateStateCommitmentBatch. split.
  - intros e He. rewrite (collect_fails nodes _ startBlock j e Hj Hbefore); [reflexivity|].
    rewrite He. reflexivity.
  - intros He.
    rewrite (collect_fails nodes _ startBlock j
               (TypeError "Cannot read property 'stateRoot' of null") Hj Hbefore);
      [reflexivity|].
    rewrite He. reflexivity.
Qed.

Lemma splice_small (batch : list string) : (length batch <= 2)%nat -> splice batch = batch.
Proof.
  intros H. unfold splice.
  destruct batch as [|a [|b [|c rest]]]; try reflexivity. cbn in H. lia.
Qed.

Lemma splice_length (batch : list string) :
  (3 <= length batch)%nat -> (2 <= length (splice batch) < length batch)%nat.
Proof.
  intros H. unfold splice. rewrite length_firstn.
  set (n := length batch) in *.
  assert (H1 : (Z.of_nat n * 2 + 2) / 3 < Z.of_nat n)
    by (apply Z.div_lt_upper_bound; lia).
  assert (H2 : 2 <= (Z.of_nat n * 2 + 2) / 3)
    by (apply Z.div_le_lower_bound; lia).
  lia.
Qed.


(** What [_submitBatch] submits.  A generated batch has an encoded
    transaction.  When that transaction is shorter than [minTxSize], the
    batch is not submitted: one line is logged and nothing is returned.
    Otherwise [appendStateBatch] is called once, with the generated batch
    and the index [startBlock - BLOCK_OFFSET]; for the start block that
    [_getBatchStartAndEnd] computes, this index is the total of the state
    commitment chain. *)
Theorem submitBatch_submission
    (submitAndLogTx : Answer TransactionReceipt -> string
                      -> Result (option TransactionReceipt) * list Event)
    (this : t) (nodes : Nodes) (budget : nat) (startBlock endBlock : Z)
    (batch : list string) :
  let index := startBlock - BLOCK_OFFSET in
  let logged := submitAndLogTx (appendStateBatch nodes batch index)
                               "Submitted state root batch!" in
  generateStateCommitmentBatch this nodes budget startBlock endBlock = Return batch ->
  (exists tx,
     encodeAppendStateBatch batch startBlock = Some tx
     /\ (Z.of_nat (String.length tx) < minTxSize this ->
         submitBatch submitAndLogTx this nodes budget startBlock endBlock
         = (Return None, [Logged info "State batch too small. Skipping batch submission..."]))
     /\ (minTxSize this <= Z.of_nat (String.length tx) ->
         submitBatch submitAndLogTx this nodes budget startBlock endBlock
         = (fst logged, Appended batch index :: snd logged)))
  /\ (forall sccTotal range,
        scc_getTotalElements nodes = Resolve sccTotal ->
        fst (getBatchStartAndEnd this nodes) = Return (Some range) ->
        startBlock = start range ->
        index = sccTotal).
Proof.
  intros index logged Hg.
  assert (Hfit : fits this startBlock batch).
  { unfold _generateStateCommitmentBatch in Hg.
    destruct (collect nodes startBlock _) as [e|roots]; [discriminate Hg|].
    exact (proj1 (proj2 (shrink_spec _ _ _ _ _ Hg))). }
  destruct Hfit as (tx & Htx & _).
  unfold _submitBatch. rewrite Hg, Htx.
  split.
  - exists tx. split; [reflexivity|]. split.
    + intros Hsmall.
      replace (Z.of_nat (String.length tx) <? minTxSize this) with true
        by (symmetry; apply Z.ltb_lt; exact Hsmall).
      reflexivity.
    + intros Hbig.
      replace (Z.of_nat (String.length tx) <? minTxSize this) with false
        by (symmetry; apply Z.ltb_ge; exact Hbig).
      reflexivity.
  - intros sccTotal range Hs Hr ->. subst index.
    unfold _getBatchStartAndEnd, converted in Hr. rewrite Hs in Hr.
    destruct (toNumber sccTotal) as [e|total] eqn:Hn; [discriminate Hr|].
    apply toNumber_inr in Hn as [-> _].
    destruct (getBlockNumber nodes); [|discriminate Hr].
    destruct (match ctc_getTotalElements nodes with
              | Resolve v => toNumber v
              | Reject e => inl e
              end); [discriminate Hr|].
    destruct (_ >=? _); [discriminate Hr|].
    cbn in Hr. injection Hr as <-. cbn. lia.
Qed.

Lemma shrink_keeps_two (this : t) (startBlock : Z) (budget : nat) :
  forall batch result : list string,
    shrink_ this startBlock budget batch = Return result ->
    (Nat.min 2 (length batch) <= length result)%nat.
Proof.
  induction budget as [|n IH]; intros batch result; cbn [shrink]; [intros H; discriminate H|].
  destruct (encodeAppendStateBatch batch startBlock) as [tx|]; [|intros H; discriminate H].
  destruct (Z.of_nat (String.length tx) >? maxTxSize this).
  - intros H. specialize (IH _ _ H).
    destruct (le_lt_dec (length batch) 2) as [Hs|Hl].
    + rewrite (splice_small _ Hs) in IH. exact IH.
    + pose proof (splice_length batch Hl). lia.
  - intros H. injection H as <-. lia.
Qed.

(** The two steps together.  A batch generated for a range that
    [_getBatchStartAndEnd] returned is never empty and never holds more
    than [maxBatchSize] state roots; state root [j] of the batch is the
    state root of L2 block [start + j]. *)
Theorem generated_batch_bounds (this : t) (nodes : Nodes) (budget : nat) (range : Range)
    (batch : list string) :
  fst (getBatchStartAndEnd this nodes) = Return (Some range) ->
  generateStateCommitmentBatch this nodes budget (start range) (end_ range) = Return batch ->
  (1 <= length batch)%nat
  /\ Z.of_nat (length batch) <= maxBatchSize this
  /\ Z.of_nat (length batch) <= end_ range - start range
  /\ (forall j, (j < length batch)%nat ->
        getBlockWithTransactions nodes (start range + Z.of_nat j)
        = Resolve (Some (nth j batch ""))).
Proof.
  intros Hr Hg.
  assert (Hrange : start range < end_ range <= start range + maxBatchSize this).
  { unfold _getBatchStartAndEnd in Hr.
    destruct (converted (scc_getTotalElements nodes)) as [e|sccTotal]; [discriminate Hr|].
    destruct (getBlockNumber nodes); [|discriminate Hr].
    destruct (converted (ctc_getTotalElements nodes)) as [e|ctcTotal]; [discriminate Hr|].
    destruct (_ >=? _) eqn:Hge; [discriminate Hr|].
    cbn in Hr. injection Hr as <-. cbn [start end_].
    destruct (Z.geb_spec (sccTotal + BLOCK_OFFSET)
                (Z.min (sccTotal + BLOCK_OFFSET + maxBatchSize this) ctcTotal));
      [discriminate Hge | lia]. }
  unfold _generateStateCommitmentBatch in Hg.
  destruct (collect nodes (start range) (Z.to_nat (end_ range - start range)))
    as [e|roots] eqn:Hc; [discriminate Hg|].
  destruct (collect_spec _ _ _ _ Hc) as [Hlen Hnth].
  destruct (shrink_spec _ _ _ _ _ Hg) as [[k Hk] _].
  pose proof (shrink_keeps_two _ _ _ _ _ Hg) as Htwo.
  assert (Hle : (length batch <= length roots)%nat).
  { rewrite Hk, length_firstn. lia. }
  split; [lia|]. split; [lia|]. split; [lia|].
  intros j Hj. rewrite Hnth by lia. do 2 f_equal.
  rewrite Hk. rewrite Hk, length_firstn in Hj.
  rewrite <- (firstn_skipn k roots) at 1. rewrite app_nth1; [reflexivity|].
  rewrite length_firstn. exact Hj.
Qed.

End Submitter.

(** * Worked cases of the further properties *)

(** With the options of the test suite (polling every 2000 ms) on chains
    that hold two batches, [_init] returns, warns about the polling
    interval and does not warn about missing events. *)
Lemma init_warnings_witness :
  let log := trace_of (_init Scenario.gate_world (Scenario.boot Scenario.options)) in
  result_of (_init Scenario.gate_world (Scenario.boot Scenario.options)) = Return tt
  /\ In (Log info "Warning: Polling interval should be greater than 15s or less than an hour") log
  /\ ~ In (Log info "Warning: No events exist yet, no state commitment for the given height") log.
Proof.
  destruct (init_warnings Scenario.gate_world (Scenario.boot Scenario.options)
              (map Scenario.event Scenario.gate_batches) eq_refl eq_refl) as (Hno & Hbad & _).
  split; [reflexivity|]. split.
  - apply Hbad. left. reflexivity.
  - intros H. apply Hno in H. discriminate H.
Defined.

(** On chains where the messenger reports the message as relayed, its
    handling returns after the status call, without a submission. *)
Lemma relayed_message_is_skipped_witness :
  let run := relay Scenario.digest Scenario.decodeAppendStateBatch Scenario.rlp_encode
                   Cases.relayed_world (Scenario.sentMessage "00" 0 1)
                   (Scenario.service 15 0 3) in
  result_of run = Return tt
  /\ clock (state_of run) = 16%nat
  /\ Scenario.submissions (trace_of run) = [].
Proof.
  intros run. subst run.
  rewrite (relayed_message_is_skipped Scenario.digest Scenario.decodeAppendStateBatch
             Scenario.rlp_encode Cases.relayed_world (Scenario.sentMessage "00" 0 1)
             (Scenario.service 15 0 3) eq_refl).
  repeat split.
Defined.

(** The message of [boundary_world] when no batch covers its height yet:
    no proof is built, the submission is made without one and its
    rejection is logged. *)
Lemma relay_submission_witness :
  let run := relay Scenario.digest Scenario.decodeAppendStateBatch Scenario.rlp_encode
                   Scenario.boundary_world (Scenario.sentMessage "00" 0 1)
                   (Scenario.service 13 0 1) in
  (result_of run, clock (state_of run), Scenario.submissions (trace_of run),
   last (trace_of run) (Sleep 0))
  = (Return tt, 17%nat, [(0, None)],
     LogErr "Could not relay message to Layer 1, see error log below: ${err}"
            (ArgumentError "invalid tuple value")).
Proof.
  intros run. subst run.
  assert (Hbuilt : result_of (_getMessageProof Scenario.digest Scenario.decodeAppendStateBatch
                                Scenario.rlp_encode Scenario.boundary_world
                                (Scenario.sentMessage "00" 0 1)
                                {| this := this (Scenario.service 13 0 1);
                                   clock := S (clock (Scenario.service 13 0 1)) |})
                   = Return None) by (vm_compute; reflexivity).
  rewrite (relay_submission Scenario.digest Scenario.decodeAppendStateBatch
             Scenario.rlp_encode Scenario.boundary_world (Scenario.sentMessage "00" 0 1)
             (Scenario.service 13 0 1) None eq_refl Hbuilt).
  vm_compute. reflexivity.
Defined.

(** Before any batch has been appended a pass is idle: one call, the
    query for the batch events, between two log lines. *)
Lemma idle_tick_witness :
  tick Scenario.digest Scenario.decodeAppendStateBatch Scenario.decodeRelayMessage
       Scenario.rlp_encode Cases.empty_world 5 (Scenario.service 3 0 0)
  = (Return tt, Scenario.service 4 0 0,
     [Sleep 2000;
      Log info "Checking for newly finalized transactions...";
      Call 3 QueryStateBatchAppended;
      LogN info "Didn't find any newly finalized transactions. Trying again in ${} seconds..." 2]).
Proof.
  exact (proj1 (idle_tick Scenario.digest Scenario.decodeAppendStateBatch
                  Scenario.decodeRelayMessage Scenario.rlp_encode Cases.empty_world 5
                  (Scenario.service 3 0 0) eq_refl)).
Defined.


(** Height 4 lies in the ranges of both batches of [overlap_world]; the
    lookup returns the header of the first. *)
Lemma getStateBatchHeader_first_match_witness :
  result_of (_getStateBatchHeader Scenario.decodeAppendStateBatch Cases.overlap_world 4
               (Scenario.service 3 0 0))
  = Return (Some (header_of (Scenario.event Cases.overlap_first) Scenario.five)).
Proof.
  assert (Hsafe : safe_event (Scenario.event Cases.overlap_first)) by (split; cbn; lia).
  assert (Hrange : StateBatchAppended._prevTotalElements (Scenario.event Cases.overlap_first)
                   <= 4 < batch_end (Scenario.event Cases.overlap_first))
    by (unfold batch_end; cbn; lia).
  rewrite (getStateBatchHeader_first_match Scenario.decodeAppendStateBatch Cases.overlap_world
             4 (Scenario.service 3 0 0) [] [Scenario.event Cases.overlap_second]
             (Scenario.event Cases.overlap_first)
             {| Transaction.data := Scenario.encodeAppendStateBatch Scenario.five |}
             Scenario.five 0 eq_refl (Forall_nil _) Hsafe Hrange eq_refl eq_refl).
  reflexivity.
Defined.

(** An event whose [_prevTotalElements] is 2^53, met before any event that
    covers height 5: the lookup throws. *)
Lemma getStateBatchHeader_overflow_witness :
  result_of (_getStateBatchHeader Scenario.decodeAppendStateBatch Scenario.overflow_world 5
               (Scenario.service 3 0 0))
  = Throw (NumericFault "overflow").
Proof.
  rewrite (getStateBatchHeader_overflow Scenario.decodeAppendStateBatch Scenario.overflow_world
             5 (Scenario.service 3 0 0)
             [Scenario.event (Scenario.batch 0 0 "0xb0" [Scenario.root "11"] false)] []
             (Scenario.event (Scenario.batch 1 (2 ^ 53) "0xb1" [Scenario.root "22"] false))).
  - reflexivity.
  - reflexivity.
  - repeat constructor; cbn; lia.
  - intros other [<-|[]]; cbn; lia.
  - left. cbn. lia.
Defined.

(** The L1 node rejects the query for the batch events: the pass throws
    after that one call and the loop makes no second pass. *)
Lemma lookup_failure_ends_loop_witness :
  while_running Scenario.digest Scenario.decodeAppendStateBatch Scenario.decodeRelayMessage
                Scenario.rlp_encode Cases.outage_world 3 5 (Scenario.service 3 0 0)
  = (Throw (CallError "timeout"), Scenario.service 4 0 0,
     [Sleep 2000; Log info "Checking for newly finalized transactions...";
      Call 3 QueryStateBatchAppended]).
Proof.
  destruct (lookup_failure_ends_loop Scenario.digest Scenario.decodeAppendStateBatch
              Scenario.decodeRelayMessage Scenario.rlp_encode Cases.outage_world 5 2
              (Scenario.service 3 0 0) (CallError "timeout") eq_refl) as (_ & _ & _ & Hrun).
  rewrite Hrun. reflexivity.
Defined.

(** Two final batches that end at height 12: from height 0 a pass with a
    budget of 13 checks has returned or thrown. *)
Lemma tick_terminates_witness :
  result_of (tick Scenario.digest Scenario.decodeAppendStateBatch Scenario.decodeRelayMessage
                  Scenario.rlp_encode (fun _ => Cases.gapless_chains) 13
                  (Scenario.service 3 0 0))
  <> Running.
Proof.
  assert (Hends : Forall (fun event => batch_end event <= 12)
                         [Scenario.event (Scenario.batch 0 0 "0xb0" Scenario.five false);
                          Scenario.event (Scenario.batch 1 5 "0xb1" Scenario.seven false)])
    by (repeat constructor; unfold batch_end; cbn; lia).
  assert (Hbudget : Z.max 0 (12 - Service.nextUnfinalizedTxHeight
                                     (this (Scenario.service 3 0 0))) < Z.of_nat 13)
    by (cbn; lia).
  exact (proj2 (tick_terminates Scenario.digest Scenario.decodeAppendStateBatch
                  Scenario.decodeRelayMessage Scenario.rlp_encode
                  (fun _ => Cases.gapless_chains) Cases.gapless_chains _ 12 13%nat
                  (Scenario.service 3 0 0) (fun _ => eq_refl) eq_refl Hends Hbudget)).
Defined.

(** The batch of three state roots: a proof for height 1 carries two
    sibling hashes. *)
Lemma message_proof_shape_witness :
  exists p : MessageProof.t,
    assembleMessageProof Scenario.digest Scenario.rlp_encode (Scenario.sentMessage "00" 0 1)
                         Scenario.ethProof Scenario.three_header = inr p
    /\ length (StateRootProof.siblings (MessageProof.stateRootProof p)) = 2%nat.
Proof.
  assert (Hbytes : Forall2 (fun r b => Hex.arrayify r = Some b)
                     (StateBatchHeader.stateRoots Scenario.three_header)
                     (map (fun r => Hex.Buffer_from_hex (Hex.slice2 r)) Scenario.three))
    by (repeat constructor).
  assert (Hn : (1 <= length (StateBatchHeader.stateRoots Scenario.three_header))%nat)
    by (cbn; lia).
  assert (Hsafe : Z.abs (StateBatchHeader.prevTotalElements Scenario.three_header) < 2 ^ 53)
    by (cbn; lia).
  assert (Hindex : 0 <= SentMessage.height (Scenario.sentMessage "00" 0 1)
                        - StateBatchHeader.prevTotalElements Scenario.three_header
                   < Z.of_nat (2 ^ Nat.log2_up
                                     (length (StateBatchHeader.stateRoots
                                                Scenario.three_header))))
    by (cbn; lia).
  destruct (message_proof_shape Scenario.digest Scenario.rlp_encode
              (Scenario.sentMessage "00" 0 1) Scenario.ethProof Scenario.three_header
              (map (fun r => Hex.Buffer_from_hex (Hex.slice2 r)) Scenario.three)
              {| EthProof.proof := ["0xe3a120"] |} [] Hn Hbytes eq_refl Hsafe Hindex)
    as (p & Hp & Hlen & _).
  exists p. split; [exact Hp | exact Hlen].
Defined.

(** Three passes on [retry_world]: blocks 8 to 10, then blocks 10 to 11;
    the cursor ends at height 3, block 11. *)
Lemma scans_are_gapless_witness :
  let run := while_running Scenario.digest Scenario.decodeAppendStateBatch
                           Scenario.decodeRelayMessage Scenario.rlp_encode
                           Scenario.retry_world 3 10 (Scenario.service 3 0 0) in
  chained 8 (scan_ranges (trace_of run))
  = Some (Service.nextUnfinalizedTxHeight (this (state_of run)) + 8).
Proof.
  assert (Hrun : result_of (while_running Scenario.digest Scenario.decodeAppendStateBatch
                              Scenario.decodeRelayMessage Scenario.rlp_encode
                              Scenario.retry_world 3 10 (Scenario.service 3 0 0))
                 = Return tt) by (vm_compute; reflexivity).
  exact (scans_are_gapless Scenario.digest Scenario.decodeAppendStateBatch
           Scenario.decodeRelayMessage Scenario.rlp_encode Scenario.retry_world 3 10
           (Scenario.service 3 0 0) Hrun).
Defined.

(** The state commitment chain holds 10 elements and the transaction chain
    15: with [BLOCK_OFFSET] 1 the range is blocks 11 to 15. *)
Lemma getBatchStartAndEnd_range_witness :
  fst (StateBatchSubmitter._getBatchStartAndEnd 1 Cases.submitter (Cases.nodes 15 1000))
  = Return (Some {| StateBatchSubmitter.start := 11; StateBatchSubmitter.end_ := 15 |})
  /\ snd (StateBatchSubmitter._getBatchStartAndEnd 1 Cases.submitter (Cases.nodes 15 1000))
     = [].
Proof.
  assert (Hscc : Z.abs 10 < 2 ^ 53) by (cbn; lia).
  assert (Hctc : Z.abs 15 < 2 ^ 53) by (cbn; lia).
  destruct (getBatchStartAndEnd_range 1 Cases.submitter (Cases.nodes 15 1000) 10 1000 15
              eq_refl eq_refl eq_refl Hscc Hctc) as (Hrange & _).
  split; [reflexivity|].
  exact (proj2 (proj2 (proj2 (proj2 (proj2 (Hrange _ eq_refl)))))).
Defined.

(** A submitter that waits for 100 confirmations at block 2000 computes
    the range of one that waits for 6 at block 1000. *)
Lemma getBatchStartAndEnd_ignores_finality_witness :
  StateBatchSubmitter._getBatchStartAndEnd 1 Cases.patient_submitter (Cases.nodes 15 2000)
  = StateBatchSubmitter._getBatchStartAndEnd 1 Cases.submitter (Cases.nodes 15 1000).
Proof.
  exact (getBatchStartAndEnd_ignores_finality 1 Cases.submitter Cases.patient_submitter
           (Cases.nodes 15 1000) (Cases.nodes 15 2000) 1000 2000
           eq_refl eq_refl eq_refl eq_refl eq_refl).
Defined.

(** Blocks 11 to 14 give four state roots, 258 characters when encoded;
    with a limit of 200 the batch is cut to its first three. *)
Lemma generated_batch_witness :
  exists roots : list string,
    length roots = 4%nat
    /\ StateBatchSubmitter._generateStateCommitmentBatch Cases.encode Cases.submitter
         (Cases.nodes 15 1000) 5 11 15
       = Return (firstn 3 roots).
Proof.
  assert (Hrun : StateBatchSubmitter._generateStateCommitmentBatch Cases.encode Cases.submitter
                   (Cases.nodes 15 1000) 5 11 15
                 = Return [Scenario.root "11"; Scenario.root "12"; Scenario.root "13"])
    by (vm_compute; reflexivity).
  destruct (generated_batch Cases.encode Cases.submitter (Cases.nodes 15 1000) 5 11 15 _ Hrun)
    as (roots & Hlen & Hnth & _).
  exists roots. split; [exact Hlen|]. rewrite Hrun. f_equal.
  destruct roots as [|r0 [|r1 [|r2 [|r3 [|r4 rest]]]]]; try discriminate Hlen.
  pose proof (Hnth 0%nat (Nat.lt_0_succ _)) as H0.
  pose proof (Hnth 1%nat (proj1 (Nat.succ_lt_mono _ _) (Nat.lt_0_succ _))) as H1.
  pose proof (Hnth 2%nat (proj1 (Nat.succ_lt_mono _ _)
                            (proj1 (Nat.succ_lt_mono _ _) (Nat.lt_0_succ _)))) as H2.
  cbn in H0, H1, H2. injection H0 as <-. injection H1 as <-. injection H2 as <-.
  reflexivity.
Defined.

(** The node answers [null] for block 15: the generation of a batch for
    blocks 11 to 16 throws at the fifth block. *)
Lemma generated_batch_failures_witness :
  StateBatchSubmitter._generateStateCommitmentBatch Cases.encode Cases.submitter
    (Cases.nodes 20 1000) 5 11 17
  = Throw (TypeError "Cannot read property 'stateRoot' of null").
Proof.
  assert (Hj : (4 < Z.to_nat (17 - 11))%nat) by (cbn; lia).
  assert (Hbefore : forall i, (i < 4)%nat ->
            exists stateRoot,
              StateBatchSubmitter.getBlockWithTransactions (Cases.nodes 20 1000)
                (11 + Z.of_nat i) = Resolve (Some stateRoot)).
  { intros [|[|[|[|i]]]] Hi; try (eexists; reflexivity). lia. }
  exact (proj2 (generated_batch_failures Cases.encode Cases.submitter (Cases.nodes 20 1000)
                  5 11 17 4 Hj Hbefore) eq_refl).
Defined.

(** The batch of three state roots is submitted at index 10, the total of
    the state commitment chain, and the receipt is returned. *)
Lemma submitBatch_submission_witness :
  StateBatchSubmitter._submitBatch 1 Cases.encode Cases.submitAndLogTx Cases.submitter
    (Cases.nodes 15 1000) 5 11 15
  = (Return (Some {| StateBatchSubmitter.transactionHash := "0xaa" |}),
     [StateBatchSubmitter.Appended
        [Scenario.root "11"; Scenario.root "12"; Scenario.root "13"] 10;
      StateBatchSubmitter.Logged info "Submitted state root batch!"]).
Proof.
  assert (Hrun : StateBatchSubmitter._generateStateCommitmentBatch Cases.encode Cases.submitter
                   (Cases.nodes 15 1000) 5 11 15
                 = Return [Scenario.root "11"; Scenario.root "12"; Scenario.root "13"])
    by (vm_compute; reflexivity).
  destruct (submitBatch_submission 1 Cases.encode Cases.submitAndLogTx Cases.submitter
              (Cases.nodes 15 1000) 5 11 15 _ Hrun) as ((tx & Htx & _ & Hbig) & _).
  rewrite Hbig; [reflexivity|].
  vm_compute in Htx. injection Htx as <-. vm_compute. discriminate.
Defined.

(** The batch generated for the range of blocks 11 to 15 holds between one
    and four state roots, and its third state root is that of block 13. *)
Lemma generated_batch_bounds_witness :
  exists batch : list string,
    StateBatchSubmitter._generateStateCommitmentBatch Cases.encode Cases.submitter
      (Cases.nodes 15 1000) 5 11 15 = Return batch
    /\ (1 <= length batch <= 4)%nat
    /\ StateBatchSubmitter.getBlockWithTransactions (Cases.nodes 15 1000) 13
       = Resolve (Some (nth 2 batch "")).
Proof.
  assert (Hrun : StateBatchSubmitter._generateStateCommitmentBatch Cases.encode Cases.submitter
                   (Cases.nodes 15 1000) 5 11 15
                 = Return [Scenario.root "11"; Scenario.root "12"; Scenario.root "13"])
    by (vm_compute; reflexivity).
  destruct (generated_batch_bounds 1 Cases.encode Cases.submitter (Cases.nodes 15 1000) 5
              {| StateBatchSubmitter.start := 11; StateBatchSubmitter.end_ := 15 |} _
              eq_refl Hrun) as (Hone & _ & Hfour & Hnth).
  eexists. split; [exact Hrun|]. split; [cbn in Hfour |- *; lia|].
  exact (Hnth 2%nat (Nat.lt_succ_diag_r 2)).
Defined.
